(** * UTF-safe string operations (utfstring): a shallow embedding

    The development follows [utf_string.js] and [utf_visual_string.js].
    A JavaScript string is a sequence of 16-bit code units; the library
    walks it with global regular expressions whose [lastIndex] is the only
    mutable state.  Loops that the source writes as [while] are modelled by
    fuel: [None] means that the loop did not finish within the fuel given. *)

From Stdlib Require Import ZArith List Lia Bool Arith.
Import ListNotations.

Local Open Scope Z_scope.

(** Sequencing of computations that may run out of fuel. *)
Notation "x <- a ;; b" :=
  (match a with None => None | Some x => b end)
  (at level 60, a at next level, right associativity).

(** ** The JavaScript primitives the library calls *)

Definition string16 := list Z.

Inductive number :=
| Num (z : Z)
| NaN.

Module Js.

(** [str.length] *)
Definition length (s : string16) : Z := Z.of_nat (List.length s).

(** [str.charCodeAt(i)]: [NaN] outside of the string. *)
Definition charCodeAt (s : string16) (i : Z) : number :=
  if (i <? 0) || (i >=? length s) then NaN
  else Num (nth (Z.to_nat i) s 0).

(** Relative index of [slice]: negative counts from the end, then clamp. *)
Definition clamp (len i : Z) : Z :=
  if i <? 0 then Z.max (len + i) 0 else Z.min i len.

(** [str.slice(from, to)] *)
Definition slice (s : string16) (from to : Z) : string16 :=
  let a := clamp (length s) from in
  let b := clamp (length s) to in
  firstn (Z.to_nat (b - a)) (skipn (Z.to_nat a) s).

Fixpoint starts_with (needle s : string16) : bool :=
  match needle with
  | [] => true
  | c :: needle' =>
      match s with
      | [] => false
      | d :: s' => (c =? d) && starts_with needle' s'
      end
  end.

Fixpoint find_from (needle s : string16) (pos : nat) : Z :=
  if starts_with needle s then Z.of_nat pos
  else match s with
       | [] => -1
       | _ :: s' => find_from needle s' (S pos)
       end.

(** [str.indexOf(needle, position)]: the position is clamped to
    [0 .. str.length]. *)
Definition indexOf (s needle : string16) (position : Z) : Z :=
  let p := Z.to_nat (Z.min (Z.max position 0) (length s)) in
  find_from needle (skipn p s) p.

(** [ToInt32], [ToUint16] and the 32-bit operators. *)
Definition toInt32 (z : Z) : Z := (z + 2 ^ 31) mod 2 ^ 32 - 2 ^ 31.
Definition toUint16 (z : Z) : Z := z mod 2 ^ 16.
Definition shr (a b : Z) : Z := Z.shiftr (toInt32 a) (b mod 32).
Definition shl (a b : Z) : Z := toInt32 (Z.shiftl (toInt32 a) (b mod 32)).
Definition and (a b : Z) : Z := Z.land (toInt32 a) (toInt32 b).
Definition or (a b : Z) : Z := Z.lor (toInt32 a) (toInt32 b).

(** [String.fromCharCode(c)] for one argument. *)
Definition fromCharCode (c : Z) : Z := toUint16 c.

(** Largest position at most [start] where the needle occurs, walking the
    string from [pos] with the best position so far. *)
Fixpoint find_last (needle s : string16) (pos start : nat) (best : Z) : Z :=
  if (start <? pos)%nat then best
  else
    let best' := if starts_with needle s then Z.of_nat pos else best in
    match s with
    | [] => best'
    | _ :: s' => find_last needle s' (S pos) start best'
    end.

(** [str.lastIndexOf(needle, position)]: a missing position is the end of
    the string; a position is clamped to [0 .. str.length]. *)
Definition lastIndexOf (s needle : string16) (position : option Z) : Z :=
  let start :=
    match position with
    | None => length s
    | Some p => Z.min (Z.max p 0) (length s)
    end in
  find_last needle s 0 (Z.to_nat start) (-1).

End Js.

(** ** Regular expressions

    The four expressions of the library are alternations of fixed
    sequences of character classes, without the [u] flag: [[^]] is any
    single code unit. *)

Inductive cclass :=
| CRange (lo hi : Z)
| CAny.

Definition pattern := list (list cclass).

Definition in_class (c : cclass) (x : Z) : bool :=
  match c with
  | CRange lo hi => (lo <=? x) && (x <=? hi)
  | CAny => true
  end.

(** Length of the match of one alternative at the head of [s]. *)
Fixpoint match_seq (cs : list cclass) (s : string16) : option nat :=
  match cs with
  | [] => Some O
  | c :: cs' =>
      match s with
      | [] => None
      | x :: s' =>
          if in_class c x then option_map S (match_seq cs' s') else None
      end
  end.

(** Ordered alternation: the first alternative that matches wins. *)
Fixpoint match_alt (r : pattern) (s : string16) : option nat :=
  match r with
  | [] => None
  | a :: r' =>
      match match_seq a s with
      | Some n => Some n
      | None => match_alt r' s
      end
  end.

(** A global ([g]) regular expression object. *)
Record RegExp := mkRegExp { source : pattern; lastIndex : nat }.

Record Match := mkMatch { index : nat; text : string16 }.

Definition newRegExp (p : pattern) : RegExp := mkRegExp p 0.

(** First position at or after [pos] where the pattern matches; [s] is the
    rest of the string from [pos]. *)
Fixpoint search (r : pattern) (s : string16) (pos : nat) : option (nat * nat) :=
  match match_alt r s with
  | Some n => Some (pos, n)
  | None =>
      match s with
      | [] => None
      | _ :: s' => search r s' (S pos)
      end
  end.

(** [scanner.exec(str)]: the match (or null) and the scanner afterwards. *)
Definition exec (re : RegExp) (str : string16) : option Match * RegExp :=
  if (List.length str <? lastIndex re)%nat then (None, mkRegExp (source re) 0)
  else
    match search (source re) (skipn (lastIndex re) str) (lastIndex re) with
    | Some (i, n) =>
        (Some (mkMatch i (firstn n (skipn i str))),
         mkRegExp (source re) (i + n))
    | None => (None, mkRegExp (source re) 0)
    end.

(** [scanner.test(str)] *)
Definition test (re : RegExp) (str : string16) : bool :=
  match fst (exec re str) with
  | Some _ => true
  | None => false
  end.

(** [/[\uD800-\uDBFF][\uDC00-\uDFFF]/] *)
Definition surrogatePairs : pattern :=
  [[CRange 0xD800 0xDBFF; CRange 0xDC00 0xDFFF]].

(** [/\uD83C[\uDDE6-\uDDFF]\uD83C[\uDDE6-\uDDFF]/] *)
Definition regionalIndicatorPairs : pattern :=
  [[CRange 0xD83C 0xD83C; CRange 0xDDE6 0xDDFF;
    CRange 0xD83C 0xD83C; CRange 0xDDE6 0xDDFF]].

Definition createSurrogatePairScanner : RegExp :=
  newRegExp surrogatePairs.

Definition createUtfSafeCharScannerHandlingSurrogatePairs : RegExp :=
  newRegExp (surrogatePairs ++ [[CAny]]).

Definition createRegionalIndicatorAndSurrogatePairScanner : RegExp :=
  newRegExp (regionalIndicatorPairs ++ surrogatePairs).

Definition createUtfSafeCharScannerHandingRegionalIndicatorPairsAndSurrogatePairs
  : RegExp :=
  newRegExp (regionalIndicatorPairs ++ surrogatePairs ++ [[CAny]]).

(** ** The two classes

    [UtfVisualString] extends [UtfString] and overrides only the two
    scanner factories; every static method reaches them through [this]. *)

Class UtfClass := {
  createUnsafeUtfCharFinder : RegExp;
  createUtfSafeCharScanner : RegExp
}.

Definition UtfString : UtfClass := {|
  createUnsafeUtfCharFinder := createSurrogatePairScanner;
  createUtfSafeCharScanner := createUtfSafeCharScannerHandlingSurrogatePairs
|}.

Definition UtfVisualString : UtfClass := {|
  createUnsafeUtfCharFinder := createRegionalIndicatorAndSurrogatePairScanner;
  createUtfSafeCharScanner :=
    createUtfSafeCharScannerHandingRegionalIndicatorPairsAndSurrogatePairs
|}.

(** ** The static methods *)

Section Methods.

Context {cls : UtfClass}.

Definition containsUnsafeUtfChars (str : string16) : bool :=
  test createUnsafeUtfCharFinder str.

(** The [while (scanner.exec(str) !== null)] loop of [findCharIndex]. *)
Fixpoint findCharIndex_loop (fuel : nat) (scanner : RegExp) (str : string16)
  (byteIndex charCount : Z) : option Z :=
  match fuel with
  | O => None
  | S fuel' =>
      match exec scanner str with
      | (None, _) => Some charCount
      | (Some _, scanner') =>
          if Z.of_nat (lastIndex scanner') >? byteIndex then Some charCount
          else findCharIndex_loop fuel' scanner' str byteIndex (charCount + 1)
      end
  end.

Definition findCharIndex (fuel : nat) (str : string16) (byteIndex : Z)
  : option Z :=
  if byteIndex >=? Js.length str then Some (-1)
  else if negb (containsUnsafeUtfChars str) then Some byteIndex
  else findCharIndex_loop fuel createUtfSafeCharScanner str byteIndex 0.

Definition lengthOf (fuel : nat) (str : string16) : option Z :=
  r <- findCharIndex fuel str (Js.length str - 1) ;;
  Some (r + 1).

(** The inner [while (curCharIndex < charIndex)] loop of [scan]; it
    returns the new [byteIndex] and [curCharIndex]. *)
Fixpoint scan_inner (fuel : nat) (m : option Match) (nextIdx charIndex : Z)
  (byteIndex curCharIndex : Z) : option (Z * Z) :=
  match fuel with
  | O => None
  | S fuel' =>
      if curCharIndex <? charIndex then
        if byteIndex =? nextIdx then
          if curCharIndex <? charIndex then
            Some (match m with
                  | Some mt => byteIndex + Js.length (text mt)
                  | None => byteIndex + 1
                  end, curCharIndex + 1)
          else Some (byteIndex, curCharIndex)
        else
          scan_inner fuel' m nextIdx charIndex
            (byteIndex + 1) (curCharIndex + 1)
      else Some (byteIndex, curCharIndex)
  end.

(** The outer [while (true)] loop of [scan]. *)
Fixpoint scan_loop (fuel : nat) (str : string16) (scanner : RegExp)
  (charIndex byteIndex curCharIndex : Z) : option Z :=
  match fuel with
  | O => None
  | S fuel' =>
      let '(m, scanner') := exec scanner str in
      let nextIdx :=
        match m with
        | Some mt => Z.of_nat (index mt)
        | None => Js.length str
        end in
      st <- scan_inner fuel m nextIdx charIndex byteIndex curCharIndex ;;
      let '(byteIndex', curCharIndex') := st in
      if curCharIndex' =? charIndex then Some byteIndex'
      else if (byteIndex' >=? Js.length str)
              || match m with Some _ => false | None => true end
           then Some (-1)
           else scan_loop fuel' str scanner' charIndex byteIndex' curCharIndex'
  end.

Definition scan (fuel : nat) (str : string16) (scanner : RegExp)
  (charIndex : Z) : option Z :=
  if negb (containsUnsafeUtfChars str) then Some charIndex
  else scan_loop fuel str scanner charIndex 0 0.

Definition findSurrogateByteIndex (fuel : nat) (str : string16)
  (charIndex : Z) : option Z :=
  scan fuel str createSurrogatePairScanner charIndex.

Definition findByteIndex (fuel : nat) (str : string16) (charIndex : Z)
  : option Z :=
  n <- lengthOf fuel str ;;
  if charIndex >=? n then Some (-1)
  else scan fuel str createUtfSafeCharScanner charIndex.

(** [characters[0]] is only reached when the scanner finds nothing, which
    needs [characters] to be empty (see [charAt_always_matches]). *)
Definition charAt (fuel : nat) (str : string16) (index : Z)
  : option string16 :=
  byteIndex <- findByteIndex fuel str index ;;
  if byteIndex <? 0 then Some []
  else
    let characters := Js.slice str byteIndex (byteIndex + 8) in
    let scanner := createUtfSafeCharScanner in
    match fst (exec scanner characters) with
    | None => Some (firstn 1 characters)
    | Some m => Some (text m)
    end.

Definition charCodeAt (fuel : nat) (str : string16) (index : Z)
  : option number :=
  byteIndex <- findSurrogateByteIndex fuel str index ;;
  if byteIndex <? 0 then Some NaN
  else
    match Js.charCodeAt str byteIndex with
    | NaN => Some NaN
    | Num code =>
        if (0xd800 <=? code) && (code <=? 0xdbff) then
          match Js.charCodeAt str (byteIndex + 1) with
          | Num low =>
              Some (Num ((code - 0xd800) * 0x400 + (low - 0xdc00) + 0x10000))
          | NaN => Some NaN
          end
        else Some (Num code)
    end.

(** The instance method [codePointAt] forwards to the static
    [charCodeAt]. *)
Definition codePointAt (fuel : nat) (str : string16) (index : Z)
  : option number :=
  charCodeAt fuel str index.

(** [indexOf(str, searchValue, start = 0)] *)
Definition indexOf (fuel : nat) (str searchValue : string16)
  (start : option Z) : option Z :=
  let start := match start with Some s => s | None => 0 end in
  startByteIndex <- findByteIndex fuel str start ;;
  if startByteIndex <? 0 then Some (-1)
  else
    let index := Js.indexOf str searchValue startByteIndex in
    if index <? 0 then Some (-1) else findCharIndex fuel str index.

(** The [do ... while] loop of [padEnd]; [n] bounds its iterations. *)
Fixpoint padEnd_loop (n fuel : nat) (targetLength : Z)
  (padString : string16) (iPadStr : Z) (newStr : string16)
  : option string16 :=
  match n with
  | O => None
  | S n' =>
      c <- charAt fuel padString iPadStr ;;
      let newStr := newStr ++ c in
      let iPadStr := iPadStr + 1 in
      lp <- lengthOf fuel padString ;;
      let iPadStr := if iPadStr >=? lp then 0 else iPadStr in
      ln <- lengthOf fuel newStr ;;
      if ln <? targetLength
      then padEnd_loop n' fuel targetLength padString iPadStr newStr
      else Some newStr
  end.

(** [padEnd(str, targetLength, padString = " ")] *)
Definition padEnd (fuel : nat) (str : string16) (targetLength : Z)
  (padString : option string16) : option string16 :=
  let padString := match padString with Some p => p | None => [0x20] end in
  l <- lengthOf fuel str ;;
  if targetLength <=? l then Some str
  else padEnd_loop fuel fuel targetLength padString 0 str.

(** The [do ... while] loop of [padStart]. *)
Fixpoint padStart_loop (n fuel : nat) (str : string16) (targetLength : Z)
  (padString : string16) (iPadStr : Z) (fullPadding : string16)
  : option string16 :=
  match n with
  | O => None
  | S n' =>
      c <- charAt fuel padString iPadStr ;;
      let fullPadding := fullPadding ++ c in
      let iPadStr := iPadStr + 1 in
      lp <- lengthOf fuel padString ;;
      let iPadStr := if iPadStr >=? lp then 0 else iPadStr in
      ln <- lengthOf fuel (fullPadding ++ str) ;;
      if ln <? targetLength
      then padStart_loop n' fuel str targetLength padString iPadStr
             fullPadding
      else Some (fullPadding ++ str)
  end.

(** [padStart(str, targetLength, padString = " ")] *)
Definition padStart (fuel : nat) (str : string16) (targetLength : Z)
  (padString : option string16) : option string16 :=
  let padString := match padString with Some p => p | None => [0x20] end in
  l <- lengthOf fuel str ;;
  if targetLength <=? l then Some str
  else padStart_loop fuel fuel str targetLength padString 0 [].

(** [slice(str, start, end)]; [None] is an argument that is not a
    number ([isNumber] is false). *)
Definition slice (fuel : nat) (str : string16) (start end_ : option Z)
  : option string16 :=
  start <- match start with
           | None => Some 0
           | Some s =>
               if s <? 0 then (len <- lengthOf fuel str ;; Some (len + s))
               else Some s
           end ;;
  end_ <- match end_ with
          | None => Some (Js.length str)
          | Some e =>
              len <- lengthOf fuel str ;;
              if e >=? len then Some (Js.length str)
              else if e <? 0
                   then (len' <- lengthOf fuel str ;; Some (len' + e))
                   else Some e
          end ;;
  startByteIndex <- findByteIndex fuel str start ;;
  let startByteIndex :=
    if startByteIndex <? 0 then Js.length str else startByteIndex in
  finishByteIndex <- findByteIndex fuel str end_ ;;
  let finishByteIndex :=
    if finishByteIndex <? 0 then Js.length str else finishByteIndex in
  Some (Js.slice str startByteIndex finishByteIndex).

(** The [do ... while] loop of [stringToCharArray]. *)
Fixpoint stringToCharArray_loop (fuel : nat) (scanner : RegExp)
  (str : string16) : option (list string16) :=
  match fuel with
  | O => None
  | S fuel' =>
      match exec scanner str with
      | (None, _) => Some []
      | (Some m, scanner') =>
          rest <- stringToCharArray_loop fuel' scanner' str ;;
          Some (text m :: rest)
      end
  end.

Definition stringToCharArray (fuel : nat) (str : string16)
  : option (list string16) :=
  stringToCharArray_loop fuel createUtfSafeCharScanner str.

(** The [for] loop of [stringToCodePoints]: [n] is the number of
    indices left, [i] the current one; [!codePoint] holds for [NaN]
    and for [0]. *)
Fixpoint stringToCodePoints_loop (fuel n : nat) (str : string16) (i : Z)
  : option (list Z) :=
  match n with
  | O => Some []
  | S n' =>
      codePoint <- charCodeAt fuel str i ;;
      match codePoint with
      | NaN => Some []
      | Num 0 => Some []
      | Num c =>
          rest <- stringToCodePoints_loop fuel n' str (i + 1) ;;
          Some (c :: rest)
      end
  end.

Definition stringToCodePoints (fuel : nat) (str : string16)
  : option (list Z) :=
  stringToCodePoints_loop fuel (length str) str 0.

(** [lastIndexOf(str, searchValue, start)]; [None] is an undefined
    [start]. *)
Definition lastIndexOf (fuel : nat) (str searchValue : string16)
  (start : option Z) : option Z :=
  match start with
  | None =>
      let index := Js.lastIndexOf str searchValue None in
      if index <? 0 then Some (-1) else findCharIndex fuel str index
  | Some start =>
      startByteIndex <- findByteIndex fuel str start ;;
      if startByteIndex <? 0 then Some (-1)
      else
        let index := Js.lastIndexOf str searchValue (Some startByteIndex) in
        if index <? 0 then Some (-1) else findCharIndex fuel str index
  end.

(** The instance method [includes(searchValue, start = 0)]. *)
Definition includes (fuel : nat) (str searchValue : string16)
  (start : option Z) : option bool :=
  r <- indexOf fuel str searchValue start ;;
  Some (negb (r =? -1)).

(** [substr(str, start, length)]: [start] is [None] when it is not a
    number; [length] is [None] when undefined and may be [NaN]. *)
Definition substr (fuel : nat) (str : string16) (start : option Z)
  (length : option number) : option string16 :=
  let start := match start with Some s => s | None => 0 end in
  let clamped :=
    if start <? 0
    then (len <- lengthOf fuel str ;; Some (Z.max (len + start) 0))
    else Some start in
  match length with
  | Some NaN => Some []
  | Some (Num l) =>
      if l <=? 0 then Some []
      else (start' <- clamped ;; slice fuel str (Some start') (Some (start' + l)))
  | None => start' <- clamped ;; slice fuel str (Some start') None
  end.

(** [substring(str, start, end)]: [start] is [None] when it is not a
    number; [end] is [None] when undefined and may be [NaN]. *)
Definition substring (fuel : nat) (str : string16) (start : option Z)
  (end_ : option number) : option string16 :=
  let start :=
    match start with
    | Some s => if s <? 0 then 0 else s
    | None => 0
    end in
  end_ <- match end_ with
          | None => lengthOf fuel str
          | Some NaN => Some 0
          | Some (Num e) => Some (if e <? 0 then 0 else e)
          end ;;
  if start >? end_ then slice fuel str (Some end_) (Some start)
  else slice fuel str (Some start) (Some end_).

(** The iterator of an instance: [charAt(i)] for [i] from 0 while
    [i < this.length]; [n] bounds the iterations of the [for] loop. *)
Fixpoint iterator_loop (n fuel : nat) (str : string16) (i : Z)
  : option (list string16) :=
  match n with
  | O => None
  | S n' =>
      len <- lengthOf fuel str ;;
      if i <? len then
        c <- charAt fuel str i ;;
        rest <- iterator_loop n' fuel str (i + 1) ;;
        Some (c :: rest)
      else Some []
  end.

Definition iterator (fuel : nat) (str : string16)
  : option (list string16) :=
  iterator_loop fuel fuel str 0.

End Methods.

(** These static methods do not reach the scanners. *)

Definition stringFromCharCode (charCode : Z) : string16 :=
  if charCode >? 0xffff then
    let charCode := charCode - 0x10000 in
    [Js.fromCharCode (0xd800 + Js.shr charCode 10);
     Js.fromCharCode (0xdc00 + Js.and charCode 0x3ff)]
  else [Js.fromCharCode charCode].

Definition codePointsToString (arr : list Z) : string16 :=
  concat (map stringFromCharCode arr).

(** The [while (chr > 0)] loop of [stringToBytes]. *)
Fixpoint stringToBytes_while (fuel : nat) (chr : Z) (byteArray : list Z)
  : option (list Z) :=
  match fuel with
  | O => None
  | S fuel' =>
      if chr >? 0
      then stringToBytes_while fuel' (Js.shr chr 8)
             (byteArray ++ [Js.and chr 0xff])
      else Some byteArray
  end.

(** The [for] loop of [stringToBytes] over the code units that are left. *)
Fixpoint stringToBytes_loop (fuel : nat) (rest : string16) (result : list Z)
  : option (list Z) :=
  match rest with
  | [] => Some result
  | chr :: rest' =>
      byteArray <- stringToBytes_while fuel chr [] ;;
      let byteArray :=
        if (length byteArray =? 1)%nat then byteArray ++ [0] else byteArray in
      stringToBytes_loop fuel rest' (result ++ rev byteArray)
  end.

Definition stringToBytes (fuel : nat) (str : string16) : option (list Z) :=
  stringToBytes_loop fuel str [].

(** [bytesToString]: two bytes per step; a missing second byte is
    [undefined], which [|] reads as 0. *)
Fixpoint bytesToString (arr : list Z) : string16 :=
  match arr with
  | [] => []
  | [hi] => [Js.fromCharCode (Js.or (Js.shl hi 8) 0)]
  | hi :: low :: arr' =>
      Js.fromCharCode (Js.or (Js.shl hi 8) low) :: bytesToString arr'
  end.


(** Texts of the scenarios: a flag of two regional indicators followed by
    [x], and [a], a surrogate pair, [b]. *)
Definition flag_x : string16 := [0xD83C; 0xDDE9; 0xD83C; 0xDDEA; 0x78].
Definition a_smile_b : string16 := [0x61; 0xD83D; 0xDE42; 0x62].

(** ** Logical characters

    The reference description that the proofs relate the loops to: the
    characters that a scanner built from the multi-unit alternatives [u]
    followed by [[^]] cuts a string into.  [stringToCharArray] computes
    [chars] ([stringToCharArray_loop_spec]), [lengthOf] its length
    ([lengthOf_spec]). *)

Section Tokens.

Variable u : pattern.

Definition spanAt (s : string16) : nat :=
  match match_alt u s with
  | Some n => n
  | None => 1%nat
  end.

Fixpoint chars_aux (fuel : nat) (s : string16) : list string16 :=
  match fuel with
  | O => []
  | S fuel' =>
      match s with
      | [] => []
      | _ :: _ =>
          firstn (spanAt s) s :: chars_aux fuel' (skipn (spanAt s) s)
      end
  end.

Definition chars (s : string16) : list string16 := chars_aux (length s) s.

(** Number of logical characters, and code-unit offset of the [i]-th. *)
Definition logicalLength (s : string16) : Z := Z.of_nat (length (chars s)).

Definition offsetOf (s : string16) (i : nat) : Z :=
  Z.of_nat (length (concat (firstn i (chars s)))).

(** Index of the logical character that covers code unit [b], counting
    from a character that starts at code unit [p]. *)
Fixpoint cover (cs : list string16) (p b : Z) : Z :=
  match cs with
  | [] => 0
  | c :: cs' =>
      if p + Js.length c >? b then 0
      else 1 + cover cs' (p + Js.length c) b
  end.

(** Characters from code unit [p] of [str] on, and the width of the
    first [j] of them. *)
Definition ntok (str : string16) (p : nat) : Z :=
  Z.of_nat (length (chars (skipn p str))).

Definition off (str : string16) (p j : nat) : Z :=
  Z.of_nat (length (concat (firstn j (chars (skipn p str))))).

(** A run of single-unit characters of [str] from [p] up to [q]. *)
Definition singles (str : string16) (p q : nat) : Prop :=
  forall k, (p <= k < q)%nat -> spanAt (skipn k str) = 1%nat.

End Tokens.

(** Surrogate code units; a lone one is a high surrogate that no low
    surrogate follows, or a low surrogate that no high surrogate
    precedes. *)
Definition isHigh (c : Z) : Prop := 0xD800 <= c <= 0xDBFF.
Definition isLow (c : Z) : Prop := 0xDC00 <= c <= 0xDFFF.

Definition lone (pre : string16) (c : Z) (post : string16) : Prop :=
  (isHigh c /\ ~ isLow (hd 0 post)) \/ (isLow c /\ ~ isHigh (last pre 0)).

(** The multi-unit alternatives of a class, and what the proofs need of
    its two scanners. *)
Definition multiUnit (cls : UtfClass) : pattern :=
  source (@createUnsafeUtfCharFinder cls).

Record Lawful (cls : UtfClass) : Prop := {
  finder_fresh : lastIndex (@createUnsafeUtfCharFinder cls) = 0%nat;
  scanner_fresh : lastIndex (@createUtfSafeCharScanner cls) = 0%nat;
  scanner_source :
    source (@createUtfSafeCharScanner cls) = multiUnit cls ++ [[CAny]];
  finder_multi :
    Forall (fun a => (2 <= length a <= 4)%nat) (multiUnit cls)
}.

(** A scanner pattern [r] walks the characters cut by [u] when each match
    it finds is the next multi-unit character, or every next character. *)
Definition Walks (r u : pattern) : Prop :=
  r = u \/ r = u ++ [[CAny]].

(** ** Vocabulary of the statements *)

(** The two bytes of a code unit, high byte first. *)
Definition bytesOf (c : Z) : list Z := [c / 256; c mod 256].

(** The [j]-th pad character when cycling through the logical characters
    [cs] of the pad text, and the first [k] of them in a row. *)
Definition padChar (cs : list string16) (j : nat) : string16 :=
  nth (j mod length cs) cs [].

Definition padding (cs : list string16) (k : nat) : string16 :=
  concat (map (padChar cs) (seq 0 k)).

(** A text of code units in which every surrogate belongs to a pair. *)
Inductive WellPaired : string16 -> Prop :=
| wp_nil : WellPaired []
| wp_unit (c : Z) (s : string16) :
    0 <= c < 65536 -> ~ isHigh c -> ~ isLow c ->
    WellPaired s -> WellPaired (c :: s)
| wp_pair (h l : Z) (s : string16) :
    isHigh h -> isLow l -> WellPaired s -> WellPaired (h :: l :: s).

(** A logical character of such a text, and its code point. *)
Definition goodChar (c : string16) : Prop :=
  (exists x, c = [x] /\ 0 <= x < 65536 /\ ~ isHigh x /\ ~ isLow x) \/
  (exists h l, c = [h; l] /\ isHigh h /\ isLow l).

Definition decode (c : string16) : Z :=
  match c with
  | [x] => x
  | [h; l] => (h - 0xd800) * 0x400 + (l - 0xdc00) + 0x10000
  | _ => 0
  end.

(** ** The vocabulary of the specification

    The definitions of this module follow the words of the specification:
    the classifier of multi-unit spans, the logical characters of a text
    and the two index mappings.  They read the code units directly and use
    none of the regular expressions of the code; the methods are compared
    with them.  A position [pos] of a text is given by the text from [pos]
    on. *)

Module Spec.

Definition isHighSurrogate (x : Z) : bool := (0xD800 <=? x) && (x <=? 0xDBFF).

Definition isLowSurrogate (x : Z) : bool := (0xDC00 <=? x) && (x <=? 0xDFFF).

(** Surrogate pair: a high surrogate immediately followed by a low one. *)
Definition isSurrogatePairAt (s : string16) : bool :=
  match s with
  | hi :: lo :: _ => isHighSurrogate hi && isLowSurrogate lo
  | _ => false
  end.

(** Regional-indicator code point: a surrogate pair that decodes to
    0x1F1E6 .. 0x1F1FF. *)
Definition isRegionalIndicatorAt (s : string16) : bool :=
  match s with
  | hi :: lo :: _ =>
      isSurrogatePairAt s &&
      (let cp := (hi - 0xD800) * 0x400 + (lo - 0xDC00) + 0x10000 in
       (0x1F1E6 <=? cp) && (cp <=? 0x1F1FF))
  | _ => false
  end.

(** Flag pair: two consecutive regional-indicator code points. *)
Definition isFlagPairAt (s : string16) : bool :=
  isRegionalIndicatorAt s && isRegionalIndicatorAt (skipn 2 s).

(** [isMultiUnitSpanAt(text, pos)]; the visual variant also recognises
    flag pairs. *)
Definition isMultiUnitSpanAt (visual : bool) (s : string16) : bool :=
  isSurrogatePairAt s || (visual && isFlagPairAt s).

(** [spanAt(text, pos)]: 1 or 2, or 4 for a flag pair in the visual
    variant. *)
Definition spanAt (visual : bool) (s : string16) : nat :=
  if visual && isFlagPairAt s then 4%nat
  else if isSurrogatePairAt s then 2%nat
  else 1%nat.

(** The logical characters of a text, left to right; [n] bounds their
    number. *)
Fixpoint characters (visual : bool) (n : nat) (s : string16)
  : list string16 :=
  match n with
  | O => []
  | S n' =>
      match s with
      | [] => []
      | _ :: _ =>
          firstn (spanAt visual s) s ::
          characters visual n' (skipn (spanAt visual s) s)
      end
  end.

Definition logicalCharacters (visual : bool) (text : string16)
  : list string16 :=
  characters visual (length text) text.

Definition logicalLength (visual : bool) (text : string16) : Z :=
  Z.of_nat (length (logicalCharacters visual text)).

(** [charIndexToCodeUnitIndex(text, charIndex)] for [0 <= charIndex]: -1
    from [logicalLength] on, otherwise the sum of the spans of the logical
    characters before the [charIndex]-th one. *)
Definition charIndexToCodeUnitIndex (visual : bool) (text : string16)
  (charIndex : Z) : Z :=
  if charIndex >=? logicalLength visual text then -1
  else
    Z.of_nat
      (list_sum
         (map (@length Z)
            (firstn (Z.to_nat charIndex) (logicalCharacters visual text)))).

(** Index of the span that covers [codeUnitIndex], accumulating the
    widths of the spans in [width]. *)
Fixpoint spanCovering (spans : list string16) (width codeUnitIndex : Z)
  : Z :=
  match spans with
  | [] => 0
  | c :: spans' =>
      if codeUnitIndex <? width + Z.of_nat (length c) then 0
      else 1 + spanCovering spans' (width + Z.of_nat (length c)) codeUnitIndex
  end.

(** [codeUnitIndexToCharIndex(text, codeUnitIndex)] for
    [0 <= codeUnitIndex]: -1 from the code-unit length on. *)
Definition codeUnitIndexToCharIndex (visual : bool) (text : string16)
  (codeUnitIndex : Z) : Z :=
  if codeUnitIndex >=? Z.of_nat (length text) then -1
  else spanCovering (logicalCharacters visual text) 0 codeUnitIndex.

End Spec.

(** The class that implements a variant of the specification. *)
Definition implements (cls : UtfClass) (visual : bool) : Prop :=
  (cls = UtfString /\ visual = false) \/
  (cls = UtfVisualString /\ visual = true).

(** * Properties *)

(** ** The scenarios of the library, by evaluation *)

Example lengthOf_flag_default :
  @lengthOf UtfString 10 flag_x = Some 3.
Proof. reflexivity. Qed.

Example lengthOf_flag_visual :
  @lengthOf UtfVisualString 10 flag_x = Some 2.
Proof. reflexivity. Qed.

Example stringToCharArray_flag_visual :
  @stringToCharArray UtfVisualString 10 flag_x =
  Some [[0xD83C; 0xDDE9; 0xD83C; 0xDDEA]; [0x78]].
Proof. reflexivity. Qed.

Example findByteIndex_after_pair :
  @findByteIndex UtfString 10 a_smile_b 2 = Some 3.
Proof. reflexivity. Qed.

Example charAt_pair :
  @charAt UtfString 10 a_smile_b 1 = Some [0xD83D; 0xDE42].
Proof. reflexivity. Qed.

Example charCodeAt_pair :
  @charCodeAt UtfString 10 a_smile_b 1 = Some (Num 0x1F642).
Proof. reflexivity. Qed.

Example indexOf_after_pair :
  @indexOf UtfString 10 a_smile_b [0x62] None = Some 2.
Proof. reflexivity. Qed.

Example padStart_cycles :
  @padStart UtfString 10 [0x78] 3 (Some [0x61; 0x62]) =
  Some [0x61; 0x62; 0x78].
Proof. reflexivity. Qed.

Example padEnd_cycles :
  @padEnd UtfString 10 [0x78] 4 (Some [0x61; 0x62]) =
  Some [0x78; 0x61; 0x62; 0x61].
Proof. reflexivity. Qed.

Example slice_last_two :
  @slice UtfString 10 a_smile_b (Some (-2)) None =
  Some [0xD83D; 0xDE42; 0x62].
Proof. reflexivity. Qed.

Example stringToCodePoints_pair :
  @stringToCodePoints UtfString 10 a_smile_b = Some [0x61; 0x1F642; 0x62].
Proof. reflexivity. Qed.

Example codePointsToString_pair :
  codePointsToString [0x61; 0x1F642; 0x62] = a_smile_b.
Proof. reflexivity. Qed.

Example stringToBytes_pair :
  stringToBytes 5 a_smile_b = Some [0; 0x61; 0xD8; 0x3D; 0xDE; 0x42; 0; 0x62].
Proof. reflexivity. Qed.

Example bytesToString_pair :
  bytesToString [0; 0x61; 0xD8; 0x3D; 0xDE; 0x42; 0; 0x62] = a_smile_b.
Proof. reflexivity. Qed.


(** ** Matching *)

Lemma match_seq_Some (a : list cclass) : forall s n,
  match_seq a s = Some n -> n = length a /\ (n <= length s)%nat.
Proof.
  induction a as [|c a IH]; intros s n H; simpl in H.
  - injection H as <-. simpl. lia.
  - destruct s as [|x s]; [discriminate|].
    destruct (in_class c x); [|discriminate].
    destruct (match_seq a s) as [k|] eqn:E; [|discriminate].
    injection H as <-. apply IH in E. simpl. lia.
Qed.

Lemma match_alt_app (r1 r2 : pattern) (s : string16) :
  match_alt (r1 ++ r2) s =
  match match_alt r1 s with
  | Some n => Some n
  | None => match_alt r2 s
  end.
Proof.
  induction r1 as [|a r1 IH]; simpl; [reflexivity|].
  destruct (match_seq a s); [reflexivity|exact IH].
Qed.

Lemma match_alt_Some (r : pattern) : forall s n,
  match_alt r s = Some n ->
  exists a, In a r /\ n = length a /\ (n <= length s)%nat.
Proof.
  induction r as [|a r IH]; intros s n H; simpl in H; [discriminate|].
  destruct (match_seq a s) as [k|] eqn:E.
  - injection H as <-. apply match_seq_Some in E.
    exists a. simpl. tauto.
  - destruct (IH _ _ H) as (a' & Hin & Hn). exists a'. simpl. tauto.
Qed.

Section TokenFacts.

Variable u : pattern.
Hypothesis u_multi : Forall (fun a => (2 <= length a <= 4)%nat) u.

Lemma match_multi (s : string16) (n : nat) :
  match_alt u s = Some n -> (2 <= n <= 4)%nat /\ (n <= length s)%nat.
Proof.
  intros H. apply match_alt_Some in H. destruct H as (a & Hin & -> & Hl).
  rewrite Forall_forall in u_multi. specialize (u_multi a Hin). lia.
Qed.

Lemma spanAt_bounds (s : string16) :
  s <> [] -> (1 <= spanAt u s <= 4)%nat /\ (spanAt u s <= length s)%nat.
Proof.
  intros Hs. unfold spanAt. destruct (match_alt u s) as [n|] eqn:E.
  - apply match_multi in E. lia.
  - destruct s; [congruence|]. simpl. lia.
Qed.

Lemma match_safe (s : string16) :
  s <> [] -> match_alt (u ++ [[CAny]]) s = Some (spanAt u s).
Proof.
  intros Hs. rewrite match_alt_app. unfold spanAt.
  destruct (match_alt u s); [reflexivity|].
  destruct s; [congruence|]. reflexivity.
Qed.

Lemma match_safe_nil : match_alt (u ++ [[CAny]]) [] = None.
Proof.
  rewrite match_alt_app.
  destruct (match_alt u []) as [n|] eqn:E; [|reflexivity].
  apply match_multi in E. simpl in E. lia.
Qed.

Lemma chars_aux_enough : forall f s,
  (length s <= f)%nat -> chars_aux u f s = chars u s.
Proof.
  induction f as [f IH] using lt_wf_ind. intros s Hf.
  unfold chars. destruct s as [|x s]; [destruct f; reflexivity|].
  destruct f as [|f]; [simpl in Hf; lia|].
  cbn [length chars_aux].
  assert (Hb := spanAt_bounds (x :: s) ltac:(discriminate)).
  set (n := spanAt u (x :: s)) in *.
  assert (Hl : (length (skipn n (x :: s)) <= length s)%nat).
  { rewrite length_skipn. cbn [length] in *. lia. }
  simpl in Hf. f_equal. rewrite (IH f) by lia.
  symmetry. apply (IH (length s)); lia.
Qed.

Lemma chars_nil : chars u [] = [].
Proof. reflexivity. Qed.

Lemma chars_cons (s : string16) :
  s <> [] ->
  chars u s = firstn (spanAt u s) s :: chars u (skipn (spanAt u s) s).
Proof.
  intros Hs. destruct s as [|x s]; [congruence|].
  unfold chars at 1. cbn [length chars_aux]. f_equal.
  apply chars_aux_enough.
  assert (Hb := spanAt_bounds (x :: s) ltac:(discriminate)).
  rewrite length_skipn. cbn [length] in *. lia.
Qed.

(** Induction along the logical characters of a string. *)
Lemma chars_ind (P : string16 -> Prop) :
  P [] ->
  (forall s, s <> [] -> P (skipn (spanAt u s) s) -> P s) ->
  forall s, P s.
Proof.
  intros H0 HS s. remember (length s) as n eqn:Hn.
  revert s Hn. induction n as [n IH] using lt_wf_ind. intros s Hn.
  destruct s as [|x s]; [exact H0|].
  apply HS; [discriminate|].
  assert (Hb := spanAt_bounds (x :: s) ltac:(discriminate)).
  apply (IH (length (skipn (spanAt u (x :: s)) (x :: s)))); [|reflexivity].
  rewrite length_skipn. cbn [length] in *. lia.
Qed.

Lemma concat_chars : forall s, concat (chars u s) = s.
Proof.
  apply chars_ind; [reflexivity|].
  intros s Hs IH. rewrite chars_cons by exact Hs. simpl. rewrite IH.
  apply firstn_skipn.
Qed.

Lemma chars_nonempty : forall s, Forall (fun c => c <> []) (chars u s).
Proof.
  apply chars_ind; [constructor|].
  intros s Hs IH. rewrite chars_cons by exact Hs. constructor; [|exact IH].
  assert (Hb := spanAt_bounds s Hs). intros E.
  apply (f_equal (@length Z)) in E. rewrite length_firstn in E. simpl in E. lia.
Qed.

Lemma chars_short : forall s,
  Forall (fun c => (1 <= length c <= 4)%nat) (chars u s).
Proof.
  apply chars_ind; [constructor|].
  intros s Hs IH. rewrite chars_cons by exact Hs. constructor; [|exact IH].
  assert (Hb := spanAt_bounds s Hs). rewrite length_firstn. lia.
Qed.

End TokenFacts.

(** ** Searching and [exec] *)

Lemma search_Some (r : pattern) : forall s pos q n,
  search r s pos = Some (q, n) ->
  exists k, q = (pos + k)%nat /\ (k <= length s)%nat /\
    match_alt r (skipn k s) = Some n /\
    forall k', (k' < k)%nat -> match_alt r (skipn k' s) = None.
Proof.
  induction s as [|x s IH]; intros pos q n H; simpl in H.
  - destruct (match_alt r []) as [m|] eqn:E; [|discriminate].
    injection H as <- <-. exists 0%nat. simpl. repeat split; try lia; auto.
  - destruct (match_alt r (x :: s)) as [m|] eqn:E.
    + injection H as <- <-. exists 0%nat. simpl. repeat split; try lia; auto.
    + apply IH in H. destruct H as (k & -> & Hk & Hm & Hno).
      exists (S k). simpl. repeat split; try lia; auto.
      intros [|k'] Hlt; simpl; [exact E|]. apply Hno. lia.
Qed.

Lemma search_None (r : pattern) : forall s pos,
  search r s pos = None ->
  forall k, (k <= length s)%nat -> match_alt r (skipn k s) = None.
Proof.
  induction s as [|x s IH]; intros pos H k Hk; simpl in H.
  - destruct (match_alt r []) eqn:E; [discriminate|].
    simpl in Hk. replace k with 0%nat by lia. exact E.
  - destruct (match_alt r (x :: s)) eqn:E; [discriminate|].
    destruct k as [|k]; [exact E|]. simpl. apply (IH _ H). simpl in Hk. lia.
Qed.

Lemma search_complete (r : pattern) : forall s pos,
  (forall k, (k <= length s)%nat -> match_alt r (skipn k s) = None) ->
  search r s pos = None.
Proof.
  induction s as [|x s IH]; intros pos H; simpl.
  - pose proof (H 0%nat ltac:(simpl; lia)) as H0. simpl in H0.
    rewrite H0. reflexivity.
  - pose proof (H 0%nat ltac:(simpl; lia)) as H0. simpl in H0.
    rewrite H0. apply IH. intros k Hk. apply (H (S k)). simpl. lia.
Qed.

Section Walking.

Variable u : pattern.
Hypothesis u_multi : Forall (fun a => (2 <= length a <= 4)%nat) u.
Variable str : string16.

Let len := length str.
Local Abbreviation suf p := (skipn p str) (only parsing).

Lemma suf_nonempty (p : nat) : (p < len)%nat -> suf p <> [].
Proof.
  intros Hp E. apply (f_equal (@length Z)) in E.
  rewrite length_skipn in E. simpl in E. unfold len in Hp. lia.
Qed.

Lemma suf_suf (p k : nat) : skipn k (suf p) = suf (p + k).
Proof. rewrite skipn_skipn. f_equal. lia. Qed.

Lemma length_suf (p : nat) : length (suf p) = (len - p)%nat.
Proof. unfold len. apply length_skipn. Qed.

Lemma walks_match (r : pattern) (t : string16) (n : nat) :
  Walks r u -> match_alt r t = Some n ->
  n = spanAt u t /\ (1 <= n <= length t)%nat.
Proof.
  intros [-> | ->] H.
  - unfold spanAt. rewrite H. apply (match_multi u u_multi) in H. lia.
  - destruct t as [|x t].
    + rewrite (match_safe_nil u u_multi) in H. discriminate.
    + rewrite (match_safe u) in H by discriminate. injection H as <-.
      pose proof (spanAt_bounds u u_multi (x :: t) ltac:(discriminate)). lia.
Qed.

Lemma walks_no_match (r : pattern) (t : string16) :
  Walks r u -> match_alt r t = None -> spanAt u t = 1%nat /\ (r = u \/ t = []).
Proof.
  intros [-> | ->] H.
  - unfold spanAt. rewrite H. auto.
  - destruct t as [|x t].
    + split; [|auto]. unfold spanAt.
      destruct (match_alt u []) eqn:E; [|reflexivity].
      apply (match_multi u u_multi) in E. simpl in E. lia.
    + rewrite (match_safe u) in H by discriminate. discriminate.
Qed.

(** What a successful [exec] of a walking scanner tells. *)
Lemma exec_walk_Some (r : pattern) (L : nat) (m : Match) (re' : RegExp) :
  Walks r u -> (L <= len)%nat ->
  exec (mkRegExp r L) str = (Some m, re') ->
  exists q n,
    index m = q /\ text m = firstn n (suf q) /\ length (text m) = n /\
    re' = mkRegExp r (q + n) /\
    (L <= q)%nat /\ (1 <= n)%nat /\ (q + n <= len)%nat /\
    n = spanAt u (suf q) /\
    forall k, (L <= k < q)%nat -> spanAt u (suf k) = 1%nat.
Proof.
  intros Hw HL H. unfold exec in H. cbn [lastIndex source] in H.
  destruct (Nat.ltb_spec (length str) L) as [Hlt|_]; [unfold len in HL; lia|].
  destruct (search r (skipn L str) L) as [[q n]|] eqn:E; [|discriminate].
  injection H as <- <-.
  apply search_Some in E. destruct E as (k & -> & Hk & Hm & Hno).
  rewrite suf_suf in Hm. rewrite length_suf in Hk.
  destruct (walks_match _ _ _ Hw Hm) as [Hn Hb]. rewrite length_suf in Hb.
  exists (L + k)%nat, n. cbn [index text]. 
  repeat split; try lia; auto.
  - rewrite length_firstn, length_suf. lia.
  - intros j Hj. specialize (Hno (j - L)%nat ltac:(lia)).
    rewrite suf_suf in Hno. replace (L + (j - L))%nat with j in Hno by lia.
    apply (walks_no_match _ _ Hw Hno).
Qed.

(** What a failed [exec] of a walking scanner tells. *)
Lemma exec_walk_None (r : pattern) (L : nat) (re' : RegExp) :
  Walks r u -> (L <= len)%nat ->
  exec (mkRegExp r L) str = (None, re') ->
  (forall k, (L <= k < len)%nat -> spanAt u (suf k) = 1%nat) /\
  (r = u ++ [[CAny]] -> L = len).
Proof.
  intros Hw HL H. unfold exec in H. cbn [lastIndex source] in H.
  destruct (Nat.ltb_spec (length str) L) as [Hlt|_]; [unfold len in HL; lia|].
  destruct (search r (skipn L str) L) as [[q n]|] eqn:E; [discriminate|].
  pose proof (search_None _ _ _ E) as Hno. 
  split.
  - intros k Hk. specialize (Hno (k - L)%nat).
    rewrite length_suf, suf_suf in Hno.
    replace (L + (k - L))%nat with k in Hno by lia.
    apply (walks_no_match _ _ Hw (Hno ltac:(lia))).
  - intros ->. specialize (Hno 0%nat ltac:(lia)). simpl in Hno.
    destruct (suf L) as [|x t] eqn:Es.
    + apply (f_equal (@length Z)) in Es. rewrite length_suf in Es.
      simpl in Es. lia.
    + rewrite (match_safe u) in Hno by discriminate. discriminate.
Qed.

(** The character scanner matches the next logical character. *)
Lemma exec_safe (L : nat) :
  (L < len)%nat ->
  exec (mkRegExp (u ++ [[CAny]]) L) str =
  (Some (mkMatch L (firstn (spanAt u (suf L)) (suf L))),
   mkRegExp (u ++ [[CAny]]) (L + spanAt u (suf L))).
Proof.
  intros HL. unfold exec. cbn [lastIndex source].
  destruct (Nat.ltb_spec (length str) L) as [Hlt|_]; [unfold len in HL; lia|].
  pose proof (suf_nonempty L HL) as Hne.
  destruct (suf L) as [|x t] eqn:Es; [congruence|].
  cbn [search]. rewrite (match_safe u) by discriminate.
  rewrite Es. reflexivity.
Qed.

Lemma exec_safe_end :
  exec (mkRegExp (u ++ [[CAny]]) len) str =
  (None, mkRegExp (u ++ [[CAny]]) 0).
Proof.
  unfold exec. cbn [lastIndex source]. fold len.
  rewrite Nat.ltb_irrefl. unfold len. rewrite skipn_all.
  cbn [search]. rewrite (match_safe_nil u u_multi). reflexivity.
Qed.

End Walking.

(** ** Positions of logical characters *)

Section Positions.

Variable u : pattern.
Hypothesis u_multi : Forall (fun a => (2 <= length a <= 4)%nat) u.
Variable str : string16.

Let len := length str.
Local Abbreviation suf p := (skipn p str) (only parsing).

Lemma chars_suf (p : nat) :
  (p < len)%nat ->
  chars u (suf p) =
  firstn (spanAt u (suf p)) (suf p) :: chars u (suf (p + spanAt u (suf p))).
Proof.
  intros Hp. rewrite (chars_cons u u_multi) by (apply suf_nonempty; exact Hp).
  f_equal. f_equal. apply suf_suf.
Qed.

Lemma span_suf (p : nat) :
  (p < len)%nat ->
  (1 <= spanAt u (suf p) <= 4 /\ p + spanAt u (suf p) <= len)%nat.
Proof.
  intros Hp.
  pose proof (spanAt_bounds u u_multi (suf p) (suf_nonempty str p Hp)) as Hb.
  rewrite length_skipn in Hb. fold len in Hb. lia.
Qed.

Lemma ntok_end (p : nat) : (len <= p)%nat -> ntok u str p = 0.
Proof.
  intros Hp. unfold ntok. rewrite skipn_all2 by exact Hp. reflexivity.
Qed.

Lemma ntok_step (p : nat) :
  (p < len)%nat -> ntok u str p = 1 + ntok u str (p + spanAt u (suf p)).
Proof.
  intros Hp. unfold ntok. rewrite chars_suf by exact Hp.
  cbn [length]. lia.
Qed.

Lemma ntok_nonneg (p : nat) : 0 <= ntok u str p.
Proof. unfold ntok. lia. Qed.

Lemma off_0 (p : nat) : off u str p 0 = 0.
Proof. reflexivity. Qed.

Lemma off_step (p j : nat) :
  (p < len)%nat ->
  off u str p (S j) =
  Z.of_nat (spanAt u (suf p)) + off u str (p + spanAt u (suf p)) j.
Proof.
  intros Hp. unfold off. rewrite chars_suf by exact Hp.
  cbn [firstn concat]. rewrite length_app, length_firstn.
  pose proof (span_suf p Hp) as Hb. 
  rewrite length_skipn. fold len. lia.
Qed.

Lemma off_end (p j : nat) : (len <= p)%nat -> off u str p j = 0.
Proof.
  intros Hp. unfold off. rewrite skipn_all2 by exact Hp.
  rewrite chars_nil. destruct j; reflexivity.
Qed.

Lemma singles_tail (p q : nat) : singles u str p q -> singles u str (S p) q.
Proof. intros H k Hk. apply H. lia. Qed.

Lemma run_ntok : forall d p q,
  singles u str p q -> (q <= len)%nat -> (p + d = q)%nat ->
  ntok u str p = Z.of_nat d + ntok u str q.
Proof.
  induction d as [|d IH]; intros p q Hs Hq Hd.
  - replace q with p by lia. lia.
  - rewrite ntok_step by lia. rewrite (Hs p) by lia.
    rewrite (IH (p + 1)%nat q); try lia.
    intros k Hk. apply Hs. lia.
Qed.

Lemma run_off : forall d p q j,
  singles u str p q -> (q <= len)%nat -> (p + d = q)%nat ->
  off u str p j = if (j <=? d)%nat then Z.of_nat j
            else Z.of_nat d + off u str q (j - d).
Proof.
  induction d as [|d IH]; intros p q j Hs Hq Hd.
  - replace q with p by lia. destruct j as [|j]; [reflexivity|].
    cbn [Nat.leb]. rewrite Nat.sub_0_r. lia.
  - destruct j as [|j]; [reflexivity|].
    rewrite off_step by lia. rewrite (Hs p) by lia.
    rewrite (IH (p + 1)%nat q j); try lia.
    + cbn [Nat.leb Nat.sub]. destruct (j <=? d)%nat; lia.
    + intros k Hk. apply Hs. lia.
Qed.

(** The first [j] characters never reach past the end, and stop short of
    it while characters are left. *)
Lemma off_inside : forall j p,
  (p <= len)%nat -> Z.of_nat j < ntok u str p ->
  Z.of_nat p + off u str p j < Z.of_nat len.
Proof.
  induction j as [|j IH]; intros p Hp Hj.
  - rewrite off_0. destruct (Nat.eq_dec p len) as [->|Hne].
    + rewrite ntok_end in Hj by lia. lia.
    + lia.
  - destruct (Nat.eq_dec p len) as [->|Hne].
    + rewrite ntok_end in Hj by lia. lia.
    + rewrite off_step by lia. rewrite ntok_step in Hj by lia.
      pose proof (span_suf p ltac:(lia)) as Hb.
      specialize (IH (p + spanAt u (suf p))%nat ltac:(lia) ltac:(lia)). lia.
Qed.

Lemma off_total : forall j p,
  (p <= len)%nat -> ntok u str p <= Z.of_nat j ->
  Z.of_nat p + off u str p j = Z.of_nat len.
Proof.
  intros j p Hp. remember (len - p)%nat as d eqn:Hd.
  revert j p Hp Hd. induction d as [d IH] using lt_wf_ind.
  intros j p Hp Hd Hj.
  destruct (Nat.eq_dec p len) as [->|Hne].
  - rewrite off_end by lia. lia.
  - rewrite ntok_step in Hj by lia.
    pose proof (ntok_nonneg (p + spanAt u (suf p))).
    destruct j as [|j]; [lia|].
    rewrite off_step by lia.
    pose proof (span_suf p ltac:(lia)) as Hb.
    specialize (IH (len - (p + spanAt u (suf p)))%nat ltac:(lia) j
                  (p + spanAt u (suf p))%nat ltac:(lia) eq_refl ltac:(lia)).
    lia.
Qed.

(** The suffix at the [j]-th character is cut into the remaining
    characters. *)
Lemma chars_at_off : forall j p,
  (p <= len)%nat -> Z.of_nat j <= ntok u str p ->
  chars u (suf (p + Z.to_nat (off u str p j))) = skipn j (chars u (suf p)).
Proof.
  induction j as [|j IH]; intros p Hp Hj.
  - rewrite off_0. simpl. f_equal. f_equal. lia.
  - destruct (Nat.eq_dec p len) as [->|Hne].
    + rewrite ntok_end in Hj by lia. lia.
    + rewrite off_step by lia. rewrite ntok_step in Hj by lia.
      pose proof (span_suf p ltac:(lia)) as Hb.
      rewrite (chars_suf p) by lia. cbn [skipn].
      rewrite <- (IH (p + spanAt u (suf p))%nat) by lia.
      f_equal. f_equal.
      assert (0 <= off u str (p + spanAt u (suf p)) j)
        by (unfold off; lia).
      lia.
Qed.

End Positions.

(** ** The scanning loops *)

(** The inner loop of [scan] walks single code units up to the next match
    and then takes the match, unless the wanted character comes first. *)
Lemma scan_inner_spec : forall fuel m nextIdx i B cur,
  B <= nextIdx -> cur <= i -> nextIdx - B < Z.of_nat fuel ->
  scan_inner fuel m nextIdx i B cur =
  Some (if i - cur <=? nextIdx - B then (B + (i - cur), i)
        else (nextIdx + match m with
                        | Some mt => Js.length (text mt)
                        | None => 1
                        end,
              cur + (nextIdx - B) + 1)).
Proof.
  induction fuel as [|fuel IH]; intros m nextIdx i B cur HB Hc Hf; [lia|].
  cbn [scan_inner].
  destruct (Z.ltb_spec cur i) as [Hlt|Hge].
  - destruct (Z.eqb_spec B nextIdx) as [->|Hne].
    + destruct (Z.leb_spec (i - cur) (nextIdx - nextIdx)); [lia|].
      destruct m; apply f_equal; apply f_equal2; lia.
    + rewrite IH by lia.
      destruct (Z.leb_spec (i - (cur + 1)) (nextIdx - (B + 1)));
        destruct (Z.leb_spec (i - cur) (nextIdx - B)); try lia;
        apply f_equal; apply f_equal2; lia.
  - destruct (Z.leb_spec (i - cur) (nextIdx - B)); [|lia].
    apply f_equal; apply f_equal2; lia.
Qed.

Section Loops.

Variable u : pattern.
Hypothesis u_multi : Forall (fun a => (2 <= length a <= 4)%nat) u.
Variable str : string16.

Let len := length str.
Local Abbreviation suf p := (skipn p str) (only parsing).

(** [scan] from a character boundary [p] with [k] characters counted:
    the offset of the wanted character while there is one, and otherwise
    -1 or one past the length. *)
Lemma scan_loop_spec (r : pattern) : Walks r u ->
  forall fuel p k i,
  (p < len)%nat -> 0 <= k <= i -> (len - p < fuel)%nat ->
  exists res,
    scan_loop fuel str (mkRegExp r p) i (Z.of_nat p) k = Some res /\
    (i - k <= ntok u str p ->
     res = Z.of_nat p + off u str p (Z.to_nat (i - k))) /\
    (ntok u str p < i - k -> res = -1 \/ res = Z.of_nat len + 1).
Proof.
  intros Hw. induction fuel as [|fuel IH]; intros p k i Hp Hk Hf; [lia|].
  cbn [scan_loop]. unfold Js.length. fold len.
  destruct (exec (mkRegExp r p) str) as [[mt|] re'] eqn:E.
  - destruct (exec_walk_Some u u_multi str r p mt re' Hw ltac:(fold len; lia) E)
      as (q & n & Hq & Ht & Hl & -> & Hpq & Hn & Hqn & Hspan & Hrun).
    fold len in Hqn. rewrite Hq.
    rewrite scan_inner_spec by lia. unfold Js.length. rewrite Hl.
    pose proof (run_ntok u u_multi str (q - p) p q Hrun ltac:(fold len; lia)
                  ltac:(lia)) as Hnt.
    pose proof (run_off u u_multi str (q - p) p q (Z.to_nat (i - k)) Hrun
                  ltac:(fold len; lia) ltac:(lia)) as Hoff.
    pose proof (ntok_nonneg u str q) as Hq0.
    destruct (Z.leb_spec (i - k) (Z.of_nat q - Z.of_nat p)) as [Hin|Hout].
    + rewrite Z.eqb_refl. eexists. split; [reflexivity|]. split; [|lia].
      intros _. rewrite Hoff.
      destruct (Nat.leb_spec (Z.to_nat (i - k)) (q - p)); lia.
    + pose proof (ntok_step u u_multi str q ltac:(fold len; lia)) as Hnq.
      pose proof (ntok_nonneg u str (q + spanAt u (skipn q str))) as Hq1.
      rewrite <- Hspan in Hnq, Hq1.
      destruct (Nat.leb_spec (Z.to_nat (i - k)) (q - p)) as [Hc|_]; [lia|].
      destruct (Z.eqb_spec (k + (Z.of_nat q - Z.of_nat p) + 1) i) as [Heq|Hne].
      * eexists. split; [reflexivity|]. split; [|lia].
        intros _. rewrite Hoff.
        replace (Z.to_nat (i - k) - (q - p))%nat with 1%nat by lia.
        rewrite off_step by (try exact u_multi; fold len; lia).
        rewrite <- Hspan. rewrite off_0. lia.
      * destruct (Z.geb_spec (Z.of_nat q + Z.of_nat n) (Z.of_nat len))
          as [Hend|Hmore].
        -- cbn [orb]. eexists. split; [reflexivity|]. split; [|auto].
           intros Hle.
           rewrite (ntok_end u str (q + n)) in Hnq by (fold len; lia).
           lia.
        -- cbn [orb].
           destruct (IH (q + n)%nat (k + (Z.of_nat q - Z.of_nat p) + 1) i
                       ltac:(lia) ltac:(lia) ltac:(lia))
             as (res & Hres & Hlo & Hhi).
           rewrite Nat2Z.inj_add in Hres. rewrite Hres.
           eexists. split; [reflexivity|]. split.
           ++ intros Hle. rewrite Hlo by lia. rewrite Hoff.
              replace (Z.to_nat (i - k) - (q - p))%nat
                with (S (Z.to_nat (i - (k + (Z.of_nat q - Z.of_nat p) + 1))))
                by lia.
              rewrite off_step by (try exact u_multi; fold len; lia).
              rewrite <- Hspan. lia.
           ++ intros Hgt. apply Hhi. lia.
  - destruct (exec_walk_None u u_multi str r p re' Hw ltac:(fold len; lia) E)
      as [Hrun _].
    rewrite scan_inner_spec by lia.
    pose proof (run_ntok u u_multi str (len - p) p len Hrun ltac:(fold len; lia)
                  ltac:(lia)) as Hnt.
    pose proof (run_off u u_multi str (len - p) p len (Z.to_nat (i - k)) Hrun
                  ltac:(fold len; lia) ltac:(lia)) as Hoff.
    rewrite (ntok_end u str len) in Hnt by (fold len; lia).
    destruct (Z.leb_spec (i - k) (Z.of_nat len - Z.of_nat p)) as [Hin|Hout].
    + rewrite Z.eqb_refl. eexists. split; [reflexivity|]. split; [|lia].
      intros _. rewrite Hoff.
      destruct (Nat.leb_spec (Z.to_nat (i - k)) (len - p)); lia.
    + rewrite orb_true_r.
      destruct (Z.eqb_spec (k + (Z.of_nat len - Z.of_nat p) + 1) i);
        eexists; (split; [reflexivity|]); (split; [lia|auto]).
Qed.

(** With a negative character index the loop runs the scanner to the end
    of the string and gives -1. *)
Lemma scan_loop_negative (r : pattern) : Walks r u ->
  forall fuel L i,
  (0 < len)%nat -> (L <= len)%nat -> i < 0 -> (len - L < fuel)%nat ->
  scan_loop fuel str (mkRegExp r L) i 0 0 = Some (-1).
Proof.
  intros Hw. induction fuel as [|fuel IH]; intros L i Hlen HL Hi Hf; [lia|].
  cbn [scan_loop scan_inner]. unfold Js.length. fold len.
  destruct (exec (mkRegExp r L) str) as [[mt|] re'] eqn:E.
  - destruct (exec_walk_Some u u_multi str r L mt re' Hw ltac:(fold len; lia) E)
      as (q & n & Hq & Ht & Hl & -> & Hpq & Hn & Hqn & Hspan & Hrun).
    fold len in Hqn.
    destruct (Z.ltb_spec 0 i); [lia|].
    destruct (Z.eqb_spec 0 i); [lia|].
    destruct (Z.geb_spec 0 (Z.of_nat len)); [lia|].
    cbn [orb]. apply IH; lia.
  - destruct (Z.ltb_spec 0 i); [lia|].
    destruct (Z.eqb_spec 0 i); [lia|].
    rewrite orb_true_r. reflexivity.
Qed.

(** The counting loop of [findCharIndex] from a boundary [p]. *)
Lemma findCharIndex_loop_spec : forall fuel p b c,
  (p <= len)%nat -> (len - p < fuel)%nat ->
  findCharIndex_loop fuel (mkRegExp (u ++ [[CAny]]) p) str b c =
  Some (c + cover (chars u (suf p)) (Z.of_nat p) b).
Proof.
  induction fuel as [|fuel IH]; intros p b c Hp Hf; [lia|].
  cbn [findCharIndex_loop].
  destruct (Nat.eq_dec p len) as [->|Hne].
  - unfold len. rewrite (exec_safe_end u u_multi).
    rewrite skipn_all. rewrite chars_nil. simpl. f_equal. lia.
  - rewrite (exec_safe u str p) by (fold len; lia). cbn [lastIndex].
    pose proof (span_suf u u_multi str p ltac:(fold len; lia)) as Hb.
    fold len in Hb. 
    rewrite (chars_suf u u_multi str p) by (fold len; lia).
    cbn [cover]. unfold Js.length at 1 2.
    rewrite length_firstn. rewrite length_skipn. fold len.
    replace (Z.of_nat (Nat.min (spanAt u (suf p)) (len - p)))
      with (Z.of_nat (spanAt u (suf p))) by lia.
    rewrite Nat2Z.inj_add.
    destruct (Z.gtb_spec (Z.of_nat p + Z.of_nat (spanAt u (suf p))) b).
    + f_equal. lia.
    + rewrite IH by lia. rewrite Nat2Z.inj_add. f_equal.
      lia.
Qed.

(** The collecting loop of [stringToCharArray] from a boundary [p]. *)
Lemma stringToCharArray_loop_spec : forall fuel p,
  (p <= len)%nat -> (len - p < fuel)%nat ->
  stringToCharArray_loop fuel (mkRegExp (u ++ [[CAny]]) p) str =
  Some (chars u (suf p)).
Proof.
  induction fuel as [|fuel IH]; intros p Hp Hf; [lia|].
  cbn [stringToCharArray_loop].
  destruct (Nat.eq_dec p len) as [->|Hne].
  - unfold len. rewrite (exec_safe_end u u_multi).
    rewrite skipn_all. reflexivity.
  - rewrite (exec_safe u str p) by (fold len; lia). cbn [text].
    pose proof (span_suf u u_multi str p ltac:(fold len; lia)) as Hb.
    fold len in Hb.
    rewrite IH by lia.
    rewrite (chars_suf u u_multi str p) by (fold len; lia). reflexivity.
Qed.

End Loops.

(** ** Covering characters *)

Lemma cover_offset : forall (cs : list string16) (j : nat) (p : Z),
  Forall (fun c => c <> []) cs -> (j < length cs)%nat ->
  cover cs p (p + Z.of_nat (length (concat (firstn j cs)))) = Z.of_nat j.
Proof.
  induction cs as [|c cs IH]; intros j p Hne Hj; [simpl in Hj; lia|].
  inversion Hne as [|? ? Hc Hcs]; subst.
  assert (0 < Js.length c).
  { unfold Js.length. destruct c; [congruence|]. simpl. lia. }
  destruct j as [|j]; cbn [firstn concat cover].
  - simpl. destruct (Z.gtb_spec (p + Js.length c) (p + 0)); lia.
  - rewrite length_app, Nat2Z.inj_add. fold (Js.length c).
    destruct (Z.gtb_spec (p + Js.length c)
                (p + (Js.length c + Z.of_nat (length (concat (firstn j cs))))));
      [lia|].
    replace (p + (Js.length c + Z.of_nat (length (concat (firstn j cs)))))
      with ((p + Js.length c) + Z.of_nat (length (concat (firstn j cs))))
      by lia.
    rewrite IH; [lia|exact Hcs|simpl in Hj; lia].
Qed.

Lemma cover_last : forall (cs : list string16) (p : Z),
  Forall (fun c => c <> []) cs -> cs <> [] ->
  cover cs p (p + Z.of_nat (length (concat cs)) - 1) = Z.of_nat (length cs) - 1.
Proof.
  intros cs p Hne Hcs.
  assert (E : firstn (length cs - 1) cs ++ skipn (length cs - 1) cs = cs)
    by apply firstn_skipn.
  assert (Hpos : (0 < length cs)%nat) by (destruct cs; [congruence|simpl; lia]).
  destruct (skipn (length cs - 1) cs) as [|c [|c' t]] eqn:Es.
  - apply (f_equal (@length string16)) in Es. rewrite length_skipn in Es.
    cbn [length] in Es. lia.
  - assert (Hc : c <> []).
    { rewrite Forall_forall in Hne. apply Hne. rewrite <- E.
      apply in_or_app. right. left. reflexivity. }
    assert (Hl : Z.of_nat (length (concat cs)) =
                 Z.of_nat (length (concat (firstn (length cs - 1) cs))) +
                 Js.length c).
    { rewrite <- E at 1. rewrite concat_app, length_app. simpl.
      rewrite app_nil_r. unfold Js.length. lia. }
    rewrite Hl.
    assert (Hlast : forall (l : list string16) (q b : Z),
               q + Z.of_nat (length (concat l)) <= b
               < q + Z.of_nat (length (concat l)) + Js.length c ->
               cover (l ++ [c]) q b = Z.of_nat (length l)).
    { induction l as [|d l IHl]; intros q b Hb;
        cbn [app cover concat length] in *.
      - simpl in Hb. destruct (Z.gtb_spec (q + Js.length c) b); lia.
      - rewrite length_app in Hb. fold (Js.length d) in *.
        unfold Js.length in *.
        destruct (Z.gtb_spec (q + Z.of_nat (length d)) b); [lia|].
        rewrite IHl by lia. lia. }
    rewrite <- E at 1. rewrite Hlast.
    + rewrite length_firstn. lia.
    + assert (0 < Js.length c).
      { unfold Js.length. destruct c; [congruence|]. simpl. lia. }
      lia.
  - apply (f_equal (@length string16)) in Es. rewrite length_skipn in Es.
    cbn [length] in Es. lia.
Qed.

(** ** The methods on a lawful class *)

Section MethodSpecs.

Context {cls : UtfClass}.
Hypothesis law : Lawful cls.

Local Abbreviation u := (multiUnit cls) (only parsing).

Lemma multi_ok : Forall (fun a => (2 <= length a <= 4)%nat) (multiUnit cls).
Proof. apply law. Qed.

Lemma scanner_eq :
  @createUtfSafeCharScanner cls = mkRegExp (multiUnit cls ++ [[CAny]]) 0.
Proof.
  pose proof (scanner_fresh cls law) as H1.
  pose proof (scanner_source cls law) as H2.
  destruct (@createUtfSafeCharScanner cls) as [src li].
  simpl in *. subst. reflexivity.
Qed.

Lemma finder_eq :
  @createUnsafeUtfCharFinder cls = mkRegExp (multiUnit cls) 0.
Proof.
  pose proof (finder_fresh cls law) as H1. unfold multiUnit.
  destruct (@createUnsafeUtfCharFinder cls) as [src li].
  simpl in *. subst. reflexivity.
Qed.

(** Without a multi-unit match every character is one code unit. *)
Lemma safe_singles (str : string16) :
  containsUnsafeUtfChars str = false ->
  singles u str 0 (length str).
Proof.
  unfold containsUnsafeUtfChars, test. rewrite finder_eq.
  destruct (exec (mkRegExp u 0) str) as [[m|] re'] eqn:E; [discriminate|].
  intros _.
  destruct (exec_walk_None u multi_ok str u 0 re' (or_introl eq_refl)
              ltac:(lia) E) as [H _].
  exact H.
Qed.

Lemma unsafe_nonempty (str : string16) :
  containsUnsafeUtfChars str = true -> (0 < length str)%nat.
Proof.
  unfold containsUnsafeUtfChars, test. rewrite finder_eq.
  destruct (exec (mkRegExp u 0) str) as [[m|] re'] eqn:E; [|discriminate].
  intros _.
  destruct (exec_walk_Some u multi_ok str u 0 m re' (or_introl eq_refl)
              ltac:(lia) E) as (q & n & _ & _ & _ & _ & _ & Hn & Hqn & _).
  lia.
Qed.

Lemma logicalLength_ntok (str : string16) :
  logicalLength u str = ntok u str 0.
Proof. reflexivity. Qed.

Lemma offsetOf_off (str : string16) (i : nat) :
  offsetOf u str i = off u str 0 i.
Proof. reflexivity. Qed.

Lemma safe_length (str : string16) :
  containsUnsafeUtfChars str = false ->
  logicalLength u str = Js.length str.
Proof.
  intros H. rewrite logicalLength_ntok.
  rewrite (run_ntok u multi_ok str (length str) 0 (length str)
             (safe_singles str H)) by lia.
  rewrite ntok_end by lia. unfold Js.length. lia.
Qed.

Lemma safe_offset (str : string16) (i : nat) :
  containsUnsafeUtfChars str = false -> (i <= length str)%nat ->
  offsetOf u str i = Z.of_nat i.
Proof.
  intros H Hi. rewrite offsetOf_off.
  rewrite (run_off u multi_ok str (length str) 0 (length str) i
             (safe_singles str H)) by lia.
  destruct (Nat.leb_spec i (length str)); lia.
Qed.

Lemma singles_cover (str : string16) : forall d p b,
  singles u str p (length str) -> (p + d = length str)%nat ->
  Z.of_nat p <= b < Z.of_nat (length str) ->
  cover (chars u (skipn p str)) (Z.of_nat p) b = b - Z.of_nat p.
Proof.
  induction d as [|d IH]; intros p b Hs Hd Hb; [lia|].
  rewrite (chars_suf u multi_ok str p) by lia.
  rewrite (Hs p) by lia. cbn [cover]. unfold Js.length.
  rewrite length_firstn, length_skipn.
  replace (Z.of_nat (Nat.min 1 (length str - p))) with 1 by lia.
  destruct (Z.gtb_spec (Z.of_nat p + 1) b); [lia|].
  replace (Z.of_nat p + 1) with (Z.of_nat (p + 1)) by lia.
  rewrite IH; try lia. intros k Hk. apply Hs. lia.
Qed.

Lemma logicalLength_le (str : string16) :
  0 <= logicalLength u str <= Js.length str.
Proof.
  unfold logicalLength, Js.length. split; [lia|].
  rewrite <- (concat_chars u multi_ok str) at 2.
  pose proof (chars_nonempty u multi_ok str) as H.
  induction H as [|c cs Hc Hcs IH]; [simpl; lia|].
  cbn [concat length]. rewrite length_app.
  destruct c; [congruence|]. simpl. lia.
Qed.

Lemma logicalLength_nil (str : string16) :
  logicalLength u str = 0 -> str = [].
Proof.
  intros H. unfold logicalLength in H. destruct str as [|x s]; [reflexivity|].
  rewrite (chars_cons u multi_ok) in H by discriminate. simpl in H. lia.
Qed.

Theorem findCharIndex_spec (fuel : nat) (str : string16) (b : Z) :
  (length str < fuel)%nat -> 0 <= b < Js.length str ->
  findCharIndex fuel str b = Some (cover (chars u str) 0 b).
Proof.
  intros Hf Hb. unfold findCharIndex.
  destruct (Z.geb_spec b (Js.length str)); [lia|].
  destruct (containsUnsafeUtfChars str) eqn:E; cbn [negb].
  - rewrite scanner_eq.
    rewrite (findCharIndex_loop_spec u multi_ok str) by lia.
    reflexivity.
  - f_equal.
    pose proof (singles_cover str (length str) 0 b (safe_singles str E)
                  eq_refl) as Hc.
    cbn [skipn Z.of_nat] in Hc. unfold Js.length in Hb.
    rewrite Hc; lia.
Qed.

Theorem lengthOf_spec (fuel : nat) (str : string16) :
  (length str < fuel)%nat ->
  lengthOf fuel str = Some (logicalLength u str).
Proof.
  intros Hf. unfold lengthOf. destruct str as [|x s].
  - unfold findCharIndex.
    cbn [Js.length length Z.of_nat Z.sub Z.add Z.opp Z.geb Z.compare].
    destruct (containsUnsafeUtfChars []) eqn:E; [|reflexivity].
    apply unsafe_nonempty in E. simpl in E. lia.
  - rewrite findCharIndex_spec; [|exact Hf|unfold Js.length; simpl length; lia].
    f_equal. unfold logicalLength.
    pose proof (cover_last (chars u (x :: s)) 0
                  (chars_nonempty u multi_ok (x :: s))) as H.
    rewrite (concat_chars u multi_ok) in H. unfold Js.length.
    rewrite Z.add_0_l in H. rewrite H; [lia|].
    rewrite (chars_cons u multi_ok) by discriminate. discriminate.
Qed.

Theorem findByteIndex_spec (fuel : nat) (str : string16) (i : Z) :
  (length str < fuel)%nat ->
  findByteIndex fuel str i =
  Some (if i >=? logicalLength u str then -1
        else if i <? 0
             then (if containsUnsafeUtfChars str then -1 else i)
             else offsetOf u str (Z.to_nat i)).
Proof.
  intros Hf. unfold findByteIndex. rewrite lengthOf_spec by exact Hf.
  destruct (Z.geb_spec i (logicalLength u str)) as [Hge|Hlt]; [reflexivity|].
  pose proof (logicalLength_le str) as Hle. unfold Js.length in Hle.
  unfold scan. destruct (containsUnsafeUtfChars str) eqn:E; cbn [negb].
  - pose proof (unsafe_nonempty str E) as Hlen. rewrite scanner_eq.
    destruct (Z.ltb_spec i 0) as [Hneg|Hpos].
    + apply (scan_loop_negative u multi_ok str _ (or_intror eq_refl)); lia.
    + destruct (scan_loop_spec u multi_ok str _ (or_intror eq_refl)
                  fuel 0 0 i ltac:(lia) ltac:(lia) ltac:(lia))
        as (res & Hres & Hlo & _).
      change (Z.of_nat 0) with 0 in Hres. rewrite Hres. f_equal.
      rewrite Hlo by (rewrite <- logicalLength_ntok; lia).
      rewrite Z.sub_0_r. reflexivity.
  - destruct (Z.ltb_spec i 0) as [Hneg|Hpos]; [reflexivity|].
    rewrite safe_offset by (try exact E; lia). f_equal. lia.
Qed.

End MethodSpecs.

(** ** The two classes are lawful *)

Lemma UtfString_lawful : Lawful UtfString.
Proof.
  split; try reflexivity.
  repeat constructor; simpl; lia.
Qed.

Lemma UtfVisualString_lawful : Lawful UtfVisualString.
Proof.
  split; try reflexivity.
  repeat constructor; simpl; lia.
Qed.

Lemma shipped_lawful (cls : UtfClass) :
  cls = UtfString \/ cls = UtfVisualString -> Lawful cls.
Proof.
  intros [-> | ->]; [apply UtfString_lawful|apply UtfVisualString_lawful].
Qed.

(** [lengthOf] always returns, given fuel for one pass over the string. *)
Lemma lengthOf_total (cls : UtfClass) (fuel : nat) (str : string16) :
  Lawful cls -> (length str < fuel)%nat ->
  exists n, @lengthOf cls fuel str = Some n /\ 0 <= n <= Js.length str.
Proof.
  intros law Hf. exists (logicalLength (multiUnit cls) str).
  split; [apply lengthOf_spec; assumption|apply logicalLength_le; assumption].
Qed.

(** ** Index mapping *)

(** C1: for every text and every character index [i] with
    [0 <= i < lengthOf(T)], in the default and in the visual class,
    [findByteIndex] returns a code-unit index that [findCharIndex] maps
    back to [i]. *)
Theorem findCharIndex_findByteIndex_roundtrip :
  forall (cls : UtfClass), cls = UtfString \/ cls = UtfVisualString ->
  forall (fuel : nat) (str : string16) (n i : Z),
    (length str < fuel)%nat ->
    @lengthOf cls fuel str = Some n ->
    0 <= i < n ->
    exists b,
      @findByteIndex cls fuel str i = Some b /\
      @findCharIndex cls fuel str b = Some i.
Proof.
  intros cls Hcls fuel str n i Hf Hn Hi.
  pose proof (shipped_lawful cls Hcls) as law.
  rewrite (lengthOf_spec law) in Hn by exact Hf. injection Hn as <-.
  rewrite (findByteIndex_spec law) by exact Hf.
  destruct (Z.geb_spec i (logicalLength (multiUnit cls) str)); [lia|].
  destruct (Z.ltb_spec i 0); [lia|].
  eexists. split; [reflexivity|].
  pose proof (off_inside (multiUnit cls) (multi_ok law) str (Z.to_nat i) 0
                ltac:(lia)) as Hin.
  rewrite <- (logicalLength_ntok (cls := cls)) in Hin.
  change (off (multiUnit cls) str 0 (Z.to_nat i))
    with (offsetOf (multiUnit cls) str (Z.to_nat i)) in Hin.
  assert (0 <= offsetOf (multiUnit cls) str (Z.to_nat i))
    by (unfold offsetOf; lia).
  rewrite (findCharIndex_spec law) by (unfold Js.length; lia).
  f_equal. unfold offsetOf.
  pose proof (cover_offset (chars (multiUnit cls) str) (Z.to_nat i) 0
                (chars_nonempty _ (multi_ok law) str)) as Hc.
  rewrite Z.add_0_l in Hc. rewrite Hc; [lia|].
  unfold logicalLength in *. lia.
Qed.

Lemma findCharIndex_findByteIndex_roundtrip_witness :
  exists b,
    @findByteIndex UtfVisualString 6 [0xD83C; 0xDDE9; 0xD83C; 0xDDEA; 0x78] 1
      = Some b /\
    @findCharIndex UtfVisualString 6 [0xD83C; 0xDDE9; 0xD83C; 0xDDEA; 0x78] b
      = Some 1.
Proof.
  apply (findCharIndex_findByteIndex_roundtrip UtfVisualString
           (or_intror eq_refl) 6 [0xD83C; 0xDDE9; 0xD83C; 0xDDEA; 0x78] 2 1).
  - simpl. lia.
  - reflexivity.
  - lia.
Defined.

(** ** The scanners recognise the spans of the specification *)

Ltac case_comparisons :=
  repeat match goal with
    | |- context [?a <=? ?b] =>
        destruct (Z.leb_spec a b); cbn [andb orb option_map]
    end.

Lemma surrogatePairs_match (s : string16) :
  match_alt surrogatePairs s =
  if Spec.isSurrogatePairAt s then Some 2%nat else None.
Proof.
  unfold surrogatePairs, Spec.isSurrogatePairAt, Spec.isHighSurrogate,
    Spec.isLowSurrogate.
  destruct s as [|a [|b t]]; cbn [match_alt match_seq in_class];
    case_comparisons; reflexivity.
Qed.

Lemma isRegionalIndicatorAt_units (hi lo : Z) (t : string16) :
  Spec.isRegionalIndicatorAt (hi :: lo :: t) =
  in_class (CRange 0xD83C 0xD83C) hi && in_class (CRange 0xDDE6 0xDDFF) lo.
Proof.
  unfold Spec.isRegionalIndicatorAt, Spec.isSurrogatePairAt,
    Spec.isHighSurrogate, Spec.isLowSurrogate. cbn [in_class]. cbn zeta.
  case_comparisons; try reflexivity; lia.
Qed.

Lemma regionalIndicatorPairs_match (s : string16) :
  match_alt regionalIndicatorPairs s =
  if Spec.isFlagPairAt s then Some 4%nat else None.
Proof.
  unfold regionalIndicatorPairs, Spec.isFlagPairAt.
  destruct s as [|a [|b [|c [|d t]]]]; cbn [match_alt match_seq skipn];
    try rewrite !isRegionalIndicatorAt_units; try reflexivity.
  - destruct (in_class (CRange 55356 55356) a); reflexivity.
  - destruct (in_class (CRange 55356 55356) a); [|reflexivity].
    destruct (in_class (CRange 56806 56831) b); reflexivity.
  - destruct (in_class (CRange 55356 55356) a); [|reflexivity].
    destruct (in_class (CRange 56806 56831) b); [|reflexivity].
    destruct (in_class (CRange 55356 55356) c); reflexivity.
  - destruct (in_class (CRange 55356 55356) a); [|reflexivity].
    destruct (in_class (CRange 56806 56831) b); [|reflexivity].
    destruct (in_class (CRange 55356 55356) c); [|reflexivity].
    destruct (in_class (CRange 56806 56831) d); reflexivity.
Qed.

Lemma multiUnit_match (cls : UtfClass) (visual : bool) (s : string16) :
  implements cls visual ->
  match_alt (multiUnit cls) s =
  if Spec.isMultiUnitSpanAt visual s then Some (Spec.spanAt visual s)
  else None.
Proof.
  unfold Spec.isMultiUnitSpanAt, Spec.spanAt.
  intros [[-> ->] | [-> ->]].
  - change (multiUnit UtfString) with surrogatePairs.
    rewrite surrogatePairs_match. cbn [andb]. rewrite orb_false_r.
    destruct (Spec.isSurrogatePairAt s); reflexivity.
  - change (multiUnit UtfVisualString)
      with (regionalIndicatorPairs ++ surrogatePairs).
    rewrite match_alt_app, regionalIndicatorPairs_match, surrogatePairs_match.
    cbn [andb].
    destruct (Spec.isFlagPairAt s); destruct (Spec.isSurrogatePairAt s);
      reflexivity.
Qed.

Lemma spanAt_Spec (cls : UtfClass) (visual : bool) (s : string16) :
  implements cls visual -> spanAt (multiUnit cls) s = Spec.spanAt visual s.
Proof.
  intros H. unfold spanAt. rewrite (multiUnit_match cls visual s H).
  unfold Spec.isMultiUnitSpanAt, Spec.spanAt.
  destruct (Spec.isSurrogatePairAt s); destruct visual;
    destruct (Spec.isFlagPairAt s); reflexivity.
Qed.

Lemma chars_Spec (cls : UtfClass) (visual : bool) (str : string16) :
  implements cls visual ->
  chars (multiUnit cls) str = Spec.logicalCharacters visual str.
Proof.
  intros H. unfold chars, Spec.logicalCharacters.
  generalize (length str) as n. intros n. revert str.
  induction n as [|n IH]; intros str; [reflexivity|].
  destruct str as [|x t]; [reflexivity|].
  cbn [chars_aux Spec.characters].
  rewrite (spanAt_Spec cls visual (x :: t) H), IH. reflexivity.
Qed.

Lemma logicalLength_Spec (cls : UtfClass) (visual : bool) (str : string16) :
  implements cls visual ->
  logicalLength (multiUnit cls) str = Spec.logicalLength visual str.
Proof.
  intros H. unfold logicalLength, Spec.logicalLength.
  rewrite (chars_Spec cls visual str H). reflexivity.
Qed.

Lemma offsetOf_Spec (cls : UtfClass) (visual : bool) (str : string16)
  (i : Z) :
  implements cls visual -> i < Spec.logicalLength visual str ->
  offsetOf (multiUnit cls) str (Z.to_nat i) =
  Spec.charIndexToCodeUnitIndex visual str i.
Proof.
  intros H Hi. unfold offsetOf, Spec.charIndexToCodeUnitIndex.
  destruct (Z.geb_spec i (Spec.logicalLength visual str)); [lia|].
  rewrite (chars_Spec cls visual str H), length_concat. reflexivity.
Qed.

Lemma cover_Spec : forall (cs : list string16) (p b : Z),
  cover cs p b = Spec.spanCovering cs p b.
Proof.
  induction cs as [|c cs IH]; intros p b; [reflexivity|].
  cbn [cover Spec.spanCovering]. unfold Js.length. rewrite IH.
  destruct (Z.gtb_spec (p + Z.of_nat (length c)) b);
    destruct (Z.ltb_spec b (p + Z.of_nat (length c))); try reflexivity; lia.
Qed.

Lemma containsUnsafeUtfChars_Spec (cls : UtfClass) (visual : bool)
  (str : string16) :
  implements cls visual ->
  (forall pos, Spec.isMultiUnitSpanAt visual (skipn pos str) = false) ->
  @containsUnsafeUtfChars cls str = false.
Proof.
  intros H Hno.
  assert (law : Lawful cls)
    by (apply shipped_lawful; destruct H as [[-> _] | [-> _]]; auto).
  unfold containsUnsafeUtfChars, test. rewrite (finder_eq law).
  unfold exec. cbn [lastIndex source skipn].
  destruct (Nat.ltb_spec (length str) 0); [lia|].
  rewrite search_complete; [reflexivity|].
  intros k _. rewrite (multiUnit_match cls visual _ H), Hno. reflexivity.
Qed.

(** ** [findByteIndex] and the offsets of the specification *)

(** C2, as the code has it: [findByteIndex] returns -1 for every index
    [i >= logicalLength(T)]; for [0 <= i < logicalLength(T)] it returns
    the starting code-unit offset of the [i]-th logical character, the sum
    of the spans of the logical characters before it; and on a text
    without multi-unit spans the result for [i < logicalLength(T)] is [i]
    itself.  The logical characters are those of the specification, which
    [stringToCharArray] and [lengthOf] return and count. *)
Theorem findByteIndex_offset :
  forall (cls : UtfClass) (visual : bool), implements cls visual ->
  forall (fuel : nat) (str : string16) (i : Z),
    (length str < fuel)%nat ->
    @lengthOf cls fuel str = Some (Spec.logicalLength visual str) /\
    @stringToCharArray cls fuel str =
      Some (Spec.logicalCharacters visual str) /\
    (Spec.logicalLength visual str <= i ->
     @findByteIndex cls fuel str i = Some (-1)) /\
    (0 <= i < Spec.logicalLength visual str ->
     @findByteIndex cls fuel str i =
       Some (Spec.charIndexToCodeUnitIndex visual str i) /\
     Spec.charIndexToCodeUnitIndex visual str i =
       Z.of_nat
         (list_sum
            (map (@length Z)
               (firstn (Z.to_nat i) (Spec.logicalCharacters visual str)))) /\
     0 <= Spec.charIndexToCodeUnitIndex visual str i < Js.length str) /\
    (i < Spec.logicalLength visual str ->
     (forall pos, Spec.isMultiUnitSpanAt visual (skipn pos str) = false) ->
     @findByteIndex cls fuel str i = Some i).
Proof.
  intros cls visual Himp fuel str i Hf.
  assert (law : Lawful cls)
    by (apply shipped_lawful; destruct Himp as [[-> _] | [-> _]]; auto).
  pose proof (logicalLength_Spec cls visual str Himp) as Hlen.
  split; [rewrite <- Hlen; apply (lengthOf_spec law); exact Hf|].
  split.
  { rewrite <- (chars_Spec cls visual str Himp).
    unfold stringToCharArray. rewrite (scanner_eq law).
    apply (stringToCharArray_loop_spec _ (multi_ok law) str fuel 0); lia. }
  rewrite (findByteIndex_spec law) by exact Hf. rewrite Hlen.
  split; [|split].
  - intros Hi.
    destruct (Z.geb_spec i (Spec.logicalLength visual str)); [reflexivity|lia].
  - intros Hi.
    destruct (Z.geb_spec i (Spec.logicalLength visual str)); [lia|].
    destruct (Z.ltb_spec i 0); [lia|].
    rewrite (offsetOf_Spec cls visual str i Himp) by lia.
    split; [reflexivity|]. split.
    + unfold Spec.charIndexToCodeUnitIndex.
      destruct (Z.geb_spec i (Spec.logicalLength visual str)); [lia|].
      reflexivity.
    + rewrite <- (offsetOf_Spec cls visual str i Himp) by lia.
      pose proof (off_inside (multiUnit cls) (multi_ok law) str
                    (Z.to_nat i) 0 ltac:(lia)) as Hin.
      rewrite <- (logicalLength_ntok (cls := cls)), Hlen in Hin.
      specialize (Hin ltac:(lia)).
      change (off (multiUnit cls) str 0 (Z.to_nat i))
        with (offsetOf (multiUnit cls) str (Z.to_nat i)) in Hin.
      assert (0 <= offsetOf (multiUnit cls) str (Z.to_nat i))
        by (unfold offsetOf; lia).
      unfold Js.length. lia.
  - intros Hi Hno.
    destruct (Z.geb_spec i (Spec.logicalLength visual str)); [lia|].
    rewrite (containsUnsafeUtfChars_Spec cls visual str Himp Hno).
    destruct (Z.ltb_spec i 0); [reflexivity|].
    rewrite (safe_offset law)
      by (try (apply (containsUnsafeUtfChars_Spec cls visual str Himp Hno));
          pose proof (logicalLength_le law str); unfold Js.length in *; lia).
    f_equal. lia.
Qed.

Lemma findByteIndex_offset_witness :
  @lengthOf UtfString 5 a_smile_b = Some 3 /\
  @stringToCharArray UtfString 5 a_smile_b =
    Some [[0x61]; [0xD83D; 0xDE42]; [0x62]] /\
  @findByteIndex UtfString 5 a_smile_b 2 = Some 3 /\
  @findByteIndex UtfString 5 a_smile_b 3 = Some (-1) /\
  @findByteIndex UtfVisualString 6 flag_x 1 = Some 4 /\
  @findByteIndex UtfString 4 [0x61; 0x62; 0x63] 2 = Some 2.
Proof.
  destruct (findByteIndex_offset UtfString false
              (or_introl (conj eq_refl eq_refl)) 5 a_smile_b 2
              ltac:(simpl; lia)) as (H1 & H2 & _ & H4 & _).
  destruct (findByteIndex_offset UtfString false
              (or_introl (conj eq_refl eq_refl)) 5 a_smile_b 3
              ltac:(simpl; lia)) as (_ & _ & H3 & _).
  destruct (findByteIndex_offset UtfVisualString true
              (or_intror (conj eq_refl eq_refl)) 6 flag_x 1
              ltac:(simpl; lia)) as (_ & _ & _ & H5 & _).
  destruct (findByteIndex_offset UtfString false
              (or_introl (conj eq_refl eq_refl)) 4 [0x61; 0x62; 0x63] 2
              ltac:(simpl; lia)) as (_ & _ & _ & _ & H6).
  split; [exact H1|]. split; [exact H2|].
  split; [exact (proj1 (H4 ltac:(vm_compute; split; congruence)))|].
  split; [exact (H3 ltac:(vm_compute; congruence))|].
  split; [exact (proj1 (H5 ltac:(vm_compute; split; congruence)))|].
  apply H6; [vm_compute; reflexivity|].
  intros [|[|[|[|pos]]]]; reflexivity.
Defined.

(** C2 as stated fails at a negative index: on [abc], a text without
    multi-unit spans, [findByteIndex(T, -2)] is -2, which is below
    [logicalLength(T)] and is neither -1 nor a code-unit offset. *)
Lemma findByteIndex_negative_index :
  ~ (forall (cls : UtfClass) (visual : bool), implements cls visual ->
     forall (fuel : nat) (str : string16) (i : Z),
       (length str < fuel)%nat ->
       i < Spec.logicalLength visual str ->
       exists b, @findByteIndex cls fuel str i = Some b /\ 0 <= b).
Proof.
  intros H.
  destruct (H UtfString false (or_introl (conj eq_refl eq_refl))
              4%nat [0x61; 0x62; 0x63] (-2) ltac:(simpl; lia)
              ltac:(vm_compute; reflexivity)) as (b & Hb & Hpos).
  assert (E : @findByteIndex UtfString 4 [0x61; 0x62; 0x63] (-2) = Some (-2))
    by reflexivity.
  rewrite E in Hb. injection Hb as <-. lia.
Qed.

(** ** The two classes on the same text *)

Lemma chars_ext (u1 u2 : pattern) (str : string16) :
  Forall (fun a => (2 <= length a <= 4)%nat) u1 ->
  Forall (fun a => (2 <= length a <= 4)%nat) u2 ->
  (forall k, spanAt u1 (skipn k str) = spanAt u2 (skipn k str)) ->
  chars u1 str = chars u2 str.
Proof.
  intros H1 H2 Hsp.
  enough (forall d p, (length str - p <= d)%nat ->
            chars u1 (skipn p str) = chars u2 (skipn p str)) as H
    by apply (H (length str) 0%nat ltac:(lia)).
  induction d as [|d IH]; intros p Hd.
  - rewrite skipn_all2 by lia. reflexivity.
  - destruct (Nat.le_gt_cases (length str) p) as [Hge|Hlt].
    + rewrite skipn_all2 by lia. reflexivity.
    + rewrite (chars_suf u1 H1 str p), (chars_suf u2 H2 str p) by lia.
      rewrite Hsp. f_equal. apply IH.
      pose proof (span_suf u2 H2 str p Hlt). lia.
Qed.

Lemma spanAt_without_flags (s : string16) :
  match_alt regionalIndicatorPairs s = None ->
  spanAt (multiUnit UtfVisualString) s = spanAt (multiUnit UtfString) s.
Proof.
  intros H. unfold spanAt, multiUnit. cbn [createUnsafeUtfCharFinder
    UtfVisualString UtfString source
    createRegionalIndicatorAndSurrogatePairScanner
    createSurrogatePairScanner newRegExp].
  rewrite match_alt_app, H. reflexivity.
Qed.

(** C5: on the flag of two regional indicators followed by [x] the
    default class counts 3 logical characters and the visual class 2; on
    a text where no regional-indicator pair matches, the two classes cut
    the same logical characters and count the same length. *)
Theorem lengthOf_flag_default_visual :
  forall (fuel : nat), (5 < fuel)%nat ->
    @lengthOf UtfString fuel flag_x = Some 3 /\
    @lengthOf UtfVisualString fuel flag_x = Some 2 /\
    forall (str : string16),
      (length str < fuel)%nat ->
      (forall k, match_alt regionalIndicatorPairs (skipn k str) = None) ->
      @stringToCharArray UtfVisualString fuel str =
        @stringToCharArray UtfString fuel str /\
      @lengthOf UtfVisualString fuel str = @lengthOf UtfString fuel str.
Proof.
  intros fuel Hf.
  split; [rewrite (lengthOf_spec UtfString_lawful) by (simpl; lia);
          reflexivity|].
  split; [rewrite (lengthOf_spec UtfVisualString_lawful) by (simpl; lia);
          reflexivity|].
  intros str Hs Hno.
  assert (E : chars (multiUnit UtfVisualString) str =
              chars (multiUnit UtfString) str).
  { apply chars_ext.
    - apply (multi_ok UtfVisualString_lawful).
    - apply (multi_ok UtfString_lawful).
    - intros k. apply spanAt_without_flags, Hno. }
  split.
  - unfold stringToCharArray.
    rewrite (scanner_eq UtfVisualString_lawful), (scanner_eq UtfString_lawful).
    rewrite (stringToCharArray_loop_spec _ (multi_ok UtfVisualString_lawful)
               str fuel 0) by lia.
    rewrite (stringToCharArray_loop_spec _ (multi_ok UtfString_lawful)
               str fuel 0) by lia.
    cbn [skipn]. rewrite E. reflexivity.
  - rewrite (lengthOf_spec UtfVisualString_lawful),
      (lengthOf_spec UtfString_lawful) by exact Hs.
    unfold logicalLength. rewrite E. reflexivity.
Qed.

Lemma lengthOf_flag_default_visual_witness :
  @lengthOf UtfString 6 flag_x = Some 3 /\
  @lengthOf UtfVisualString 6 flag_x = Some 2 /\
  @stringToCharArray UtfVisualString 6 a_smile_b =
    @stringToCharArray UtfString 6 a_smile_b /\
  @lengthOf UtfVisualString 6 a_smile_b = @lengthOf UtfString 6 a_smile_b.
Proof.
  destruct (lengthOf_flag_default_visual 6 ltac:(lia)) as (H1 & H2 & H3).
  split; [exact H1|]. split; [exact H2|].
  apply H3; [simpl; lia|].
  intros k. destruct k as [|[|[|[|[|k]]]]]; reflexivity.
Defined.

(** ** Searching *)

Lemma starts_with_true (needle : string16) : forall s,
  Js.starts_with needle s = true -> exists rest, s = needle ++ rest.
Proof.
  induction needle as [|c needle IH]; intros s H.
  - exists s. reflexivity.
  - destruct s as [|d s]; [discriminate|]. simpl in H.
    apply andb_true_iff in H. destruct H as [Hc Hs].
    apply Z.eqb_eq in Hc. subst d.
    destruct (IH _ Hs) as [rest ->]. exists rest. reflexivity.
Qed.

Lemma starts_with_app (needle rest : string16) :
  Js.starts_with needle (needle ++ rest) = true.
Proof.
  induction needle as [|c needle IH]; [reflexivity|].
  simpl. rewrite Z.eqb_refl. exact IH.
Qed.

(** The native search returns -1 or the first occurrence from [pos]. *)
Lemma find_from_spec (needle : string16) : forall s pos,
  (Js.find_from needle s pos = -1 /\
   forall k, (k <= length s)%nat -> Js.starts_with needle (skipn k s) = false)
  \/
  (exists k, Js.find_from needle s pos = Z.of_nat (pos + k) /\
     (k <= length s)%nat /\
     Js.starts_with needle (skipn k s) = true /\
     forall k', (k' < k)%nat -> Js.starts_with needle (skipn k' s) = false).
Proof.
  induction s as [|x s IH]; intros pos; cbn [Js.find_from].
  - destruct (Js.starts_with needle []) eqn:E.
    + right. exists 0%nat. rewrite Nat.add_0_r. simpl. repeat split; auto; lia.
    + left. split; [reflexivity|]. intros k Hk. simpl in Hk.
      replace k with 0%nat by lia. exact E.
  - destruct (Js.starts_with needle (x :: s)) eqn:E.
    + right. exists 0%nat. rewrite Nat.add_0_r. simpl. repeat split; auto; lia.
    + destruct (IH (S pos)) as [[Hm Hno] | (k & Hk & Hl & Hs & Hno)].
      * left. split; [exact Hm|]. intros [|k] Hk; [exact E|].
        simpl. apply Hno. simpl in Hk. lia.
      * right. exists (S k). rewrite Hk. simpl length. cbn [skipn].
        repeat split; auto; try lia.
        intros [|k'] Hk'; [exact E|]. simpl. apply Hno. lia.
Qed.

(** ** Slicing *)

Lemma Js_slice_end (str : string16) :
  Js.slice str (Js.length str) (Js.length str) = [].
Proof.
  unfold Js.slice, Js.clamp. destruct (Z.ltb_spec (Js.length str) 0).
  - unfold Js.length in *. lia.
  - rewrite Z.sub_diag. reflexivity.
Qed.

Lemma Js_slice_all (str : string16) :
  Js.slice str 0 (Js.length str) = str.
Proof.
  unfold Js.slice, Js.clamp. cbn [Z.ltb Z.compare].
  destruct (Z.ltb_spec (Js.length str) 0); [unfold Js.length in *; lia|].
  unfold Js.length.
  replace (Z.to_nat (Z.min 0 (Z.of_nat (length str)))) with 0%nat by lia.
  replace (Z.to_nat (Z.min (Z.of_nat (length str)) (Z.of_nat (length str)) -
                     Z.min 0 (Z.of_nat (length str))))
    with (length str) by lia.
  cbn [skipn]. apply firstn_all.
Qed.

(** C10: with a negative [start] that reaches before the first logical
    character ([lengthOf(T) + start < 0]), [slice(T, start)] is the empty
    text, in both classes; the start is not clamped to 0, for which
    [slice] gives the whole text. *)
Theorem slice_negative_start_before_text :
  forall (cls : UtfClass), cls = UtfString \/ cls = UtfVisualString ->
  forall (fuel : nat) (str : string16) (n start : Z),
    (length str < fuel)%nat ->
    @lengthOf cls fuel str = Some n ->
    start < 0 -> n + start < 0 ->
    @slice cls fuel str (Some start) None = Some [] /\
    @slice cls fuel str (Some 0) None = Some str.
Proof.
  intros cls Hcls fuel str n start Hf Hn Hs Hns.
  pose proof (shipped_lawful cls Hcls) as law.
  pose proof (logicalLength_le law str) as Hle.
  pose proof Hn as Hn'.
  rewrite (lengthOf_spec law) in Hn' by exact Hf. injection Hn' as <-.
  unfold slice. rewrite Hn.
  destruct (Z.ltb_spec start 0); [|lia].
  cbn [Z.ltb Z.compare].
  rewrite !(findByteIndex_spec law) by exact Hf.
  destruct (Z.geb_spec (Js.length str) (logicalLength (multiUnit cls) str));
    [|lia].
  cbn [Z.ltb Z.compare]. split.
  - destruct (Z.geb_spec (logicalLength (multiUnit cls) str + start)
                (logicalLength (multiUnit cls) str)); [lia|].
    destruct (Z.ltb_spec (logicalLength (multiUnit cls) str + start) 0); [|lia].
    assert (Hneg : ((if containsUnsafeUtfChars str then -1
                     else logicalLength (multiUnit cls) str + start) <? 0)
                   = true).
    { destruct (containsUnsafeUtfChars str); apply Z.ltb_lt; lia. }
    rewrite Hneg. f_equal. apply Js_slice_end.
  - destruct (Z.geb_spec 0 (logicalLength (multiUnit cls) str)) as [Hz|Hz].
    + cbn [Z.ltb Z.compare].
      rewrite (logicalLength_nil law str) by lia. reflexivity.
    + assert (Ho : offsetOf (multiUnit cls) str (Z.to_nat 0) = 0)
        by reflexivity.
      rewrite Ho. cbn [Z.ltb Z.compare]. f_equal. apply Js_slice_all.
Qed.

Lemma slice_negative_start_before_text_witness :
  @slice UtfString 5 a_smile_b (Some (-4)) None = Some [] /\
  @slice UtfString 5 a_smile_b (Some 0) None = Some a_smile_b.
Proof.
  apply (slice_negative_start_before_text UtfString (or_introl eq_refl)
           5 a_smile_b 3 (-4)).
  - simpl. lia.
  - reflexivity.
  - lia.
  - lia.
Defined.

(** ** [charAt] *)

Lemma match_seq_firstn (a : list cclass) : forall m s,
  (length a <= m)%nat -> match_seq a (firstn m s) = match_seq a s.
Proof.
  induction a as [|c a IH]; intros m s Hm; [reflexivity|].
  simpl in Hm. destruct m as [|m]; [lia|].
  destruct s as [|x s]; [reflexivity|]. cbn [firstn match_seq].
  destruct (in_class c x); [|reflexivity].
  rewrite IH by lia. reflexivity.
Qed.

Lemma match_alt_firstn (r : pattern) (m : nat) (s : string16) :
  Forall (fun a => (length a <= m)%nat) r ->
  match_alt r (firstn m s) = match_alt r s.
Proof.
  induction 1 as [|a r Ha Hr IH]; [reflexivity|].
  cbn [match_alt]. rewrite match_seq_firstn by exact Ha.
  rewrite IH. reflexivity.
Qed.

Lemma nth_skipn_head {A : Type} (d : A) : forall (i : nat) (l : list A) x r,
  skipn i l = x :: r -> nth i l d = x.
Proof.
  induction i as [|i IH]; intros l x r H.
  - simpl in H. subst l. reflexivity.
  - destruct l as [|y l]; [discriminate|]. simpl in *. apply (IH _ _ _ H).
Qed.

Section CharAt.

Context {cls : UtfClass}.
Hypothesis law : Lawful cls.

Local Abbreviation u := (multiUnit cls) (only parsing).

Lemma spanAt_firstn8 (s : string16) : spanAt u (firstn 8 s) = spanAt u s.
Proof.
  unfold spanAt. rewrite match_alt_firstn; [reflexivity|].
  eapply Forall_impl; [|apply (multi_ok law)]. simpl. intros. lia.
Qed.

(** The logical character that starts at a code unit [b] of the
    string. *)
Lemma charAt_from_offset (str : string16) (b : nat) :
  (b < length str)%nat ->
  fst (exec createUtfSafeCharScanner
         (Js.slice str (Z.of_nat b) (Z.of_nat b + 8))) =
  Some (mkMatch 0 (firstn (spanAt u (skipn b str)) (skipn b str))).
Proof.
  intros Hb.
  assert (Hsl : Js.slice str (Z.of_nat b) (Z.of_nat b + 8) =
                firstn 8 (skipn b str)).
  { unfold Js.slice, Js.clamp, Js.length.
    destruct (Z.ltb_spec (Z.of_nat b) 0); [lia|].
    destruct (Z.ltb_spec (Z.of_nat b + 8) 0); [lia|].
    replace (Z.to_nat (Z.min (Z.of_nat b) (Z.of_nat (length str))))
      with b by lia.
    destruct (Nat.le_gt_cases (b + 8) (length str)).
    - f_equal. lia.
    - rewrite !firstn_all2; [reflexivity| |]; rewrite length_skipn; lia. }
  rewrite Hsl. rewrite (scanner_eq law).
  pose proof (suf_nonempty str b Hb) as Hne.
  assert (Hlen : (0 < length (firstn 8 (skipn b str)))%nat).
  { rewrite length_firstn, length_skipn. lia. }
  rewrite (exec_safe u (firstn 8 (skipn b str)) 0 Hlen).
  cbn [fst skipn]. rewrite spanAt_firstn8.
  pose proof (span_suf u (multi_ok law) str b Hb) as Hsp.
  rewrite firstn_firstn.
  replace (Nat.min (spanAt u (skipn b str)) 8) with (spanAt u (skipn b str))
    by lia.
  reflexivity.
Qed.

Theorem charAt_spec (fuel : nat) (str : string16) (i : Z) :
  (length str < fuel)%nat ->
  charAt fuel str i =
  Some (if (0 <=? i) && (i <? logicalLength u str)
        then nth (Z.to_nat i) (chars u str) []
        else []).
Proof.
  intros Hf. unfold charAt. rewrite (findByteIndex_spec law) by exact Hf.
  destruct (Z.geb_spec i (logicalLength u str)) as [Hge|Hlt].
  - cbn [Z.ltb Z.compare].
    destruct (Z.ltb_spec i (logicalLength u str)); [lia|].
    rewrite andb_false_r. reflexivity.
  - destruct (Z.ltb_spec i (logicalLength u str)); [|lia].
    destruct (Z.ltb_spec i 0) as [Hneg|Hpos].
    + destruct (Z.leb_spec 0 i); [lia|]. cbn [andb].
      destruct (containsUnsafeUtfChars str).
      * reflexivity.
      * destruct (Z.ltb_spec i 0); [reflexivity|lia].
    + destruct (Z.leb_spec 0 i); [|lia]. cbn [andb].
      rewrite (offsetOf_off (cls := cls)).
      pose proof (off_inside u (multi_ok law) str (Z.to_nat i) 0
                    ltac:(lia)) as Hin.
      rewrite <- (logicalLength_ntok (cls := cls)) in Hin.
      specialize (Hin ltac:(lia)).
      assert (Hoff0 : 0 <= off u str 0 (Z.to_nat i)) by (unfold off; lia).
      destruct (Z.ltb_spec (off u str 0 (Z.to_nat i)) 0); [lia|].
      pose proof (charAt_from_offset str (Z.to_nat (off u str 0 (Z.to_nat i)))
                    ltac:(lia)) as Hex.
      rewrite !Z2Nat.id in Hex by lia. rewrite Hex. cbn [text]. f_equal.
      symmetry. eapply nth_skipn_head.
      pose proof (chars_at_off u (multi_ok law) str (Z.to_nat i) 0
                    ltac:(lia)) as Hat.
      rewrite <- (logicalLength_ntok (cls := cls)) in Hat.
      specialize (Hat ltac:(lia)). cbn [Nat.add skipn] in Hat.
      change (skipn 0 str) with str in Hat.
      refine (eq_trans (eq_sym Hat) _).
      apply (chars_suf u (multi_ok law) str). lia.
Qed.

(** With the character scanner [charAt] never reads [characters[0]]
    from an empty [characters]: a non-negative byte index is inside the
    string, and there the scanner matches. *)
Lemma charAt_always_matches (fuel : nat) (str : string16) (i b : Z) :
  (length str < fuel)%nat ->
  findByteIndex fuel str i = Some b -> 0 <= b ->
  exists m,
    fst (exec createUtfSafeCharScanner (Js.slice str b (b + 8))) = Some m.
Proof.
  intros Hf Hb Hb0.
  rewrite (findByteIndex_spec law) in Hb by exact Hf. injection Hb as Hb.
  destruct (Z.geb_spec i (logicalLength u str)); [lia|].
  destruct (Z.ltb_spec i 0).
  - destruct (containsUnsafeUtfChars str); lia.
  - rewrite (offsetOf_off (cls := cls)) in Hb.
    pose proof (off_inside u (multi_ok law) str (Z.to_nat i) 0
                  ltac:(lia)) as Hin.
    rewrite <- (logicalLength_ntok (cls := cls)) in Hin.
    specialize (Hin ltac:(lia)).
    pose proof (charAt_from_offset str (Z.to_nat b) ltac:(lia)) as Hex.
    rewrite !Z2Nat.id in Hex by lia. eexists. exact Hex.
Qed.

End CharAt.

(** ** Lone surrogates *)

Lemma chars_app (u : pattern) (rest : string16) :
  Forall (fun a => (2 <= length a <= 4)%nat) u ->
  forall pre,
    (forall k, (k < length pre)%nat ->
       spanAt u (skipn k pre ++ rest) = spanAt u (skipn k pre)) ->
    chars u (pre ++ rest) = chars u pre ++ chars u rest.
Proof.
  intros Hu.
  apply (chars_ind u Hu
           (fun pre =>
              (forall k, (k < length pre)%nat ->
                 spanAt u (skipn k pre ++ rest) = spanAt u (skipn k pre)) ->
              chars u (pre ++ rest) = chars u pre ++ chars u rest)).
  - intros _. reflexivity.
  - intros s Hs IH H.
    pose proof (spanAt_bounds u Hu s Hs) as Hb.
    assert (Hlen : (0 < length s)%nat) by (destruct s; [congruence|simpl; lia]).
    pose proof (H 0%nat Hlen) as H0. cbn [skipn] in H0.
    rewrite (chars_cons u Hu (s ++ rest))
      by (destruct s; [congruence|discriminate]).
    rewrite (chars_cons u Hu s) by exact Hs.
    rewrite H0. rewrite firstn_app, skipn_app.
    replace (spanAt u s - length s)%nat with 0%nat by lia.
    cbn [firstn skipn]. rewrite app_nil_r. cbn [app]. f_equal.
    apply IH. intros k Hk. rewrite skipn_skipn. apply H.
    rewrite length_skipn in Hk. lia.
Qed.

Lemma last_suffix {A : Type} (d : A) (t : list A) : forall t0,
  t <> [] -> last (t0 ++ t) d = last t d.
Proof.
  induction t0 as [|x t0 IH]; intros Ht; [reflexivity|].
  cbn [app]. rewrite <- (IH Ht).
  destruct (t0 ++ t) eqn:E; [|reflexivity].
  apply app_eq_nil in E. destruct E. congruence.
Qed.

Ltac split_comparisons :=
  repeat match goal with
    | |- context [?a <=? ?b] =>
        destruct (Z.leb_spec a b); cbn [andb option_map]
    end.

(** Before a lone surrogate the logical characters are cut as without it,
    and the lone surrogate is a character of one code unit. *)
Lemma lone_span_before (cls : UtfClass) (pre : string16) (c : Z)
  (post t : string16) :
  cls = UtfString \/ cls = UtfVisualString ->
  lone pre c post -> t <> [] -> last t 0 = last pre 0 ->
  spanAt (multiUnit cls) (t ++ c :: post) = spanAt (multiUnit cls) t.
Proof.
  intros Hcls Hlone Ht Hlast. unfold lone, isHigh, isLow in Hlone.
  rewrite <- Hlast in Hlone. clear Hlast.
  destruct post as [|p1 post]; cbn [hd] in Hlone;
    destruct t as [|x [|y [|z [|w t]]]]; try congruence;
    cbn [last] in Hlone;
    destruct Hcls as [-> | ->];
    unfold spanAt, multiUnit;
    cbn [createUnsafeUtfCharFinder UtfString UtfVisualString source
         createSurrogatePairScanner
         createRegionalIndicatorAndSurrogatePairScanner newRegExp
         surrogatePairs regionalIndicatorPairs app match_alt match_seq
         in_class];
    split_comparisons; try reflexivity; try lia.
Qed.

Lemma lone_span_self (cls : UtfClass) (pre : string16) (c : Z)
  (post : string16) :
  cls = UtfString \/ cls = UtfVisualString ->
  lone pre c post ->
  spanAt (multiUnit cls) (c :: post) = 1%nat.
Proof.
  intros Hcls Hlone. unfold lone, isHigh, isLow in Hlone.
  destruct post as [|p1 post]; cbn [hd] in Hlone;
    destruct Hcls as [-> | ->];
    unfold spanAt, multiUnit;
    cbn [createUnsafeUtfCharFinder UtfString UtfVisualString source
         createSurrogatePairScanner
         createRegionalIndicatorAndSurrogatePairScanner newRegExp
         surrogatePairs regionalIndicatorPairs app match_alt match_seq
         in_class];
    split_comparisons; try reflexivity; try lia.
Qed.

Lemma lone_chars (cls : UtfClass) (pre : string16) (c : Z) (post : string16) :
  cls = UtfString \/ cls = UtfVisualString ->
  lone pre c post ->
  chars (multiUnit cls) (pre ++ c :: post) =
  chars (multiUnit cls) pre ++ [c] :: chars (multiUnit cls) post.
Proof.
  intros Hcls Hlone.
  pose proof (multi_ok (shipped_lawful cls Hcls)) as Hu.
  rewrite (chars_app _ (c :: post) Hu).
  - f_equal. rewrite (chars_cons _ Hu) by discriminate.
    rewrite (lone_span_self cls pre c post Hcls Hlone). reflexivity.
  - intros k Hk. apply (lone_span_before cls pre c post); try assumption.
    + intros E. apply (f_equal (@length Z)) in E.
      rewrite length_skipn in E. simpl in E. lia.
    + rewrite <- (firstn_skipn k pre) at 2. symmetry. apply last_suffix.
      intros E. apply (f_equal (@length Z)) in E.
      rewrite length_skipn in E. simpl in E. lia.
Qed.

(** C8: a lone surrogate code unit [c] between [pre] and [post] is one
    logical character of one code unit, in both classes: the length of the
    text is the length of [pre] plus one plus the length of [post], the
    character at index [lengthOf(pre)] starts at the code unit of [c], and
    [charAt] there returns exactly [c]; each operation returns a value. *)
Theorem lone_surrogate_single_character :
  forall (cls : UtfClass), cls = UtfString \/ cls = UtfVisualString ->
  forall (fuel : nat) (pre : string16) (c : Z) (post : string16),
    (length (pre ++ c :: post) < fuel)%nat ->
    lone pre c post ->
    exists np ns,
      @lengthOf cls fuel pre = Some np /\
      @lengthOf cls fuel post = Some ns /\
      @lengthOf cls fuel (pre ++ c :: post) = Some (np + 1 + ns) /\
      @findByteIndex cls fuel (pre ++ c :: post) np = Some (Js.length pre) /\
      @findCharIndex cls fuel (pre ++ c :: post) (Js.length pre) = Some np /\
      @charAt cls fuel (pre ++ c :: post) np = Some [c].
Proof.
  intros cls Hcls fuel pre c post Hf Hlone.
  pose proof (shipped_lawful cls Hcls) as law.
  pose proof (multi_ok law) as Hu.
  pose proof (lone_chars cls pre c post Hcls Hlone) as Hch.
  rewrite length_app in Hf. cbn [length] in Hf.
  exists (logicalLength (multiUnit cls) pre),
         (logicalLength (multiUnit cls) post).
  assert (Hlen : logicalLength (multiUnit cls) (pre ++ c :: post) =
                 logicalLength (multiUnit cls) pre + 1 +
                 logicalLength (multiUnit cls) post).
  { unfold logicalLength. rewrite Hch, length_app. cbn [length]. lia. }
  assert (Hfirst : firstn (length (chars (multiUnit cls) pre))
                     (chars (multiUnit cls) (pre ++ c :: post)) =
                   chars (multiUnit cls) pre).
  { rewrite Hch, firstn_app, Nat.sub_diag, firstn_all. cbn [firstn].
    apply app_nil_r. }
  assert (Hoff : offsetOf (multiUnit cls) (pre ++ c :: post)
                   (Z.to_nat (logicalLength (multiUnit cls) pre)) =
                 Js.length pre).
  { unfold offsetOf, logicalLength. rewrite Nat2Z.id, Hfirst.
    rewrite (concat_chars _ Hu). reflexivity. }
  pose proof (logicalLength_le law pre) as Hp.
  pose proof (logicalLength_le law post) as Hq.
  split; [apply (lengthOf_spec law); lia|].
  split; [apply (lengthOf_spec law); lia|].
  split; [rewrite (lengthOf_spec law), Hlen
            by (rewrite length_app; cbn [length]; lia); reflexivity|].
  split; [|split].
  - rewrite (findByteIndex_spec law) by (rewrite length_app; cbn [length]; lia).
    rewrite Hlen.
    destruct (Z.geb_spec (logicalLength (multiUnit cls) pre)
                (logicalLength (multiUnit cls) pre + 1 +
                 logicalLength (multiUnit cls) post)); [lia|].
    destruct (Z.ltb_spec (logicalLength (multiUnit cls) pre) 0); [lia|].
    rewrite Hoff. reflexivity.
  - rewrite (findCharIndex_spec law);
      [|rewrite length_app; cbn [length]; lia
       |unfold Js.length; rewrite length_app; cbn [length]; lia].
    f_equal.
    pose proof (cover_offset (chars (multiUnit cls) (pre ++ c :: post))
                  (length (chars (multiUnit cls) pre)) 0
                  (chars_nonempty _ Hu _)) as Hc.
    rewrite Hfirst, (concat_chars _ Hu), Z.add_0_l in Hc.
    unfold Js.length, logicalLength. apply Hc.
    rewrite Hch, length_app. cbn [length]. lia.
  - rewrite (charAt_spec law) by (rewrite length_app; cbn [length]; lia).
    rewrite Hlen.
    destruct (Z.leb_spec 0 (logicalLength (multiUnit cls) pre)); [|lia].
    destruct (Z.ltb_spec (logicalLength (multiUnit cls) pre)
                (logicalLength (multiUnit cls) pre + 1 +
                 logicalLength (multiUnit cls) post)); [|lia].
    cbn [andb]. f_equal. unfold logicalLength. rewrite Nat2Z.id, Hch.
    apply nth_middle.
Qed.

Lemma lone_surrogate_single_character_witness :
  exists np ns,
    @lengthOf UtfVisualString 6 [0x61; 0xD83C] = Some np /\
    @lengthOf UtfVisualString 6 [0x62; 0xDDE6] = Some ns /\
    @lengthOf UtfVisualString 6 ([0x61; 0xD83C] ++ 0xD83D :: [0x62; 0xDDE6])
      = Some (np + 1 + ns) /\
    @findByteIndex UtfVisualString 6
      ([0x61; 0xD83C] ++ 0xD83D :: [0x62; 0xDDE6]) np
      = Some (Js.length [0x61; 0xD83C]) /\
    @findCharIndex UtfVisualString 6
      ([0x61; 0xD83C] ++ 0xD83D :: [0x62; 0xDDE6]) (Js.length [0x61; 0xD83C])
      = Some np /\
    @charAt UtfVisualString 6
      ([0x61; 0xD83C] ++ 0xD83D :: [0x62; 0xDDE6]) np = Some [0xD83D].
Proof.
  apply (lone_surrogate_single_character UtfVisualString (or_intror eq_refl)
           6 [0x61; 0xD83C] 0xD83D [0x62; 0xDDE6]).
  - simpl. lia.
  - left. unfold isHigh, isLow. simpl. lia.
Defined.

(** ** Code points *)

(** The scan of [charCodeAt] over the surrogate pairs of the text. *)
Lemma findSurrogateByteIndex_spec (fuel : nat) (str : string16) (i : Z) :
  (length str < fuel)%nat -> 0 <= i ->
  exists res,
    @findSurrogateByteIndex UtfString fuel str i = Some res /\
    (i < logicalLength surrogatePairs str ->
     res = offsetOf surrogatePairs str (Z.to_nat i) /\
     0 <= res < Js.length str) /\
    (logicalLength surrogatePairs str <= i ->
     res = -1 \/ Js.length str <= res).
Proof.
  intros Hf Hi.
  pose proof UtfString_lawful as law. pose proof (multi_ok law) as Hu.
  change (multiUnit UtfString) with surrogatePairs in Hu.
  unfold findSurrogateByteIndex, scan.
  destruct (@containsUnsafeUtfChars UtfString str) eqn:E; cbn [negb].
  - pose proof (unsafe_nonempty law str E) as Hlen.
    destruct (scan_loop_spec surrogatePairs Hu str surrogatePairs
                (or_introl eq_refl) fuel 0 0 i ltac:(lia) ltac:(lia) ltac:(lia))
      as (res & Hres & Hlo & Hhi).
    exists res. split; [exact Hres|].
    rewrite Z.sub_0_r in Hlo, Hhi. cbn [Z.of_nat Z.add] in Hlo.
    change (ntok surrogatePairs str 0) with (logicalLength surrogatePairs str)
      in Hlo, Hhi.
    split.
    + intros Hlt. rewrite (Hlo ltac:(lia)). split; [reflexivity|].
      pose proof (off_inside surrogatePairs Hu str (Z.to_nat i) 0 ltac:(lia))
        as Hin.
      change (ntok surrogatePairs str 0) with (logicalLength surrogatePairs str)
        in Hin.
      specialize (Hin ltac:(lia)). unfold Js.length, off in *. lia.
    + intros Hge.
      destruct (Z.eq_dec i (logicalLength surrogatePairs str)) as [Heq|Hne].
      * right. rewrite (Hlo ltac:(lia)).
        pose proof (off_total surrogatePairs Hu str (Z.to_nat i) 0 ltac:(lia))
          as Htot.
        change (ntok surrogatePairs str 0)
          with (logicalLength surrogatePairs str) in Htot.
        specialize (Htot ltac:(lia)). unfold Js.length. lia.
      * destruct (Hhi ltac:(lia)) as [-> | ->]; [left; reflexivity|].
        right. unfold Js.length. lia.
  - exists i. split; [reflexivity|].
    pose proof (safe_length law str E) as Hsl.
    change (multiUnit UtfString) with surrogatePairs in Hsl.
    split.
    + intros Hlt. split; [|lia].
      pose proof (safe_offset law str (Z.to_nat i) E) as Hso.
      change (multiUnit UtfString) with surrogatePairs in Hso.
      unfold Js.length in *. rewrite Hso; lia.
    + intros Hge. right. lia.
Qed.

Lemma Js_charCodeAt_outside (str : string16) (b : Z) :
  Js.length str <= b -> Js.charCodeAt str b = NaN.
Proof.
  intros Hb. unfold Js.charCodeAt.
  destruct (Z.geb_spec b (Js.length str)); [|lia].
  rewrite orb_true_r. reflexivity.
Qed.

Lemma charCodeAt_past_end (fuel : nat) (str : string16) (i : Z) :
  (length str < fuel)%nat ->
  logicalLength surrogatePairs str <= i ->
  @charCodeAt UtfString fuel str i = Some NaN.
Proof.
  intros Hf Hi.
  pose proof (logicalLength_le UtfString_lawful str) as Hle.
  change (multiUnit UtfString) with surrogatePairs in Hle.
  unfold charCodeAt.
  destruct (findSurrogateByteIndex_spec fuel str i Hf ltac:(lia))
    as (res & -> & _ & Hhi).
  destruct (Hhi Hi) as [-> | Hout]; [reflexivity|].
  destruct (Z.ltb_spec res 0); [reflexivity|].
  rewrite Js_charCodeAt_outside by exact Hout. reflexivity.
Qed.

(** ** The code unit 0 and the empty pad text *)

(** C3 at a text with a NUL code unit and no surrogates, which is
    well-paired: [stringToCodePoints] stops at the NUL, because
    [!codePoint] holds for 0 as well as for [NaN], and encoding the code
    points gives a shorter text. *)
Theorem stringToCodePoints_stops_at_NUL :
  forall (cls : UtfClass) (fuel : nat),
    cls = UtfString \/ cls = UtfVisualString ->
    WellPaired [0x61; 0; 0x62] /\
    @stringToCodePoints cls fuel [0x61; 0; 0x62] = Some [0x61] /\
    codePointsToString [0x61] = [0x61] /\
    codePointsToString [0x61] <> [0x61; 0; 0x62].
Proof.
  intros cls fuel Hcls. split.
  - repeat (apply wp_unit; [lia|unfold isHigh; lia|unfold isLow; lia|]).
    apply wp_nil.
  - destruct Hcls as [-> | ->];
      (split; [reflexivity|split; [reflexivity|discriminate]]).
Qed.

Lemma stringToCodePoints_stops_at_NUL_witness :
  WellPaired [0x61; 0; 0x62] /\
  @stringToCodePoints UtfString 4 [0x61; 0; 0x62] = Some [0x61] /\
  codePointsToString [0x61] = [0x61] /\
  codePointsToString [0x61] <> [0x61; 0; 0x62].
Proof.
  apply (stringToCodePoints_stops_at_NUL UtfString 4). left. reflexivity.
Defined.

(** C4 at a text with a NUL code unit: the inner loop of [stringToBytes]
    pushes no byte for 0, and an empty byte array is not padded (only one
    of length 1 is), so the code unit gives no bytes at all. *)
Theorem stringToBytes_drops_NUL :
  forall (fuel : nat), (1 < fuel)%nat ->
    stringToBytes fuel [0x61; 0; 0x62] = Some [0; 0x61; 0; 0x62] /\
    length [0; 0x61; 0; 0x62] <> (2 * length [0x61; 0; 0x62])%nat /\
    bytesToString [0; 0x61; 0; 0x62] = [0x61; 0x62].
Proof.
  intros fuel Hf. destruct fuel as [|[|fuel]]; try lia.
  split; [reflexivity|]. split; [simpl; lia|reflexivity].
Qed.

Lemma stringToBytes_drops_NUL_witness :
  stringToBytes 2 [0x61; 0; 0x62] = Some [0; 0x61; 0; 0x62] /\
  length [0; 0x61; 0; 0x62] <> (2 * length [0x61; 0; 0x62])%nat /\
  bytesToString [0; 0x61; 0; 0x62] = [0x61; 0x62].
Proof.
  apply (stringToBytes_drops_NUL 2). lia.
Defined.

(** More fuel never changes what the counting loop returns, so whatever
    [lengthOf] returns is the number of logical characters. *)
Lemma findCharIndex_loop_mono : forall fuel fuel' scanner str b c v,
  (fuel <= fuel')%nat ->
  findCharIndex_loop fuel scanner str b c = Some v ->
  findCharIndex_loop fuel' scanner str b c = Some v.
Proof.
  induction fuel as [|fuel IH]; intros fuel' scanner str b c v Hle H;
    [discriminate|].
  destruct fuel' as [|fuel']; [lia|].
  cbn [findCharIndex_loop] in *.
  destruct (exec scanner str) as [[m|] scanner']; [|exact H].
  destruct (Z.of_nat (lastIndex scanner') >? b); [exact H|].
  apply (IH fuel'); [lia|exact H].
Qed.

Lemma lengthOf_sound (cls : UtfClass) (fuel : nat) (str : string16) (l : Z) :
  Lawful cls ->
  @lengthOf cls fuel str = Some l -> l = logicalLength (multiUnit cls) str.
Proof.
  intros law H.
  pose proof (lengthOf_spec law (Nat.max fuel (S (length str))) str
                ltac:(lia)) as Hspec.
  unfold lengthOf, findCharIndex in *.
  destruct (Js.length str - 1 >=? Js.length str); [congruence|].
  destruct (negb (containsUnsafeUtfChars str)); [congruence|].
  destruct (findCharIndex_loop fuel createUtfSafeCharScanner str
              (Js.length str - 1) 0) as [v|] eqn:E; [|discriminate].
  rewrite (findCharIndex_loop_mono fuel (Nat.max fuel (S (length str)))
             _ _ _ _ v ltac:(lia) E) in Hspec.
  congruence.
Qed.

Lemma padEnd_loop_empty_pad (cls : UtfClass) (str : string16) (target : Z) :
  cls = UtfString \/ cls = UtfVisualString ->
  logicalLength (multiUnit cls) str < target ->
  forall n fuel, @padEnd_loop cls n fuel target [] 0 str = None.
Proof.
  intros Hcls Hshort. pose proof (shipped_lawful cls Hcls) as law.
  induction n as [|n IH]; intros fuel; [reflexivity|].
  cbn [padEnd_loop].
  assert (Hc : @charAt cls fuel [] 0 = Some [])
    by (destruct Hcls as [-> | ->]; reflexivity).
  assert (Hl : @lengthOf cls fuel [] = Some 0)
    by (destruct Hcls as [-> | ->]; reflexivity).
  rewrite Hc, Hl, app_nil_r. cbn [Z.add Z.geb Z.compare].
  destruct (@lengthOf cls fuel str) as [l|] eqn:E; [|reflexivity].
  apply (lengthOf_sound cls fuel str l law) in E. subst l.
  destruct (Z.ltb_spec (logicalLength (multiUnit cls) str) target); [|lia].
  apply IH.
Qed.

Lemma padStart_loop_empty_pad (cls : UtfClass) (str : string16) (target : Z) :
  cls = UtfString \/ cls = UtfVisualString ->
  logicalLength (multiUnit cls) str < target ->
  forall n fuel, @padStart_loop cls n fuel str target [] 0 [] = None.
Proof.
  intros Hcls Hshort. pose proof (shipped_lawful cls Hcls) as law.
  induction n as [|n IH]; intros fuel; [reflexivity|].
  cbn [padStart_loop].
  assert (Hc : @charAt cls fuel [] 0 = Some [])
    by (destruct Hcls as [-> | ->]; reflexivity).
  assert (Hl : @lengthOf cls fuel [] = Some 0)
    by (destruct Hcls as [-> | ->]; reflexivity).
  rewrite Hc, Hl. cbn [app Z.add Z.geb Z.compare].
  destruct (@lengthOf cls fuel str) as [l|] eqn:E; [|reflexivity].
  apply (lengthOf_sound cls fuel str l law) in E. subst l.
  destruct (Z.ltb_spec (logicalLength (multiUnit cls) str) target); [|lia].
  apply IH.
Qed.

(** C6 at the empty pad text: whenever the text is shorter than the
    target ([lengthOf] returns [l < targetLength]), [charAt] of the empty
    pad text is empty, no iteration of the [do ... while] loop makes the
    text longer, and no amount of fuel lets [padEnd] or [padStart]
    return; so it is for [padEnd("x", 3, "")]. *)
Theorem pad_with_empty_text_never_returns :
  forall (cls : UtfClass), cls = UtfString \/ cls = UtfVisualString ->
  forall (fuel0 fuel : nat) (str : string16) (l targetLength : Z),
    @lengthOf cls fuel0 str = Some l -> l < targetLength ->
    @padEnd cls fuel str targetLength (Some []) = None /\
    @padStart cls fuel str targetLength (Some []) = None.
Proof.
  intros cls Hcls fuel0 fuel str l targetLength Hl Hshort.
  pose proof (shipped_lawful cls Hcls) as law.
  apply (lengthOf_sound cls fuel0 str l law) in Hl. subst l.
  unfold padEnd, padStart.
  destruct (@lengthOf cls fuel str) as [l|] eqn:E; [|split; reflexivity].
  apply (lengthOf_sound cls fuel str l law) in E. subst l.
  destruct (Z.leb_spec targetLength (logicalLength (multiUnit cls) str));
    [lia|].
  split.
  - apply padEnd_loop_empty_pad; assumption.
  - apply padStart_loop_empty_pad; assumption.
Qed.

Lemma pad_with_empty_text_never_returns_witness :
  @padEnd UtfString 100 [0x78] 3 (Some []) = None /\
  @padStart UtfString 100 [0x78] 3 (Some []) = None.
Proof.
  apply (pad_with_empty_text_never_returns UtfString (or_introl eq_refl)
           2 100 [0x78] 1 3).
  - reflexivity.
  - lia.
Defined.

(** ** Bytes of the code units other than 0 *)

Lemma toInt32_small (z : Z) : - 2 ^ 31 <= z < 2 ^ 31 -> Js.toInt32 z = z.
Proof.
  intros H. unfold Js.toInt32. rewrite Z.mod_small by lia. lia.
Qed.

Lemma Js_and_byte (c : Z) : 0 <= c < 65536 -> Js.and c 0xff = c mod 256.
Proof.
  intros H. unfold Js.and. rewrite !toInt32_small by lia.
  change 255 with (Z.ones 8). rewrite Z.land_ones by lia. reflexivity.
Qed.

Lemma Js_shr_byte (c : Z) : 0 <= c < 65536 -> Js.shr c 8 = c / 256.
Proof.
  intros H. unfold Js.shr. rewrite toInt32_small by lia.
  change (8 mod 32) with 8. rewrite Z.shiftr_div_pow2 by lia. reflexivity.
Qed.

Lemma lor_low_bits (hi low n : Z) :
  0 <= n -> 0 <= low < 2 ^ n -> Z.lor (hi * 2 ^ n) low = hi * 2 ^ n + low.
Proof.
  intros Hn H.
  assert (E : Z.land (hi * 2 ^ n) low = 0).
  { apply Z.bits_inj'. intros k Hk. rewrite Z.land_spec, Z.bits_0.
    destruct (Z.lt_ge_cases k n).
    - rewrite Z.mul_pow2_bits_low by lia. reflexivity.
    - destruct (Z.eq_dec low 0) as [->|Hne].
      + rewrite Z.bits_0. apply andb_false_r.
      + rewrite (Z.bits_above_log2 low k); [apply andb_false_r|lia|].
        apply Z.log2_lt_pow2; [lia|].
        apply Z.lt_le_trans with (2 ^ n); [lia|].
        apply Z.pow_le_mono_r; lia. }
  rewrite <- Z.lxor_lor by exact E. symmetry. apply Z.add_nocarry_lxor.
  exact E.
Qed.

Lemma Js_or_shl_bytes (hi low : Z) :
  0 <= hi < 256 -> 0 <= low < 256 ->
  Js.fromCharCode (Js.or (Js.shl hi 8) low) = hi * 256 + low.
Proof.
  intros Hh Hl. unfold Js.fromCharCode, Js.toUint16, Js.or, Js.shl.
  change (8 mod 32) with 8.
  rewrite (toInt32_small hi) by lia.
  rewrite Z.shiftl_mul_pow2 by lia.
  rewrite (toInt32_small (hi * 2 ^ 8)) by lia.
  rewrite (toInt32_small (hi * 2 ^ 8)) by lia.
  rewrite (toInt32_small low) by lia.
  rewrite lor_low_bits by lia.
  apply Z.mod_small. lia.
Qed.


Lemma stringToBytes_while_unit (fuel : nat) (c : Z) :
  (2 < fuel)%nat -> 0 < c < 65536 ->
  stringToBytes_while fuel c [] =
  Some (if c <? 256 then [c] else [c mod 256; c / 256]).
Proof.
  intros Hf Hc. destruct fuel as [|[|[|fuel]]]; try lia.
  cbn [stringToBytes_while app].
  destruct (Z.gtb_spec c 0); [|lia].
  rewrite Js_shr_byte, Js_and_byte by lia.
  assert (Hd : 0 <= c / 256 < 256 /\ 0 <= c mod 256 < 256 /\
               c = 256 * (c / 256) + c mod 256)
    by (Z.div_mod_to_equations; lia).
  destruct (Z.ltb_spec c 256).
  - replace (c / 256) with 0 by lia. cbn [Z.gtb Z.compare].
    replace (c mod 256) with c by lia. reflexivity.
  - destruct (Z.gtb_spec (c / 256) 0); [|lia].
    rewrite Js_shr_byte, Js_and_byte by lia.
    replace (c / 256 / 256) with 0 by (Z.div_mod_to_equations; lia).
    replace ((c / 256) mod 256) with (c / 256) by (Z.div_mod_to_equations; lia).
    reflexivity.
Qed.

Lemma stringToBytes_loop_units (fuel : nat) : forall (rest : string16) result,
  (2 < fuel)%nat -> Forall (fun c => 0 < c < 65536) rest ->
  stringToBytes_loop fuel rest result = Some (result ++ flat_map bytesOf rest).
Proof.
  induction rest as [|c rest IH]; intros result Hf Hall.
  - simpl. rewrite app_nil_r. reflexivity.
  - inversion Hall as [|? ? Hc Hrest]; subst.
    cbn [stringToBytes_loop]. rewrite stringToBytes_while_unit by assumption.
    assert (Hd : 0 <= c / 256 < 256 /\ 0 <= c mod 256 < 256 /\
                 c = 256 * (c / 256) + c mod 256)
      by (Z.div_mod_to_equations; lia).
    destruct (Z.ltb_spec c 256); cbn [length Nat.eqb app rev];
      rewrite IH by assumption; cbn [flat_map]; rewrite <- app_assoc;
      unfold bytesOf; cbn [app].
    + replace (c / 256) with 0 by lia. replace (c mod 256) with c by lia.
      reflexivity.
    + reflexivity.
Qed.

Lemma bytesToString_bytesOf : forall (str : string16),
  Forall (fun c => 0 <= c < 65536) str ->
  bytesToString (flat_map bytesOf str) = str.
Proof.
  induction 1 as [|c str Hc Hstr IH]; [reflexivity|].
  cbn [flat_map bytesOf app bytesToString].
  assert (Hd : 0 <= c / 256 < 256 /\ 0 <= c mod 256 < 256 /\
               c = 256 * (c / 256) + c mod 256)
    by (Z.div_mod_to_equations; lia).
  rewrite Js_or_shl_bytes, IH by lia. f_equal. lia.
Qed.

(** X19: on a text without the code unit 0, [stringToBytes] gives two bytes
    per code unit, high byte first, and [bytesToString] gives the text
    back. *)
Theorem stringToBytes_roundtrip_without_NUL :
  forall (fuel : nat) (str : string16),
    (2 < fuel)%nat -> Forall (fun c => 0 < c < 65536) str ->
    stringToBytes fuel str = Some (flat_map bytesOf str) /\
    length (flat_map bytesOf str) = (2 * length str)%nat /\
    bytesToString (flat_map bytesOf str) = str.
Proof.
  intros fuel str Hf Hall. split; [|split].
  - unfold stringToBytes. rewrite stringToBytes_loop_units by assumption.
    reflexivity.
  - clear. induction str as [|c str IH]; [reflexivity|].
    cbn [flat_map bytesOf app length]. rewrite IH. lia.
  - apply bytesToString_bytesOf. eapply Forall_impl; [|exact Hall].
    simpl. intros. lia.
Qed.

Lemma stringToBytes_roundtrip_without_NUL_witness :
  stringToBytes 3 a_smile_b = Some (flat_map bytesOf a_smile_b) /\
  length (flat_map bytesOf a_smile_b) = (2 * length a_smile_b)%nat /\
  bytesToString (flat_map bytesOf a_smile_b) = a_smile_b.
Proof.
  apply (stringToBytes_roundtrip_without_NUL 3 a_smile_b).
  - lia.
  - unfold a_smile_b. repeat constructor.
Defined.

(** ** Padding with a non-empty pad text *)


Lemma padding_S (cs : list string16) (k : nat) :
  padding cs (S k) = padding cs k ++ padChar cs k.
Proof.
  unfold padding. rewrite seq_S, map_app, concat_app. simpl.
  rewrite app_nil_r. reflexivity.
Qed.

Lemma padding_length_mono (cs : list string16) (j : nat) : forall K,
  (j <= K)%nat -> (length (padding cs j) <= length (padding cs K))%nat.
Proof.
  induction K as [|K IH]; intros Hj.
  - replace j with 0%nat by lia. lia.
  - destruct (Nat.eq_dec j (S K)) as [->|Hne]; [lia|].
    rewrite padding_S, length_app. specialize (IH ltac:(lia)). lia.
Qed.

Lemma next_pad_index (k m : nat) :
  (0 < m)%nat ->
  (if Z.of_nat (k mod m) + 1 >=? Z.of_nat m then 0
   else Z.of_nat (k mod m) + 1) = Z.of_nat (S k mod m).
Proof.
  intros Hm.
  pose proof (Nat.mod_upper_bound k m ltac:(lia)) as Hr.
  pose proof (Nat.div_mod_eq k m) as Hk.
  destruct (Z.geb_spec (Z.of_nat (k mod m) + 1) (Z.of_nat m)).
  - assert (E : 0%nat = (S k mod m)%nat).
    { apply (Nat.mod_unique (S k) m (S (k / m))); [lia|]. nia. }
    rewrite <- E. reflexivity.
  - assert (E : S (k mod m) = (S k mod m)%nat).
    { apply (Nat.mod_unique (S k) m (k / m)); [lia|]. nia. }
    rewrite <- E. lia.
Qed.

Section Padding.

Context {cls : UtfClass}.
Hypothesis law : Lawful cls.

Local Abbreviation u := (multiUnit cls) (only parsing).

Lemma length_le_4_logicalLength (s : string16) :
  Js.length s <= 4 * logicalLength u s.
Proof.
  unfold Js.length, logicalLength.
  rewrite <- (concat_chars u (multi_ok law) s) at 1.
  pose proof (chars_short u (multi_ok law) s) as H.
  induction H as [|c cs Hc Hcs IH]; [simpl; lia|].
  cbn [concat length]. rewrite length_app. lia.
Qed.

Variable padString : string16.
Hypothesis pad_nonempty : padString <> [].

Lemma pad_chars_nonempty : (0 < length (chars u padString))%nat.
Proof.
  rewrite (chars_cons u (multi_ok law)) by exact pad_nonempty. simpl. lia.
Qed.

Lemma padChar_nonempty (j : nat) :
  (0 < length (padChar (chars u padString) j))%nat.
Proof.
  pose proof pad_chars_nonempty as Hm.
  pose proof (chars_nonempty u (multi_ok law) padString) as Hne.
  rewrite Forall_forall in Hne.
  assert (Hin : In (padChar (chars u padString) j) (chars u padString)).
  { apply nth_In. apply Nat.mod_upper_bound. lia. }
  specialize (Hne _ Hin).
  destruct (padChar (chars u padString) j); [congruence|simpl; lia].
Qed.

Lemma padChar_short (j : nat) :
  (length (padChar (chars u padString) j) <= length padString)%nat.
Proof.
  pose proof pad_chars_nonempty as Hm.
  assert (Hin : In (padChar (chars u padString) j) (chars u padString)).
  { apply nth_In. apply Nat.mod_upper_bound. lia. }
  rewrite <- (concat_chars u (multi_ok law) padString) at 2.
  clear Hm. revert Hin. generalize (padChar (chars u padString) j).
  induction (chars u padString) as [|c cs IH]; intros x Hin; [destruct Hin|].
  cbn [concat]. rewrite length_app. destruct Hin as [-> | Hin]; [lia|].
  specialize (IH x Hin). lia.
Qed.

(** One pad character, as [charAt] reads it in the loop. *)
Lemma charAt_padChar (fuel k : nat) :
  (length padString < fuel)%nat ->
  charAt fuel padString (Z.of_nat (k mod length (chars u padString))) =
  Some (padChar (chars u padString) k).
Proof.
  intros Hf. rewrite (charAt_spec law) by exact Hf.
  pose proof pad_chars_nonempty as Hm.
  pose proof (Nat.mod_upper_bound k (length (chars u padString)) ltac:(lia)).
  unfold logicalLength.
  destruct (Z.leb_spec 0 (Z.of_nat (k mod length (chars u padString)))); [|lia].
  destruct (Z.ltb_spec (Z.of_nat (k mod length (chars u padString)))
              (Z.of_nat (length (chars u padString)))); [|lia].
  cbn [andb]. rewrite Nat2Z.id. reflexivity.
Qed.

Variable str : string16.
Variable targetLength : Z.

(** The loop of [padEnd] after [k] pad characters: it stops at the first
    [K > k] for which the padded text is long enough. *)
Lemma padEnd_loop_runs : forall (d k : nat),
  4 * targetLength <=
    Z.of_nat d + Js.length (str ++ padding (chars u padString) k) ->
  exists K, (k < K)%nat /\
    targetLength <= logicalLength u (str ++ padding (chars u padString) K) /\
    (forall k', (k < k' < K)%nat ->
       logicalLength u (str ++ padding (chars u padString) k')
       < targetLength) /\
    forall n fuel,
      (K - k <= n)%nat ->
      (length (str ++ padding (chars u padString) K) + length padString
       < fuel)%nat ->
      padEnd_loop n fuel targetLength padString
        (Z.of_nat (k mod length (chars u padString)))
        (str ++ padding (chars u padString) k) =
      Some (str ++ padding (chars u padString) K).
Proof.
  pose proof pad_chars_nonempty as Hm.
  induction d as [|d IH]; intros k Hd.
  - exists (S k).
    pose proof (length_le_4_logicalLength
                  (str ++ padding (chars u padString) (S k))) as H4.
    pose proof (padChar_nonempty k) as Hc.
    assert (Hlen : Js.length (str ++ padding (chars u padString) k) <
                   Js.length (str ++ padding (chars u padString) (S k))).
    { rewrite padding_S. unfold Js.length. rewrite !length_app. lia. }
    split; [lia|]. split; [lia|]. split; [intros; lia|].
    intros n fuel Hn Hf. destruct n as [|n]; [lia|].
    cbn [padEnd_loop]. rewrite charAt_padChar by lia.
    rewrite <- app_assoc, <- padding_S.
    rewrite !(lengthOf_spec law) by lia.
    destruct (Z.ltb_spec
                (logicalLength u (str ++ padding (chars u padString) (S k)))
                targetLength); [lia|reflexivity].
  - pose proof (padChar_nonempty k) as Hc.
    assert (Hlen : Js.length (str ++ padding (chars u padString) k) <
                   Js.length (str ++ padding (chars u padString) (S k))).
    { rewrite padding_S. unfold Js.length. rewrite !length_app. lia. }
    destruct (Z.lt_ge_cases
                (logicalLength u (str ++ padding (chars u padString) (S k)))
                targetLength) as [Hshort|Hlong].
    + destruct (IH (S k) ltac:(lia)) as (K & HK & Hlong & Hmin & Hrun).
      exists K. split; [lia|]. split; [exact Hlong|]. split.
      * intros k' Hk'. destruct (Nat.eq_dec k' (S k)) as [->|Hne];
          [exact Hshort|apply Hmin; lia].
      * intros n fuel Hn Hf. destruct n as [|n]; [lia|].
        assert (Hmono : (length (str ++ padding (chars u padString) (S k)) <=
                         length (str ++ padding (chars u padString) K))%nat).
        { rewrite !length_app. apply Nat.add_le_mono_l.
          apply padding_length_mono. lia. }
        cbn [padEnd_loop]. rewrite charAt_padChar by lia.
        rewrite <- app_assoc, <- padding_S.
        rewrite !(lengthOf_spec law) by lia.
        destruct (Z.ltb_spec
                    (logicalLength u (str ++ padding (chars u padString) (S k)))
                    targetLength); [|lia].
        fold (logicalLength u padString). unfold logicalLength at 1.
        rewrite next_pad_index by lia.
        apply Hrun; lia.
    + exists (S k). split; [lia|]. split; [lia|]. split; [intros; lia|].
      intros n fuel Hn Hf. destruct n as [|n]; [lia|].
      cbn [padEnd_loop]. rewrite charAt_padChar by lia.
      rewrite <- app_assoc, <- padding_S.
      rewrite !(lengthOf_spec law) by lia.
      destruct (Z.ltb_spec
                  (logicalLength u (str ++ padding (chars u padString) (S k)))
                  targetLength); [lia|reflexivity].
Qed.

(** The loop of [padStart] after [k] pad characters: it stops at the first
    [K > k] for which the padded text is long enough. *)
Lemma padStart_loop_runs : forall (d k : nat),
  4 * targetLength <=
    Z.of_nat d + Js.length (padding (chars u padString) k ++ str) ->
  exists K, (k < K)%nat /\
    targetLength <= logicalLength u (padding (chars u padString) K ++ str) /\
    (forall k', (k < k' < K)%nat ->
       logicalLength u (padding (chars u padString) k' ++ str)
       < targetLength) /\
    forall n fuel,
      (K - k <= n)%nat ->
      (length (padding (chars u padString) K ++ str) + length padString
       < fuel)%nat ->
      padStart_loop n fuel str targetLength padString
        (Z.of_nat (k mod length (chars u padString)))
        (padding (chars u padString) k) =
      Some (padding (chars u padString) K ++ str).
Proof.
  pose proof pad_chars_nonempty as Hm.
  induction d as [|d IH]; intros k Hd.
  - exists (S k).
    pose proof (length_le_4_logicalLength
                  (padding (chars u padString) (S k) ++ str)) as H4.
    pose proof (padChar_nonempty k) as Hc.
    assert (Hlen : Js.length (padding (chars u padString) k ++ str) <
                   Js.length (padding (chars u padString) (S k) ++ str)).
    { rewrite padding_S. unfold Js.length. rewrite !length_app. lia. }
    split; [lia|]. split; [lia|]. split; [intros; lia|].
    intros n fuel Hn Hf. destruct n as [|n]; [lia|].
    cbn [padStart_loop]. rewrite charAt_padChar by lia.
    rewrite <- padding_S.
    rewrite !(lengthOf_spec law) by lia.
    destruct (Z.ltb_spec
                (logicalLength u (padding (chars u padString) (S k) ++ str))
                targetLength); [lia|reflexivity].
  - pose proof (padChar_nonempty k) as Hc.
    assert (Hlen : Js.length (padding (chars u padString) k ++ str) <
                   Js.length (padding (chars u padString) (S k) ++ str)).
    { rewrite padding_S. unfold Js.length. rewrite !length_app. lia. }
    destruct (Z.lt_ge_cases
                (logicalLength u (padding (chars u padString) (S k) ++ str))
                targetLength) as [Hshort|Hlong].
    + destruct (IH (S k) ltac:(lia)) as (K & HK & Hlong & Hmin & Hrun).
      exists K. split; [lia|]. split; [exact Hlong|]. split.
      * intros k' Hk'. destruct (Nat.eq_dec k' (S k)) as [->|Hne];
          [exact Hshort|apply Hmin; lia].
      * intros n fuel Hn Hf. destruct n as [|n]; [lia|].
        assert (Hmono : (length (padding (chars u padString) (S k) ++ str) <=
                         length (padding (chars u padString) K ++ str))%nat).
        { rewrite !length_app. apply Nat.add_le_mono_r.
          apply padding_length_mono. lia. }
        cbn [padStart_loop]. rewrite charAt_padChar by lia.
        rewrite <- padding_S.
        rewrite !(lengthOf_spec law) by lia.
        destruct (Z.ltb_spec
                    (logicalLength u (padding (chars u padString) (S k) ++ str))
                    targetLength); [|lia].
        fold (logicalLength u padString). unfold logicalLength at 1.
        rewrite next_pad_index by lia.
        apply Hrun; lia.
    + exists (S k). split; [lia|]. split; [lia|]. split; [intros; lia|].
      intros n fuel Hn Hf. destruct n as [|n]; [lia|].
      cbn [padStart_loop]. rewrite charAt_padChar by lia.
      rewrite <- padding_S.
      rewrite !(lengthOf_spec law) by lia.
      destruct (Z.ltb_spec
                  (logicalLength u (padding (chars u padString) (S k) ++ str))
                  targetLength); [lia|reflexivity].
Qed.

End Padding.

(** X25: with a non-empty pad text [padEnd] returns: the text itself when it
    is long enough, and otherwise the text followed by the first [K] pad
    characters of the cycle, for the least [K >= 1] that makes it long
    enough. *)
Theorem padEnd_returns_with_nonempty_pad :
  forall (cls : UtfClass), cls = UtfString \/ cls = UtfVisualString ->
  forall (str : string16) (targetLength : Z) (padString : option string16),
    let pad := match padString with Some p => p | None => [0x20] end in
    let cs := chars (multiUnit cls) pad in
    pad <> [] ->
    exists (K fuel0 : nat),
      (targetLength <= logicalLength (multiUnit cls) str -> K = 0%nat) /\
      (logicalLength (multiUnit cls) str < targetLength -> (1 <= K)%nat) /\
      (forall k, (1 <= k < K)%nat ->
         logicalLength (multiUnit cls) (str ++ padding cs k) < targetLength) /\
      targetLength <= logicalLength (multiUnit cls) (str ++ padding cs K) /\
      forall fuel, (fuel0 <= fuel)%nat ->
        @padEnd cls fuel str targetLength padString =
          Some (str ++ padding cs K) /\
        @lengthOf cls fuel (str ++ padding cs K) =
          Some (logicalLength (multiUnit cls) (str ++ padding cs K)).
Proof.
  intros cls Hcls str targetLength padString pad cs Hpad.
  pose proof (shipped_lawful cls Hcls) as law.
  destruct (Z.le_gt_cases targetLength (logicalLength (multiUnit cls) str))
    as [Hle|Hgt].
  - exists 0%nat, (S (length str)). unfold padding. cbn [seq map concat].
    rewrite app_nil_r.
    split; [reflexivity|]. split; [lia|]. split; [intros; lia|].
    split; [exact Hle|]. intros fuel Hf.
    split; [|apply (lengthOf_spec law); lia].
    unfold padEnd. rewrite (lengthOf_spec law) by lia.
    destruct (Z.leb_spec targetLength (logicalLength (multiUnit cls) str));
      [reflexivity|lia].
  - destruct (padEnd_loop_runs law pad Hpad str targetLength
                (Z.to_nat (4 * targetLength)) 0)
      as (K & HK & Hlong & Hmin & Hrun).
    { unfold Js.length. lia. }
    fold cs in Hlong, Hmin, Hrun.
    exists K, (S (K + length (str ++ padding cs K) + length pad)).
    split; [lia|]. split; [lia|]. split; [intros; apply Hmin; lia|].
    split; [exact Hlong|]. intros fuel Hf.
    split; [|apply (lengthOf_spec law); lia].
    unfold padEnd. fold pad.
    assert (Hs : (length str <= length (str ++ padding cs K))%nat)
      by (rewrite length_app; lia).
    rewrite (lengthOf_spec law) by lia.
    destruct (Z.leb_spec targetLength (logicalLength (multiUnit cls) str));
      [lia|].
    specialize (Hrun fuel fuel ltac:(lia) ltac:(lia)).
    unfold padding in Hrun at 1. cbn [seq map concat] in Hrun.
    rewrite app_nil_r, Nat.Div0.mod_0_l in Hrun. exact Hrun.
Qed.

Lemma padEnd_returns_with_nonempty_pad_witness :
  let pad := [0x61; 0x62] in
  let cs := chars (multiUnit UtfString) pad in
  exists (K fuel0 : nat),
    (3 <= logicalLength (multiUnit UtfString) [0x78] -> K = 0%nat) /\
    (logicalLength (multiUnit UtfString) [0x78] < 3 -> (1 <= K)%nat) /\
    (forall k, (1 <= k < K)%nat ->
       logicalLength (multiUnit UtfString) ([0x78] ++ padding cs k) < 3) /\
    3 <= logicalLength (multiUnit UtfString) ([0x78] ++ padding cs K) /\
    forall fuel, (fuel0 <= fuel)%nat ->
      @padEnd UtfString fuel [0x78] 3 (Some [0x61; 0x62]) =
        Some ([0x78] ++ padding cs K) /\
      @lengthOf UtfString fuel ([0x78] ++ padding cs K) =
        Some (logicalLength (multiUnit UtfString) ([0x78] ++ padding cs K)).
Proof.
  intros pad cs.
  apply (padEnd_returns_with_nonempty_pad UtfString (or_introl eq_refl)
           [0x78] 3 (Some [0x61; 0x62])).
  discriminate.
Defined.

(** X26: with a non-empty pad text [padStart] returns: the text itself when
    it is long enough, and otherwise the first [K] pad characters of the
    cycle followed by the text, for the least [K >= 1] that makes it long
    enough. *)
Theorem padStart_returns_with_nonempty_pad :
  forall (cls : UtfClass), cls = UtfString \/ cls = UtfVisualString ->
  forall (str : string16) (targetLength : Z) (padString : option string16),
    let pad := match padString with Some p => p | None => [0x20] end in
    let cs := chars (multiUnit cls) pad in
    pad <> [] ->
    exists (K fuel0 : nat),
      (targetLength <= logicalLength (multiUnit cls) str -> K = 0%nat) /\
      (logicalLength (multiUnit cls) str < targetLength -> (1 <= K)%nat) /\
      (forall k, (1 <= k < K)%nat ->
         logicalLength (multiUnit cls) (padding cs k ++ str) < targetLength) /\
      targetLength <= logicalLength (multiUnit cls) (padding cs K ++ str) /\
      forall fuel, (fuel0 <= fuel)%nat ->
        @padStart cls fuel str targetLength padString =
          Some (padding cs K ++ str) /\
        @lengthOf cls fuel (padding cs K ++ str) =
          Some (logicalLength (multiUnit cls) (padding cs K ++ str)).
Proof.
  intros cls Hcls str targetLength padString pad cs Hpad.
  pose proof (shipped_lawful cls Hcls) as law.
  destruct (Z.le_gt_cases targetLength (logicalLength (multiUnit cls) str))
    as [Hle|Hgt].
  - exists 0%nat, (S (length str)). unfold padding. cbn [seq map concat app].
    split; [reflexivity|]. split; [lia|]. split; [intros; lia|].
    split; [exact Hle|]. intros fuel Hf.
    split; [|apply (lengthOf_spec law); lia].
    unfold padStart. rewrite (lengthOf_spec law) by lia.
    destruct (Z.leb_spec targetLength (logicalLength (multiUnit cls) str));
      [reflexivity|lia].
  - destruct (padStart_loop_runs law pad Hpad str targetLength
                (Z.to_nat (4 * targetLength)) 0)
      as (K & HK & Hlong & Hmin & Hrun).
    { unfold Js.length. cbn [padding seq map concat app]. lia. }
    fold cs in Hlong, Hmin, Hrun.
    exists K, (S (K + length (padding cs K ++ str) + length pad)).
    split; [lia|]. split; [lia|]. split; [intros; apply Hmin; lia|].
    split; [exact Hlong|]. intros fuel Hf.
    split; [|apply (lengthOf_spec law); lia].
    unfold padStart. fold pad.
    assert (Hs : (length str <= length (padding cs K ++ str))%nat)
      by (rewrite length_app; lia).
    rewrite (lengthOf_spec law) by lia.
    destruct (Z.leb_spec targetLength (logicalLength (multiUnit cls) str));
      [lia|].
    specialize (Hrun fuel fuel ltac:(lia) ltac:(lia)).
    unfold padding in Hrun at 1. cbn [seq map concat] in Hrun.
    rewrite Nat.Div0.mod_0_l in Hrun. exact Hrun.
Qed.

Lemma padStart_returns_with_nonempty_pad_witness :
  let pad := [0x61; 0x62] in
  let cs := chars (multiUnit UtfString) pad in
  exists (K fuel0 : nat),
    (3 <= logicalLength (multiUnit UtfString) [0x78] -> K = 0%nat) /\
    (logicalLength (multiUnit UtfString) [0x78] < 3 -> (1 <= K)%nat) /\
    (forall k, (1 <= k < K)%nat ->
       logicalLength (multiUnit UtfString) (padding cs k ++ [0x78]) < 3) /\
    3 <= logicalLength (multiUnit UtfString) (padding cs K ++ [0x78]) /\
    forall fuel, (fuel0 <= fuel)%nat ->
      @padStart UtfString fuel [0x78] 3 (Some [0x61; 0x62]) =
        Some (padding cs K ++ [0x78]) /\
      @lengthOf UtfString fuel (padding cs K ++ [0x78]) =
        Some (logicalLength (multiUnit UtfString) (padding cs K ++ [0x78])).
Proof.
  intros pad cs.
  apply (padStart_returns_with_nonempty_pad UtfString (or_introl eq_refl)
           [0x78] 3 (Some [0x61; 0x62])).
  discriminate.
Defined.

(** ** Code points of well-paired texts *)


Lemma surrogatePairs_multi :
  Forall (fun a => (2 <= length a <= 4)%nat) surrogatePairs.
Proof. apply (multi_ok UtfString_lawful). Qed.

Lemma chars_wellPaired (s : string16) :
  WellPaired s -> Forall goodChar (chars surrogatePairs s).
Proof.
  induction 1 as [|c s Hc Hh Hl Hs IH|h l s Hh Hl Hs IH].
  - constructor.
  - rewrite (chars_cons _ surrogatePairs_multi) by discriminate.
    assert (E : spanAt surrogatePairs (c :: s) = 1%nat).
    { unfold isHigh in Hh. unfold spanAt, surrogatePairs.
      cbn [match_alt match_seq in_class]. destruct s; split_comparisons;
        try reflexivity; lia. }
    rewrite E. cbn [firstn skipn]. constructor; [|exact IH].
    left. exists c. auto.
  - rewrite (chars_cons _ surrogatePairs_multi) by discriminate.
    assert (E : spanAt surrogatePairs (h :: l :: s) = 2%nat).
    { unfold isHigh in Hh. unfold isLow in Hl. unfold spanAt, surrogatePairs.
      cbn [match_alt match_seq in_class]. split_comparisons;
        try reflexivity; lia. }
    rewrite E. cbn [firstn skipn]. constructor; [|exact IH].
    right. exists h, l. auto.
Qed.

Lemma stringFromCharCode_decode (c : string16) :
  goodChar c -> stringFromCharCode (decode c) = c.
Proof.
  unfold isHigh, isLow.
  intros [(x & -> & Hx & _) | (h & l & -> & Hh & Hl)];
    unfold stringFromCharCode, decode.
  - destruct (Z.gtb_spec x 65535); [lia|].
    unfold Js.fromCharCode, Js.toUint16. rewrite Z.mod_small by lia.
    reflexivity.
  - unfold isHigh in Hh. unfold isLow in Hl.
    destruct (Z.gtb_spec ((h - 55296) * 1024 + (l - 56320) + 65536) 65535);
      [|lia].
    unfold Js.shr, Js.and, Js.fromCharCode, Js.toUint16.
    change (10 mod 32) with 10.
    rewrite !toInt32_small by lia.
    rewrite Z.shiftr_div_pow2 by lia.
    change 1023 with (Z.ones 10). rewrite Z.land_ones by lia.
    replace ((h - 55296) * 1024 + (l - 56320) + 65536 - 65536)
      with ((l - 56320) + (h - 55296) * 2 ^ 10) by lia.
    rewrite Z.div_add, Z.mod_add by lia.
    rewrite (Z.div_small (l - 56320)), (Z.mod_small (l - 56320)) by lia.
    rewrite !Z.mod_small by lia.
    f_equal; [lia|f_equal; lia].
Qed.

Lemma codePointsToString_decode (cs : list string16) :
  Forall goodChar cs -> codePointsToString (map decode cs) = concat cs.
Proof.
  unfold codePointsToString.
  induction 1 as [|c cs Hc Hcs IH]; [reflexivity|].
  cbn [map concat]. rewrite stringFromCharCode_decode by exact Hc.
  rewrite IH. reflexivity.
Qed.

(** [charCodeAt] at a logical character of a well-paired text. *)
Lemma charCodeAt_decode (fuel : nat) (str : string16) (i : Z) :
  (length str < fuel)%nat ->
  Forall goodChar (chars surrogatePairs str) ->
  0 <= i < logicalLength surrogatePairs str ->
  @charCodeAt UtfString fuel str i =
  Some (Num (decode (nth (Z.to_nat i) (chars surrogatePairs str) []))).
Proof.
  intros Hf Hgood Hi. unfold charCodeAt.
  destruct (findSurrogateByteIndex_spec fuel str i Hf ltac:(lia))
    as (res & -> & Hlo & _).
  destruct (Hlo ltac:(lia)) as [Hres Hin]. clear Hlo.
  destruct (Z.ltb_spec res 0); [lia|].
  pose proof (chars_at_off surrogatePairs surrogatePairs_multi str
                (Z.to_nat i) 0 ltac:(lia)) as Hat.
  change (ntok surrogatePairs str 0)
    with (logicalLength surrogatePairs str) in Hat.
  specialize (Hat ltac:(lia)). cbn [Nat.add] in Hat.
  change (skipn 0 str) with str in Hat.
  change (off surrogatePairs str 0 (Z.to_nat i))
    with (offsetOf surrogatePairs str (Z.to_nat i)) in Hat.
  rewrite <- Hres in Hat. unfold Js.length in Hin.
  rewrite (chars_suf _ surrogatePairs_multi str (Z.to_nat res)) in Hat by lia.
  pose proof (nth_skipn_head (A := string16) [] _ _ _ _ (eq_sym Hat)) as Hnth.
  assert (Hg : goodChar (nth (Z.to_nat i) (chars surrogatePairs str) [])).
  { rewrite Forall_forall in Hgood. apply Hgood. apply nth_In.
    unfold logicalLength in Hi. lia. }
  rewrite Hnth in *.
  assert (Hcode : forall k, (k < length (skipn (Z.to_nat res) str))%nat ->
            Js.charCodeAt str (res + Z.of_nat k) =
            Num (nth k (skipn (Z.to_nat res) str) 0)).
  { intros k Hk. rewrite length_skipn in Hk. unfold Js.charCodeAt, Js.length.
    destruct (Z.ltb_spec (res + Z.of_nat k) 0); [lia|].
    destruct (Z.geb_spec (res + Z.of_nat k) (Z.of_nat (length str))); [lia|].
    cbn [orb]. rewrite nth_skipn. do 2 f_equal. lia. }
  assert (Hlen : (0 < length (skipn (Z.to_nat res) str))%nat)
    by (rewrite length_skipn; lia).
  unfold goodChar, isHigh, isLow in Hg.
  destruct Hg as [(x & Hx & Hr & Hnh & _) | (h & l & Hx & Hh & Hl)].
  - destruct (skipn (Z.to_nat res) str) as [|y t] eqn:Es; [simpl in Hlen; lia|].
    pose proof (Hcode 0%nat ltac:(simpl; lia)) as H0.
    rewrite Z.add_0_r in H0. rewrite H0. cbn [nth].
    rewrite Hx. cbn [decode].
    assert (y = x).
    { destruct (spanAt surrogatePairs (y :: t)); [discriminate|].
      cbn [firstn] in Hx. congruence. }
    subst y.
    destruct (Z.leb_spec 55296 x); destruct (Z.leb_spec x 56319);
      cbn [andb]; try reflexivity; lia.
  - destruct (skipn (Z.to_nat res) str) as [|y [|z t]] eqn:Es.
    + simpl in Hlen. lia.
    + destruct (spanAt surrogatePairs [y]) as [|[|?]]; discriminate.
    + pose proof (Hcode 0%nat ltac:(simpl; lia)) as H0.
      pose proof (Hcode 1%nat ltac:(simpl; lia)) as H1.
      rewrite Z.add_0_r in H0. rewrite H0. cbn [nth].
      change (Z.of_nat 1) with 1 in H1.
      assert (y = h /\ z = l) as [-> ->].
      { destruct (spanAt surrogatePairs (y :: z :: t)) as [|[|?]];
          cbn [firstn] in Hx; try discriminate.
        injection Hx as -> ->. split; reflexivity. }
      destruct (Z.leb_spec 55296 h); destruct (Z.leb_spec h 56319);
        cbn [andb]; try lia.
      rewrite H1. cbn [nth]. rewrite Hx. reflexivity.
Qed.

Lemma skipn_nth_cons {A : Type} (d : A) : forall (i : nat) (l : list A),
  (i < length l)%nat -> skipn i l = nth i l d :: skipn (S i) l.
Proof.
  induction i as [|i IH]; intros l Hi; destruct l as [|x l];
    simpl in Hi; try lia; [reflexivity|].
  cbn [skipn nth]. rewrite (IH l) by lia. reflexivity.
Qed.

Lemma decode_nonzero (str : string16) :
  Forall (fun c => c <> 0) str ->
  Forall goodChar (chars surrogatePairs str) ->
  Forall (fun c => decode c <> 0) (chars surrogatePairs str).
Proof.
  intros Hnz Hgood.
  rewrite <- (concat_chars _ surrogatePairs_multi str) in Hnz.
  induction Hgood as [|c cs Hc Hcs IH]; [constructor|].
  cbn [concat] in Hnz. apply Forall_app in Hnz. destruct Hnz as [Hc0 Hcs0].
  constructor; [|apply IH; exact Hcs0].
  unfold goodChar, isHigh, isLow in Hc.
  destruct Hc as [(x & -> & _) | (h & l & -> & Hh & Hl)]; cbn [decode].
  - inversion Hc0; assumption.
  - lia.
Qed.

(** The loop of [stringToCodePoints] from the [i]-th logical character. *)
Lemma stringToCodePoints_loop_spec (fuel : nat) (str : string16) :
  (length str < fuel)%nat ->
  Forall goodChar (chars surrogatePairs str) ->
  Forall (fun c => decode c <> 0) (chars surrogatePairs str) ->
  forall (n : nat) (i : Z),
    0 <= i <= logicalLength surrogatePairs str ->
    Z.of_nat n + i = Js.length str ->
    @stringToCodePoints_loop UtfString fuel n str i =
    Some (map decode (skipn (Z.to_nat i) (chars surrogatePairs str))).
Proof.
  intros Hf Hgood Hnz.
  pose proof (logicalLength_le UtfString_lawful str) as Hle.
  change (multiUnit UtfString) with surrogatePairs in Hle.
  induction n as [|n IH]; intros i Hi Hn.
  - cbn [stringToCodePoints_loop]. rewrite skipn_all2; [reflexivity|].
    unfold logicalLength in *. lia.
  - cbn [stringToCodePoints_loop].
    destruct (Z.eq_dec i (logicalLength surrogatePairs str)) as [Heq|Hne].
    + rewrite charCodeAt_past_end by (try exact Hf; lia).
      rewrite skipn_all2; [reflexivity|]. unfold logicalLength in *. lia.
    + rewrite charCodeAt_decode by (try assumption; lia).
      rewrite (skipn_nth_cons (A := string16) [] (Z.to_nat i))
        by (unfold logicalLength in *; lia).
      cbn [map].
      assert (Hd : decode (nth (Z.to_nat i) (chars surrogatePairs str) [])
                   <> 0).
      { rewrite Forall_forall in Hnz. apply Hnz. apply nth_In.
        unfold logicalLength in *. lia. }
      rewrite IH by lia.
      replace (Z.to_nat (i + 1)) with (S (Z.to_nat i)) by lia.
      destruct (decode (nth (Z.to_nat i) (chars surrogatePairs str) []));
        [congruence|reflexivity|reflexivity].
Qed.

(** The visual class finds an unsafe character exactly where the default
    class does: a regional-indicator pair starts with a surrogate pair. *)
Lemma flags_need_pairs (t : string16) :
  match_alt surrogatePairs t = None ->
  match_alt regionalIndicatorPairs t = None.
Proof.
  destruct t as [|a [|b [|c [|d t]]]];
    unfold surrogatePairs, regionalIndicatorPairs;
    cbn [match_alt match_seq in_class];
    split_comparisons; intros; try reflexivity; try discriminate; lia.
Qed.

Lemma search_visual (s : string16) : forall pos,
  search (regionalIndicatorPairs ++ surrogatePairs) s pos = None <->
  search surrogatePairs s pos = None.
Proof.
  induction s as [|x s IH]; intros pos; cbn [search];
    rewrite match_alt_app.
  - destruct (match_alt surrogatePairs []) eqn:E.
    + destruct (match_alt regionalIndicatorPairs []); split; discriminate.
    + rewrite (flags_need_pairs _ E). tauto.
  - destruct (match_alt surrogatePairs (x :: s)) eqn:E.
    + destruct (match_alt regionalIndicatorPairs (x :: s)); split; discriminate.
    + rewrite (flags_need_pairs _ E). apply IH.
Qed.

Lemma containsUnsafeUtfChars_visual (str : string16) :
  @containsUnsafeUtfChars UtfVisualString str =
  @containsUnsafeUtfChars UtfString str.
Proof.
  unfold containsUnsafeUtfChars, test, exec.
  cbn [createUnsafeUtfCharFinder UtfVisualString UtfString lastIndex source
       createRegionalIndicatorAndSurrogatePairScanner
       createSurrogatePairScanner newRegExp skipn].
  replace (length str <? 0)%nat with false by (symmetry; apply Nat.ltb_ge; lia).
  pose proof (search_visual str 0) as H.
  destruct (search (regionalIndicatorPairs ++ surrogatePairs) str 0)
    as [[q n]|];
    destruct (search surrogatePairs str 0) as [[q' n']|];
    try reflexivity; destruct H as [H1 H2].
  - specialize (H2 eq_refl). discriminate.
  - specialize (H1 eq_refl). discriminate.
Qed.

(** [charCodeAt] walks surrogate pairs in both classes. *)
Lemma charCodeAt_visual (fuel : nat) (str : string16) (i : Z) :
  @charCodeAt UtfVisualString fuel str i = @charCodeAt UtfString fuel str i.
Proof.
  unfold charCodeAt, findSurrogateByteIndex, scan.
  rewrite containsUnsafeUtfChars_visual. reflexivity.
Qed.

Lemma stringToCodePoints_loop_visual (fuel : nat) (str : string16) :
  forall (n : nat) (i : Z),
    @stringToCodePoints_loop UtfVisualString fuel n str i =
    @stringToCodePoints_loop UtfString fuel n str i.
Proof.
  induction n as [|n IH]; intros i; [reflexivity|].
  cbn [stringToCodePoints_loop]. rewrite charCodeAt_visual.
  destruct (@charCodeAt UtfString fuel str i) as [[z|]|]; try reflexivity.
  destruct z; try reflexivity; rewrite IH; reflexivity.
Qed.

(** X21: on a well-paired text without the code unit 0, decoding to code
    points and encoding them again gives the text back, in both classes. *)
Theorem codePoints_roundtrip_without_NUL :
  forall (cls : UtfClass), cls = UtfString \/ cls = UtfVisualString ->
  forall (fuel : nat) (str : string16),
    (length str < fuel)%nat ->
    WellPaired str -> Forall (fun c => c <> 0) str ->
    exists cps,
      @stringToCodePoints cls fuel str = Some cps /\
      cps = map decode (chars surrogatePairs str) /\
      codePointsToString cps = str.
Proof.
  intros cls Hcls fuel str Hf Hwp Hnz.
  pose proof (chars_wellPaired str Hwp) as Hgood.
  pose proof (decode_nonzero str Hnz Hgood) as Hd.
  exists (map decode (chars surrogatePairs str)).
  split; [|split; [reflexivity|]].
  - assert (H : @stringToCodePoints UtfString fuel str =
                Some (map decode (chars surrogatePairs str))).
    { unfold stringToCodePoints.
      rewrite (stringToCodePoints_loop_spec fuel str Hf Hgood Hd);
        [reflexivity| |unfold Js.length; lia].
      unfold logicalLength. lia. }
    destruct Hcls as [-> | ->]; [exact H|].
    unfold stringToCodePoints. rewrite stringToCodePoints_loop_visual.
    exact H.
  - rewrite (codePointsToString_decode _ Hgood).
    apply (concat_chars _ surrogatePairs_multi).
Qed.

Lemma codePoints_roundtrip_without_NUL_witness :
  exists cps,
    @stringToCodePoints UtfVisualString 5 a_smile_b = Some cps /\
    cps = map decode (chars surrogatePairs a_smile_b) /\
    codePointsToString cps = a_smile_b.
Proof.
  apply (codePoints_roundtrip_without_NUL UtfVisualString
           (or_intror eq_refl) 5 a_smile_b).
  - simpl. lia.
  - unfold a_smile_b.
    apply wp_unit; [lia|unfold isHigh; lia|unfold isLow; lia|].
    apply wp_pair; [unfold isHigh; lia|unfold isLow; lia|].
    apply wp_unit; [lia|unfold isHigh; lia|unfold isLow; lia|].
    apply wp_nil.
  - unfold a_smile_b. repeat constructor; discriminate.
Defined.

(** ** [charCodeAt] past the last code point *)

(** C9, as the code has it: for every text and every index [i] at or past
    the number of code points of the text, which is [lengthOf] in
    [UtfString], [charCodeAt] returns [NaN] in both classes, and so does
    [codePointAt], which forwards to it. *)
Theorem charCodeAt_past_code_points_is_NaN :
  forall (cls : UtfClass), cls = UtfString \/ cls = UtfVisualString ->
  forall (fuel : nat) (str : string16) (n i : Z),
    (length str < fuel)%nat ->
    @lengthOf UtfString fuel str = Some n ->
    n <= i ->
    @charCodeAt cls fuel str i = Some NaN /\
    @codePointAt cls fuel str i = Some NaN.
Proof.
  intros cls Hcls fuel str n i Hf Hn Hi.
  rewrite (lengthOf_spec UtfString_lawful) in Hn by exact Hf.
  injection Hn as <-.
  change (multiUnit UtfString) with surrogatePairs in Hi.
  unfold codePointAt.
  destruct Hcls as [-> | ->]; rewrite ?charCodeAt_visual;
    split; apply charCodeAt_past_end; assumption.
Qed.

Lemma charCodeAt_past_code_points_is_NaN_witness :
  @charCodeAt UtfVisualString 6 flag_x 3 = Some NaN /\
  @codePointAt UtfVisualString 6 flag_x 3 = Some NaN.
Proof.
  apply (charCodeAt_past_code_points_is_NaN UtfVisualString
           (or_intror eq_refl) 6 flag_x 3 3).
  - simpl. lia.
  - reflexivity.
  - lia.
Defined.

(** C9 as stated fails in [UtfVisualString]: the flag followed by [x] has
    2 logical characters there, and index 2 is the code point of [x]. *)
Lemma charCodeAt_visual_past_length :
  ~ (forall (cls : UtfClass), cls = UtfString \/ cls = UtfVisualString ->
     forall (fuel : nat) (str : string16) (n i : Z),
       (length str < fuel)%nat ->
       @lengthOf cls fuel str = Some n ->
       n <= i ->
       @charCodeAt cls fuel str i = Some NaN).
Proof.
  intros H.
  specialize (H UtfVisualString (or_intror eq_refl) 6%nat flag_x 2 2).
  assert (E : @charCodeAt UtfVisualString 6 flag_x 2 = Some (Num 0x78))
    by reflexivity.
  rewrite E in H. specialize (H ltac:(simpl; lia) eq_refl ltac:(lia)).
  discriminate.
Qed.

(** * Further properties of the library *)

(** ** Segments of a text cut into characters *)

Lemma firstn_split {A : Type} (i j : nat) (l : list A) :
  (i <= j)%nat -> firstn j l = firstn i l ++ firstn (j - i) (skipn i l).
Proof.
  intros Hij. rewrite <- (firstn_skipn i l) at 1.
  rewrite firstn_app, length_firstn.
  destruct (Nat.le_gt_cases i (length l)) as [Hl|Hl].
  - rewrite firstn_firstn. replace (Nat.min j i) with i by lia.
    replace (j - Nat.min i (length l))%nat with (j - i)%nat by lia.
    reflexivity.
  - rewrite firstn_firstn. rewrite (skipn_all2 l) by lia.
    rewrite !firstn_nil, !app_nil_r.
    rewrite !firstn_all2 by lia. reflexivity.
Qed.

Lemma skipn_length_app {A : Type} (a b : list A) :
  skipn (length a) (a ++ b) = b.
Proof.
  rewrite skipn_app, Nat.sub_diag, skipn_all. reflexivity.
Qed.

Lemma firstn_length_app {A : Type} (a b : list A) :
  firstn (length a) (a ++ b) = a.
Proof.
  rewrite firstn_app, Nat.sub_diag, firstn_all. cbn [firstn].
  apply app_nil_r.
Qed.

Lemma concat_firstn_le (cs : list string16) (i j : nat) :
  (i <= j)%nat ->
  (length (concat (firstn i cs)) <= length (concat (firstn j cs)))%nat.
Proof.
  intros Hij. rewrite (firstn_split i j cs Hij), concat_app, length_app. lia.
Qed.

(** The code units between the starts of the [i]-th and the [j]-th
    character are the characters from [i] up to [j]. *)
Lemma concat_segment (cs : list string16) (i j : nat) :
  firstn (length (concat (firstn j cs)) - length (concat (firstn i cs)))
    (skipn (length (concat (firstn i cs))) (concat cs)) =
  concat (firstn (j - i) (skipn i cs)).
Proof.
  assert (E : concat cs = concat (firstn i cs) ++ concat (skipn i cs))
    by (rewrite <- concat_app, firstn_skipn; reflexivity).
  rewrite E, skipn_length_app. clear E.
  destruct (Nat.le_gt_cases i j) as [Hij|Hji].
  - rewrite (firstn_split i j cs Hij), concat_app, length_app.
    replace (length (concat (firstn i cs)) +
             length (concat (firstn (j - i) (skipn i cs))) -
             length (concat (firstn i cs)))%nat
      with (length (concat (firstn (j - i) (skipn i cs)))) by lia.
    assert (E : concat (skipn i cs) =
                concat (firstn (j - i) (skipn i cs)) ++
                concat (skipn (j - i) (skipn i cs)))
      by (rewrite <- concat_app, firstn_skipn; reflexivity).
    rewrite E at 1. apply firstn_length_app.
  - pose proof (concat_firstn_le cs j i ltac:(lia)).
    replace (length (concat (firstn j cs)) -
             length (concat (firstn i cs)))%nat with 0%nat by lia.
    replace (j - i)%nat with 0%nat by lia. reflexivity.
Qed.

Lemma Js_slice_inside (str : string16) (a b : Z) :
  0 <= a <= Js.length str -> 0 <= b <= Js.length str ->
  Js.slice str a b = firstn (Z.to_nat b - Z.to_nat a) (skipn (Z.to_nat a) str).
Proof.
  intros Ha Hb. unfold Js.slice, Js.clamp.
  destruct (Z.ltb_spec a 0); [lia|]. destruct (Z.ltb_spec b 0); [lia|].
  rewrite !Z.min_l by lia. f_equal. lia.
Qed.

Section SliceSpecs.

Context {cls : UtfClass}.
Hypothesis law : Lawful cls.

Local Abbreviation u := (multiUnit cls) (only parsing).

Lemma offsetOf_bounds (str : string16) (i : nat) :
  0 <= offsetOf u str i <= Js.length str.
Proof.
  unfold offsetOf, Js.length. split; [lia|].
  rewrite <- (concat_chars u (multi_ok law) str) at 2.
  rewrite <- (firstn_skipn i (chars u str)) at 2.
  rewrite concat_app, length_app. lia.
Qed.

Lemma offsetOf_past (str : string16) (i : nat) :
  logicalLength u str <= Z.of_nat i -> offsetOf u str i = Js.length str.
Proof.
  intros Hi. unfold offsetOf, Js.length, logicalLength in *.
  rewrite firstn_all2 by lia. rewrite (concat_chars u (multi_ok law)).
  reflexivity.
Qed.

(** The code-unit boundary that [slice] uses for a character index that
    is not negative. *)
Lemma slice_boundary (fuel : nat) (str : string16) (i : Z) :
  (length str < fuel)%nat -> 0 <= i ->
  exists b,
    findByteIndex fuel str i = Some b /\
    (if b <? 0 then Js.length str else b) = offsetOf u str (Z.to_nat i).
Proof.
  intros Hf Hi. rewrite (findByteIndex_spec law) by exact Hf.
  eexists. split; [reflexivity|].
  destruct (Z.geb_spec i (logicalLength u str)).
  - cbn [Z.ltb Z.compare]. symmetry. apply offsetOf_past. lia.
  - destruct (Z.ltb_spec i 0); [lia|].
    pose proof (offsetOf_bounds str (Z.to_nat i)).
    destruct (Z.ltb_spec (offsetOf u str (Z.to_nat i)) 0); [lia|reflexivity].
Qed.

Lemma slice_segment (str : string16) (i j : nat) :
  Js.slice str (offsetOf u str i) (offsetOf u str j) =
  concat (firstn (j - i) (skipn i (chars u str))).
Proof.
  rewrite Js_slice_inside by apply offsetOf_bounds.
  unfold offsetOf. rewrite !Nat2Z.id.
  pose proof (concat_segment (chars u str) i j) as H.
  rewrite (concat_chars u (multi_ok law) str) in H. exact H.
Qed.

(** [slice] between two character indices that are not negative. *)
Lemma slice_spec (fuel : nat) (str : string16) (s e : Z) :
  (length str < fuel)%nat -> 0 <= s -> 0 <= e ->
  slice fuel str (Some s) (Some e) =
  Some (concat (firstn (Z.to_nat e - Z.to_nat s)
                  (skipn (Z.to_nat s) (chars u str)))).
Proof.
  intros Hf Hs He. unfold slice.
  destruct (Z.ltb_spec s 0); [lia|].
  rewrite (lengthOf_spec law) by exact Hf.
  pose proof (logicalLength_le law str) as Hle.
  destruct (slice_boundary fuel str s Hf Hs) as (bs & Hbs & Es).
  destruct (Z.geb_spec e (logicalLength u str)) as [Hge|Hlt].
  - destruct (slice_boundary fuel str (Js.length str) Hf ltac:(lia))
      as (be & Hbe & Ee).
    rewrite Hbs, Hbe, Es, Ee. f_equal.
    rewrite (offsetOf_past str (Z.to_nat (Js.length str))) by lia.
    rewrite <- (offsetOf_past str (Z.to_nat e)) by lia.
    apply slice_segment.
  - destruct (Z.ltb_spec e 0); [lia|].
    destruct (slice_boundary fuel str e Hf He) as (be & Hbe & Ee).
    rewrite Hbs, Hbe, Es, Ee. f_equal. apply slice_segment.
Qed.

(** [slice] from a character index that is not negative to the end. *)
Lemma slice_from_spec (fuel : nat) (str : string16) (s : Z) :
  (length str < fuel)%nat -> 0 <= s ->
  slice fuel str (Some s) None =
  Some (concat (skipn (Z.to_nat s) (chars u str))).
Proof.
  intros Hf Hs. unfold slice.
  destruct (Z.ltb_spec s 0); [lia|].
  pose proof (logicalLength_le law str) as Hle.
  destruct (slice_boundary fuel str s Hf Hs) as (bs & Hbs & Es).
  destruct (slice_boundary fuel str (Js.length str) Hf ltac:(unfold Js.length; lia))
    as (be & Hbe & Ee).
  rewrite Hbs, Hbe, Es, Ee. f_equal.
  rewrite (offsetOf_past str (Z.to_nat (Js.length str))) by lia.
  rewrite <- (offsetOf_past str (length (chars u str)))
    by (unfold logicalLength; lia).
  rewrite slice_segment. f_equal. apply firstn_all2.
  rewrite length_skipn. lia.
Qed.

End SliceSpecs.

(** ** Cutting a prefix into characters *)

Lemma match_seq_short (a : list cclass) (s : string16) :
  (length s < length a)%nat -> match_seq a s = None.
Proof.
  intros H. destruct (match_seq a s) as [n|] eqn:E; [|reflexivity].
  apply match_seq_Some in E. lia.
Qed.

Lemma match_alt_firstn_keep (r : pattern) (m : nat) (s : string16) :
  (forall n, match_alt r s = Some n -> (n <= m)%nat ->
             match_alt r (firstn m s) = Some n) /\
  (match_alt r s = None -> match_alt r (firstn m s) = None).
Proof.
  induction r as [|a r [IH1 IH2]]; [split; [discriminate|reflexivity]|].
  cbn [match_alt].
  destruct (match_seq a s) as [k|] eqn:E.
  - split; [|discriminate]. intros n Hn Hm. injection Hn as <-.
    pose proof (match_seq_Some _ _ _ E) as [Hk _].
    rewrite match_seq_firstn by lia. rewrite E. reflexivity.
  - assert (E' : match_seq a (firstn m s) = None).
    { destruct (Nat.le_gt_cases (length a) m).
      - rewrite match_seq_firstn by lia. exact E.
      - apply match_seq_short. rewrite length_firstn. lia. }
    rewrite E'. split; assumption.
Qed.

Lemma spanAt_firstn_keep (u : pattern) (m : nat) (s : string16) :
  (spanAt u s <= m)%nat -> spanAt u (firstn m s) = spanAt u s.
Proof.
  unfold spanAt. intros H.
  destruct (match_alt_firstn_keep u m s) as [H1 H2].
  destruct (match_alt u s) as [n|].
  - rewrite (H1 n eq_refl H). reflexivity.
  - rewrite (H2 eq_refl). reflexivity.
Qed.

(** The first [k] characters of a text, put together, are cut into the
    same [k] characters. *)
Lemma chars_prefix (u : pattern) :
  Forall (fun a => (2 <= length a <= 4)%nat) u ->
  forall k t, chars u (concat (firstn k (chars u t))) = firstn k (chars u t).
Proof.
  intros Hu. induction k as [|k IH]; intros t; [reflexivity|].
  destruct t as [|x t]; [reflexivity|].
  rewrite (chars_cons u Hu (x :: t)) by discriminate.
  set (s := x :: t). set (n := spanAt u s).
  pose proof (spanAt_bounds u Hu s ltac:(discriminate)) as Hb. fold n in Hb.
  cbn [firstn concat].
  set (r := concat (firstn k (chars u (skipn n s)))).
  assert (Hr : firstn n s ++ r = firstn (n + length r) s).
  { rewrite <- (firstn_skipn n s) at 2.
    rewrite firstn_app, length_firstn.
    replace (Nat.min n (length s)) with n by lia.
    rewrite firstn_firstn. replace (Nat.min (n + length r) n) with n by lia.
    f_equal. replace (n + length r - n)%nat with (length r) by lia.
    assert (E : skipn n s = r ++ concat (skipn k (chars u (skipn n s)))).
    { unfold r. rewrite <- concat_app, firstn_skipn.
      symmetry. apply (concat_chars u Hu). }
    rewrite E at 1. symmetry. apply firstn_length_app. }
  assert (Hne : firstn n s ++ r <> []).
  { intros E. apply (f_equal (@length Z)) in E.
    rewrite length_app, length_firstn in E. simpl in E. lia. }
  rewrite (chars_cons u Hu _ Hne).
  assert (Hsp : spanAt u (firstn n s ++ r) = n).
  { rewrite Hr. apply spanAt_firstn_keep. fold n. lia. }
  rewrite Hsp. rewrite firstn_app, skipn_app, length_firstn.
  replace (Nat.min n (length s)) with n by lia.
  rewrite Nat.sub_diag, firstn_firstn, Nat.min_id. cbn [firstn skipn].
  rewrite app_nil_r. f_equal.
  rewrite skipn_all2 by (rewrite length_firstn; lia). cbn [app].
  apply IH.
Qed.

(** A run of characters from the [i]-th on is cut into those
    characters. *)
Lemma chars_segment (u : pattern) (str : string16) (i k : nat) :
  Forall (fun a => (2 <= length a <= 4)%nat) u ->
  chars u (concat (firstn k (skipn i (chars u str)))) =
  firstn k (skipn i (chars u str)).
Proof.
  intros Hu.
  destruct (Nat.le_gt_cases (length (chars u str)) i) as [Hge|Hlt].
  - rewrite skipn_all2 by lia. rewrite firstn_nil. reflexivity.
  - pose proof (chars_at_off u Hu str i 0 ltac:(lia)) as Hat.
    unfold ntok in Hat. cbn [skipn Nat.add] in Hat.
    specialize (Hat ltac:(lia)). rewrite <- Hat. apply chars_prefix. exact Hu.
Qed.

Lemma length_concat_ge (cs : list string16) :
  Forall (fun c => c <> []) cs -> (length cs <= length (concat cs))%nat.
Proof.
  induction 1 as [|c cs Hc Hcs IH]; [simpl; lia|].
  cbn [concat length]. rewrite length_app.
  destruct c; [congruence|]. simpl. lia.
Qed.

Lemma spanAt_pairs_le_2 (s : string16) : (spanAt surrogatePairs s <= 2)%nat.
Proof.
  unfold spanAt. destruct (match_alt surrogatePairs s) as [n|] eqn:E; [|lia].
  apply match_alt_Some in E. destruct E as (a & Hin & -> & _).
  destruct Hin as [<- | []]. simpl. lia.
Qed.

Lemma chars_pairs_short : forall (s : string16),
  Forall (fun c => (length c <= 2)%nat) (chars surrogatePairs s).
Proof.
  apply (chars_ind surrogatePairs surrogatePairs_multi); [constructor|].
  intros s Hs IH. rewrite (chars_cons _ surrogatePairs_multi) by exact Hs.
  constructor; [|exact IH].
  rewrite length_firstn. pose proof (spanAt_pairs_le_2 s). lia.
Qed.

(** ** Lengths and characters *)

(** X1: [lengthOf] returns a count between 0 and the number of code
    units; a text has at most 4 code units per logical character, at most
    2 in [UtfString]; the count is 0 exactly for the empty text. *)
Theorem lengthOf_bounds :
  forall (cls : UtfClass), cls = UtfString \/ cls = UtfVisualString ->
  forall (fuel : nat) (str : string16),
    (length str < fuel)%nat ->
    exists n,
      @lengthOf cls fuel str = Some n /\
      0 <= n <= Js.length str /\
      Js.length str <= 4 * n /\
      (cls = UtfString -> Js.length str <= 2 * n) /\
      (n = 0 <-> str = []).
Proof.
  intros cls Hcls fuel str Hf.
  pose proof (shipped_lawful cls Hcls) as law.
  exists (logicalLength (multiUnit cls) str).
  split; [apply (lengthOf_spec law); exact Hf|].
  split; [apply (logicalLength_le law)|].
  split; [apply (length_le_4_logicalLength law)|].
  split.
  - intros ->. change (multiUnit UtfString) with surrogatePairs.
    unfold Js.length, logicalLength.
    rewrite <- (concat_chars _ surrogatePairs_multi str) at 1.
    pose proof (chars_pairs_short str) as H.
    induction H as [|c cs Hc Hcs IH]; [simpl; lia|].
    cbn [concat length]. rewrite length_app. lia.
  - split; [apply (logicalLength_nil law)|].
    intros ->. reflexivity.
Qed.

Lemma lengthOf_bounds_witness :
  exists n,
    @lengthOf UtfString 6 flag_x = Some n /\
    0 <= n <= Js.length flag_x /\
    Js.length flag_x <= 4 * n /\
    (UtfString = UtfString -> Js.length flag_x <= 2 * n) /\
    (n = 0 <-> flag_x = []).
Proof.
  apply (lengthOf_bounds UtfString (or_introl eq_refl) 6 flag_x).
  simpl. lia.
Defined.

(** X2: [stringToCharArray] cuts the text into pieces that put together
    give the text back; no piece is empty or longer than 4 code units, and
    [lengthOf] is the number of pieces. *)
Theorem stringToCharArray_partition :
  forall (cls : UtfClass), cls = UtfString \/ cls = UtfVisualString ->
  forall (fuel : nat) (str : string16),
    (length str < fuel)%nat ->
    exists cs,
      @stringToCharArray cls fuel str = Some cs /\
      concat cs = str /\
      Forall (fun c => (1 <= length c <= 4)%nat) cs /\
      @lengthOf cls fuel str = Some (Z.of_nat (length cs)).
Proof.
  intros cls Hcls fuel str Hf.
  pose proof (shipped_lawful cls Hcls) as law.
  exists (chars (multiUnit cls) str). split; [|split; [|split]].
  - unfold stringToCharArray. rewrite (scanner_eq law).
    apply (stringToCharArray_loop_spec _ (multi_ok law) str fuel 0); lia.
  - apply (concat_chars _ (multi_ok law)).
  - apply (chars_short _ (multi_ok law)).
  - apply (lengthOf_spec law). exact Hf.
Qed.

Lemma stringToCharArray_partition_witness :
  exists cs,
    @stringToCharArray UtfVisualString 6 flag_x = Some cs /\
    concat cs = flag_x /\
    Forall (fun c => (1 <= length c <= 4)%nat) cs /\
    @lengthOf UtfVisualString 6 flag_x = Some (Z.of_nat (length cs)).
Proof.
  apply (stringToCharArray_partition UtfVisualString (or_intror eq_refl)
           6 flag_x).
  simpl. lia.
Defined.

(** X3: [charAt] at an index from 0 up to [lengthOf] is the piece of
    [stringToCharArray] at that index; at a negative index and at an index
    from [lengthOf] on it is the empty text. *)
Theorem charAt_is_piece :
  forall (cls : UtfClass), cls = UtfString \/ cls = UtfVisualString ->
  forall (fuel : nat) (str : string16) (i : Z),
    (length str < fuel)%nat ->
    exists n cs,
      @lengthOf cls fuel str = Some n /\
      @stringToCharArray cls fuel str = Some cs /\
      (0 <= i < n ->
       @charAt cls fuel str i = Some (nth (Z.to_nat i) cs []) /\
       nth (Z.to_nat i) cs [] <> []) /\
      (i < 0 \/ n <= i -> @charAt cls fuel str i = Some []).
Proof.
  intros cls Hcls fuel str i Hf.
  pose proof (shipped_lawful cls Hcls) as law.
  exists (logicalLength (multiUnit cls) str), (chars (multiUnit cls) str).
  split; [apply (lengthOf_spec law); exact Hf|].
  split.
  { unfold stringToCharArray. rewrite (scanner_eq law).
    apply (stringToCharArray_loop_spec _ (multi_ok law) str fuel 0); lia. }
  rewrite (charAt_spec law) by exact Hf. split.
  - intros Hi.
    destruct (Z.leb_spec 0 i); [|lia].
    destruct (Z.ltb_spec i (logicalLength (multiUnit cls) str)); [|lia].
    split; [reflexivity|].
    pose proof (chars_nonempty _ (multi_ok law) str) as Hne.
    rewrite Forall_forall in Hne. apply Hne. apply nth_In.
    unfold logicalLength in *. lia.
  - intros Hi.
    destruct (Z.leb_spec 0 i);
      destruct (Z.ltb_spec i (logicalLength (multiUnit cls) str));
      try reflexivity; lia.
Qed.

Lemma charAt_is_piece_witness :
  exists n cs,
    @lengthOf UtfString 5 a_smile_b = Some n /\
    @stringToCharArray UtfString 5 a_smile_b = Some cs /\
    (0 <= 1 < n ->
     @charAt UtfString 5 a_smile_b 1 = Some (nth (Z.to_nat 1) cs []) /\
     nth (Z.to_nat 1) cs [] <> []) /\
    (1 < 0 \/ n <= 1 -> @charAt UtfString 5 a_smile_b 1 = Some []).
Proof.
  apply (charAt_is_piece UtfString (or_introl eq_refl) 5 a_smile_b 1).
  simpl. lia.
Defined.

Lemma iterator_loop_spec (cls : UtfClass) (fuel : nat) (str : string16) :
  Lawful cls -> (length str < fuel)%nat ->
  forall (n : nat) (i : Z),
    0 <= i <= logicalLength (multiUnit cls) str ->
    (Z.to_nat (logicalLength (multiUnit cls) str - i) < n)%nat ->
    @iterator_loop cls n fuel str i =
    Some (skipn (Z.to_nat i) (chars (multiUnit cls) str)).
Proof.
  intros law Hf. induction n as [|n IH]; intros i Hi Hn; [lia|].
  cbn [iterator_loop]. rewrite (lengthOf_spec law) by exact Hf.
  destruct (Z.ltb_spec i (logicalLength (multiUnit cls) str)) as [Hlt|Hge].
  - rewrite (charAt_spec law) by exact Hf.
    destruct (Z.leb_spec 0 i); [|lia].
    destruct (Z.ltb_spec i (logicalLength (multiUnit cls) str)); [|lia].
    cbn [andb]. rewrite IH by lia.
    replace (Z.to_nat (i + 1)) with (S (Z.to_nat i)) by lia.
    rewrite (skipn_nth_cons (A := string16) [] (Z.to_nat i))
      by (unfold logicalLength in *; lia).
    reflexivity.
  - rewrite skipn_all2; [reflexivity|]. unfold logicalLength in *. lia.
Qed.

(** X4: iterating over an instance yields [charAt(0)], [charAt(1)], ...
    up to the length; these are the pieces of [stringToCharArray], and put
    together they give the text back. *)
Theorem iterator_yields_characters :
  forall (cls : UtfClass), cls = UtfString \/ cls = UtfVisualString ->
  forall (fuel : nat) (str : string16),
    (length str < fuel)%nat ->
    exists cs,
      @iterator cls fuel str = Some cs /\
      @stringToCharArray cls fuel str = Some cs /\
      concat cs = str /\
      forall i, (i < length cs)%nat ->
        @charAt cls fuel str (Z.of_nat i) = Some (nth i cs []).
Proof.
  intros cls Hcls fuel str Hf.
  pose proof (shipped_lawful cls Hcls) as law.
  pose proof (logicalLength_le law str) as Hle. unfold Js.length in Hle.
  exists (chars (multiUnit cls) str). split; [|split; [|split]].
  - unfold iterator.
    rewrite (iterator_loop_spec cls fuel str law Hf fuel 0) by lia.
    reflexivity.
  - unfold stringToCharArray. rewrite (scanner_eq law).
    apply (stringToCharArray_loop_spec _ (multi_ok law) str fuel 0); lia.
  - apply (concat_chars _ (multi_ok law)).
  - intros i Hi. rewrite (charAt_spec law) by exact Hf.
    unfold logicalLength.
    destruct (Z.leb_spec 0 (Z.of_nat i)); [|lia].
    destruct (Z.ltb_spec (Z.of_nat i)
                (Z.of_nat (length (chars (multiUnit cls) str)))); [|lia].
    cbn [andb]. rewrite Nat2Z.id. reflexivity.
Qed.

Lemma iterator_yields_characters_witness :
  exists cs,
    @iterator UtfString 5 a_smile_b = Some cs /\
    @stringToCharArray UtfString 5 a_smile_b = Some cs /\
    concat cs = a_smile_b /\
    forall i, (i < length cs)%nat ->
      @charAt UtfString 5 a_smile_b (Z.of_nat i) = Some (nth i cs []).
Proof.
  apply (iterator_yields_characters UtfString (or_introl eq_refl)
           5 a_smile_b).
  simpl. lia.
Defined.

(** ** Index mapping, further *)

Lemma In_firstn_skipn {A : Type} (x : A) (k i : nat) (l : list A) :
  In x (firstn k (skipn i l)) -> In x l.
Proof.
  intros H. rewrite <- (firstn_skipn i l). apply in_or_app. right.
  rewrite <- (firstn_skipn k (skipn i l)). apply in_or_app. left. exact H.
Qed.

Lemma offsetOf_step_ge (u : pattern) (str : string16) (i j : nat) :
  Forall (fun a => (2 <= length a <= 4)%nat) u ->
  (i <= j <= length (chars u str))%nat ->
  offsetOf u str i + Z.of_nat (j - i) <= offsetOf u str j.
Proof.
  intros Hu Hij. unfold offsetOf.
  rewrite (firstn_split i j (chars u str)) by lia.
  rewrite concat_app, length_app.
  assert (Hne : Forall (fun c : string16 => c <> [])
                  (firstn (j - i) (skipn i (chars u str)))).
  { rewrite Forall_forall. intros c Hc.
    apply In_firstn_skipn in Hc.
    pose proof (chars_nonempty u Hu str) as H. rewrite Forall_forall in H.
    apply H. exact Hc. }
  pose proof (length_concat_ge _ Hne) as Hlen.
  rewrite length_firstn, length_skipn in Hlen. lia.
Qed.

(** X5: the code-unit offsets that [findByteIndex] returns for valid
    character indices lie inside the text and grow strictly with the
    index; the offset of character 0 is 0. *)
Theorem findByteIndex_strictly_increasing :
  forall (cls : UtfClass), cls = UtfString \/ cls = UtfVisualString ->
  forall (fuel : nat) (str : string16) (n i j : Z),
    (length str < fuel)%nat ->
    @lengthOf cls fuel str = Some n ->
    0 <= i -> i < j -> j < n ->
    exists a b,
      @findByteIndex cls fuel str i = Some a /\
      @findByteIndex cls fuel str j = Some b /\
      0 <= a /\ a < b /\ b < Js.length str /\
      (i = 0 -> a = 0).
Proof.
  intros cls Hcls fuel str n i j Hf Hn Hi Hij Hj.
  pose proof (shipped_lawful cls Hcls) as law.
  rewrite (lengthOf_spec law) in Hn by exact Hf. injection Hn as <-.
  rewrite !(findByteIndex_spec law) by exact Hf.
  destruct (Z.geb_spec i (logicalLength (multiUnit cls) str)); [lia|].
  destruct (Z.geb_spec j (logicalLength (multiUnit cls) str)); [lia|].
  destruct (Z.ltb_spec i 0); [lia|]. destruct (Z.ltb_spec j 0); [lia|].
  eexists. eexists. split; [reflexivity|]. split; [reflexivity|].
  pose proof (offsetOf_step_ge (multiUnit cls) str (Z.to_nat i) (Z.to_nat j)
                (multi_ok law) ltac:(unfold logicalLength in *; lia)) as Hstep.
  pose proof (off_inside (multiUnit cls) (multi_ok law) str (Z.to_nat j) 0
                ltac:(lia)) as Hin.
  rewrite <- (logicalLength_ntok (cls := cls)) in Hin.
  specialize (Hin ltac:(lia)).
  change (off (multiUnit cls) str 0 (Z.to_nat j))
    with (offsetOf (multiUnit cls) str (Z.to_nat j)) in Hin.
  pose proof (offsetOf_bounds law str (Z.to_nat i)) as Hb.
  unfold Js.length. repeat split; try lia.
  intros ->. reflexivity.
Qed.

Lemma findByteIndex_strictly_increasing_witness :
  exists a b,
    @findByteIndex UtfString 5 a_smile_b 1 = Some a /\
    @findByteIndex UtfString 5 a_smile_b 2 = Some b /\
    0 <= a /\ a < b /\ b < Js.length a_smile_b /\
    (1 = 0 -> a = 0).
Proof.
  apply (findByteIndex_strictly_increasing UtfString (or_introl eq_refl)
           5 a_smile_b 3 1 2).
  - simpl. lia.
  - reflexivity.
  - lia.
  - lia.
  - lia.
Defined.

Lemma cover_range : forall (cs : list string16) (p b : Z),
  Forall (fun c => c <> []) cs ->
  p <= b < p + Z.of_nat (length (concat cs)) ->
  0 <= cover cs p b < Z.of_nat (length cs) /\
  p + Z.of_nat (length (concat (firstn (Z.to_nat (cover cs p b)) cs))) <= b /\
  b < p + Z.of_nat (length (concat (firstn (S (Z.to_nat (cover cs p b))) cs))).
Proof.
  induction cs as [|c cs IH]; intros p b Hne Hb; [simpl in Hb; lia|].
  inversion Hne as [|? ? Hc Hcs]; subst.
  cbn [concat] in Hb. rewrite length_app in Hb.
  cbn [cover]. unfold Js.length.
  destruct (Z.gtb_spec (p + Z.of_nat (length c)) b) as [Hin|Hout].
  - cbn [Z.to_nat firstn concat length]. rewrite app_nil_r. lia.
  - destruct (IH (p + Z.of_nat (length c)) b Hcs ltac:(lia)) as (H1 & H2 & H3).
    replace (Z.to_nat (1 + cover cs (p + Z.of_nat (length c)) b))
      with (S (Z.to_nat (cover cs (p + Z.of_nat (length c)) b))) by lia.
    cbn [firstn concat length]. rewrite !length_app.
    cbn [firstn concat length] in H3. lia.
Qed.

Lemma cover_monotone : forall (cs : list string16) (p b b' : Z),
  b <= b' -> cover cs p b <= cover cs p b'.
Proof.
  induction cs as [|c cs IH]; intros p b b' Hb; [simpl; lia|].
  cbn [cover].
  destruct (Z.gtb_spec (p + Js.length c) b);
    destruct (Z.gtb_spec (p + Js.length c) b'); try lia.
  - assert (Hnn : forall l q x, 0 <= cover l q x).
    { induction l as [|d l IHl]; intros q x; cbn [cover]; [lia|].
      destruct (q + Js.length d >? x); [lia|]. specialize (IHl (q + Js.length d) x). lia. }
    specialize (Hnn cs (p + Js.length c) b'). lia.
  - specialize (IH (p + Js.length c) b b' Hb). lia.
Qed.

(** X6: for a code-unit index inside the text, [findCharIndex] returns
    the index of the logical character that covers it: a valid character
    index whose character starts at or before the code unit and ends after
    it; from the length of the text on it returns -1. *)
Theorem findCharIndex_covering_character :
  forall (cls : UtfClass), cls = UtfString \/ cls = UtfVisualString ->
  forall (fuel : nat) (str : string16) (b : Z),
    (length str < fuel)%nat ->
    (Js.length str <= b -> @findCharIndex cls fuel str b = Some (-1)) /\
    (0 <= b < Js.length str ->
     exists n i a c,
       @lengthOf cls fuel str = Some n /\
       @findCharIndex cls fuel str b = Some i /\
       0 <= i < n /\
       @findByteIndex cls fuel str i = Some a /\
       @charAt cls fuel str i = Some c /\
       a <= b < a + Js.length c).
Proof.
  intros cls Hcls fuel str b Hf.
  pose proof (shipped_lawful cls Hcls) as law. split.
  - intros Hb. unfold findCharIndex.
    destruct (Z.geb_spec b (Js.length str)); [reflexivity|lia].
  - intros Hb.
    pose proof (cover_range (chars (multiUnit cls) str) 0 b
                  (chars_nonempty _ (multi_ok law) str)) as Hc.
    rewrite (concat_chars _ (multi_ok law)) in Hc.
    specialize (Hc ltac:(unfold Js.length in Hb; lia)).
    destruct Hc as (Hi & Hlo & Hhi).
    set (i := cover (chars (multiUnit cls) str) 0 b) in *.
    exists (logicalLength (multiUnit cls) str), i,
           (offsetOf (multiUnit cls) str (Z.to_nat i)),
           (nth (Z.to_nat i) (chars (multiUnit cls) str) []).
    split; [apply (lengthOf_spec law); exact Hf|].
    split; [apply (findCharIndex_spec law); assumption|].
    split; [unfold logicalLength; lia|].
    split.
    { rewrite (findByteIndex_spec law) by exact Hf.
      destruct (Z.geb_spec i (logicalLength (multiUnit cls) str));
        [unfold logicalLength in *; lia|].
      destruct (Z.ltb_spec i 0); [lia|reflexivity]. }
    split.
    { rewrite (charAt_spec law) by exact Hf.
      destruct (Z.leb_spec 0 i); [|lia].
      destruct (Z.ltb_spec i (logicalLength (multiUnit cls) str));
        [reflexivity|unfold logicalLength in *; lia]. }
    unfold offsetOf, Js.length.
    rewrite (firstn_split (Z.to_nat i) (S (Z.to_nat i))) in Hhi by lia.
    replace (S (Z.to_nat i) - Z.to_nat i)%nat with 1%nat in Hhi by lia.
    rewrite (skipn_nth_cons (A := string16) [] (Z.to_nat i)) in Hhi by lia.
    cbn [firstn] in Hhi. rewrite concat_app, length_app in Hhi.
    cbn [concat] in Hhi. rewrite app_nil_r in Hhi. lia.
Qed.

Lemma findCharIndex_covering_character_witness :
  (Js.length a_smile_b <= 2 ->
   @findCharIndex UtfString 5 a_smile_b 2 = Some (-1)) /\
  (0 <= 2 < Js.length a_smile_b ->
   exists n i a c,
     @lengthOf UtfString 5 a_smile_b = Some n /\
     @findCharIndex UtfString 5 a_smile_b 2 = Some i /\
     0 <= i < n /\
     @findByteIndex UtfString 5 a_smile_b i = Some a /\
     @charAt UtfString 5 a_smile_b i = Some c /\
     a <= 2 < a + Js.length c).
Proof.
  apply (findCharIndex_covering_character UtfString (or_introl eq_refl)
           5 a_smile_b 2).
  simpl. lia.
Defined.

(** ** Slices *)

Lemma length_concat_segment_le (cs : list string16) (i k : nat) :
  (length (concat (firstn k (skipn i cs))) <= length (concat cs))%nat.
Proof.
  rewrite <- (firstn_skipn i cs) at 2. rewrite concat_app, length_app.
  rewrite <- (firstn_skipn k (skipn i cs)) at 2.
  rewrite concat_app, length_app. lia.
Qed.

(** X7: between two character indices that are not negative, [slice]
    returns the logical characters from the first index up to the second,
    put together; cutting the result into characters gives exactly those
    characters, so its length is their number. *)
Theorem slice_is_run_of_characters :
  forall (cls : UtfClass), cls = UtfString \/ cls = UtfVisualString ->
  forall (fuel : nat) (str : string16) (s e : Z),
    (length str < fuel)%nat -> 0 <= s -> 0 <= e ->
    exists cs r,
      @stringToCharArray cls fuel str = Some cs /\
      @slice cls fuel str (Some s) (Some e) = Some r /\
      r = concat (firstn (Z.to_nat e - Z.to_nat s) (skipn (Z.to_nat s) cs)) /\
      @stringToCharArray cls fuel r =
        Some (firstn (Z.to_nat e - Z.to_nat s) (skipn (Z.to_nat s) cs)) /\
      @lengthOf cls fuel r =
        Some (Z.of_nat (length (firstn (Z.to_nat e - Z.to_nat s)
                                  (skipn (Z.to_nat s) cs)))).
Proof.
  intros cls Hcls fuel str s e Hf Hs He.
  pose proof (shipped_lawful cls Hcls) as law.
  pose proof (multi_ok law) as Hu.
  set (cs := chars (multiUnit cls) str).
  set (run := firstn (Z.to_nat e - Z.to_nat s) (skipn (Z.to_nat s) cs)).
  assert (Hlen : (length (concat run) < fuel)%nat).
  { pose proof (length_concat_segment_le cs (Z.to_nat s)
                  (Z.to_nat e - Z.to_nat s)) as H.
    unfold cs in H at 2. rewrite (concat_chars _ Hu) in H. unfold run. lia. }
  assert (Hrun : chars (multiUnit cls) (concat run) = run)
    by apply (chars_segment _ str _ _ Hu).
  exists cs, (concat run). split; [|split; [|split; [|split]]].
  - unfold stringToCharArray. rewrite (scanner_eq law).
    apply (stringToCharArray_loop_spec _ Hu str fuel 0); lia.
  - apply (slice_spec law); assumption.
  - reflexivity.
  - unfold stringToCharArray. rewrite (scanner_eq law).
    rewrite (stringToCharArray_loop_spec _ Hu (concat run) fuel 0) by lia.
    cbn [skipn]. rewrite Hrun. reflexivity.
  - rewrite (lengthOf_spec law) by exact Hlen.
    unfold logicalLength. rewrite Hrun. reflexivity.
Qed.

Lemma slice_is_run_of_characters_witness :
  exists cs r,
    @stringToCharArray UtfString 5 a_smile_b = Some cs /\
    @slice UtfString 5 a_smile_b (Some 1) (Some 3) = Some r /\
    r = concat (firstn (Z.to_nat 3 - Z.to_nat 1) (skipn (Z.to_nat 1) cs)) /\
    @stringToCharArray UtfString 5 r =
      Some (firstn (Z.to_nat 3 - Z.to_nat 1) (skipn (Z.to_nat 1) cs)) /\
    @lengthOf UtfString 5 r =
      Some (Z.of_nat (length (firstn (Z.to_nat 3 - Z.to_nat 1)
                                (skipn (Z.to_nat 1) cs)))).
Proof.
  apply (slice_is_run_of_characters UtfString (or_introl eq_refl)
           5 a_smile_b 1 3).
  - simpl. lia.
  - lia.
  - lia.
Defined.

(** X8: [slice] without indices returns the whole text, and so does
    [slice] from 0 to any index from [lengthOf] on. *)
Theorem slice_whole_text :
  forall (cls : UtfClass), cls = UtfString \/ cls = UtfVisualString ->
  forall (fuel : nat) (str : string16) (n e : Z),
    (length str < fuel)%nat ->
    @lengthOf cls fuel str = Some n -> n <= e ->
    @slice cls fuel str None None = Some str /\
    @slice cls fuel str (Some 0) (Some e) = Some str.
Proof.
  intros cls Hcls fuel str n e Hf Hn He.
  pose proof (shipped_lawful cls Hcls) as law.
  rewrite (lengthOf_spec law) in Hn by exact Hf. injection Hn as <-.
  pose proof (logicalLength_le law str) as Hle. split.
  - change (@slice cls fuel str None None)
      with (@slice cls fuel str (Some 0) None).
    rewrite (slice_from_spec law) by (try exact Hf; lia).
    cbn [Z.to_nat skipn]. f_equal. apply (concat_chars _ (multi_ok law)).
  - rewrite (slice_spec law) by (try exact Hf; lia).
    cbn [Z.to_nat skipn]. rewrite Nat.sub_0_r.
    rewrite firstn_all2 by (unfold logicalLength in *; lia).
    f_equal. apply (concat_chars _ (multi_ok law)).
Qed.

Lemma slice_whole_text_witness :
  @slice UtfVisualString 6 flag_x None None = Some flag_x /\
  @slice UtfVisualString 6 flag_x (Some 0) (Some 2) = Some flag_x.
Proof.
  apply (slice_whole_text UtfVisualString (or_intror eq_refl) 6 flag_x 2 2).
  - simpl. lia.
  - reflexivity.
  - lia.
Defined.

Section SliceRelative.

Context {cls : UtfClass}.
Hypothesis law : Lawful cls.

Local Abbreviation u := (multiUnit cls) (only parsing).

Lemma slice_relative_start (fuel : nat) (str : string16) (s : Z)
  (e : option Z) :
  (length str < fuel)%nat -> s < 0 -> 0 <= logicalLength u str + s ->
  slice fuel str (Some s) e =
  slice fuel str (Some (logicalLength u str + s)) e.
Proof.
  intros Hf Hs Hrel. unfold slice.
  destruct (Z.ltb_spec s 0); [|lia].
  destruct (Z.ltb_spec (logicalLength u str + s) 0); [lia|].
  rewrite !(lengthOf_spec law) by exact Hf. reflexivity.
Qed.

Lemma slice_relative_end (fuel : nat) (str : string16) (s : option Z)
  (e : Z) :
  (length str < fuel)%nat -> e < 0 -> 0 <= logicalLength u str + e ->
  slice fuel str s (Some e) =
  slice fuel str s (Some (logicalLength u str + e)).
Proof.
  intros Hf He Hrel. unfold slice.
  rewrite !(lengthOf_spec law) by exact Hf.
  destruct (Z.geb_spec e (logicalLength u str)); [lia|].
  destruct (Z.geb_spec (logicalLength u str + e) (logicalLength u str));
    [lia|].
  destruct (Z.ltb_spec e 0); [|lia].
  destruct (Z.ltb_spec (logicalLength u str + e) 0); [lia|].
  reflexivity.
Qed.

Lemma slice_end_before_text (fuel : nat) (str : string16) (s : option Z)
  (e : Z) :
  (length str < fuel)%nat -> logicalLength u str + e < 0 ->
  slice fuel str s (Some e) = slice fuel str s None.
Proof.
  intros Hf He. unfold slice.
  pose proof (logicalLength_le law str) as Hle.
  rewrite !(lengthOf_spec law) by exact Hf.
  destruct (Z.geb_spec e (logicalLength u str)); [lia|].
  destruct (Z.ltb_spec e 0); [|lia].
  destruct (match s with
            | Some s0 =>
                if s0 <? 0 then Some (logicalLength u str + s0) else Some s0
            | None => Some 0
            end) as [s'|]; [|reflexivity].
  destruct (findByteIndex fuel str s') as [bs|]; [|reflexivity].
  rewrite !(findByteIndex_spec law) by exact Hf.
  destruct (Z.geb_spec (logicalLength u str + e) (logicalLength u str));
    [lia|].
  destruct (Z.ltb_spec (logicalLength u str + e) 0); [|lia].
  destruct (Z.geb_spec (Js.length str) (logicalLength u str)); [|lia].
  destruct (containsUnsafeUtfChars str);
    cbn [Z.ltb Z.compare];
    [reflexivity|].
  destruct (Z.ltb_spec (logicalLength u str + e) 0); [reflexivity|lia].
Qed.

End SliceRelative.

(** X9: a negative index counts logical characters from the end: for
    [1 <= k <= lengthOf(T)], [slice(T, -k)] is the last [k] characters and
    [slice(T, 0, -k)] is the text without them. *)
Theorem slice_counts_from_the_end :
  forall (cls : UtfClass), cls = UtfString \/ cls = UtfVisualString ->
  forall (fuel : nat) (str : string16) (n k : Z),
    (length str < fuel)%nat ->
    @lengthOf cls fuel str = Some n -> 1 <= k <= n ->
    exists cs,
      @stringToCharArray cls fuel str = Some cs /\
      @slice cls fuel str (Some (- k)) None =
        Some (concat (skipn (Z.to_nat (n - k)) cs)) /\
      @slice cls fuel str (Some 0) (Some (- k)) =
        Some (concat (firstn (Z.to_nat (n - k)) cs)).
Proof.
  intros cls Hcls fuel str n k Hf Hn Hk.
  pose proof (shipped_lawful cls Hcls) as law.
  rewrite (lengthOf_spec law) in Hn by exact Hf. injection Hn as <-.
  exists (chars (multiUnit cls) str). split; [|split].
  - unfold stringToCharArray. rewrite (scanner_eq law).
    apply (stringToCharArray_loop_spec _ (multi_ok law) str fuel 0); lia.
  - rewrite (slice_relative_start law) by (try exact Hf; lia).
    rewrite (slice_from_spec law) by (try exact Hf; lia).
    replace (logicalLength (multiUnit cls) str + - k)
      with (logicalLength (multiUnit cls) str - k) by lia.
    reflexivity.
  - rewrite (slice_relative_end law) by (try exact Hf; lia).
    rewrite (slice_spec law) by (try exact Hf; lia).
    replace (logicalLength (multiUnit cls) str + - k)
      with (logicalLength (multiUnit cls) str - k) by lia.
    cbn [Z.to_nat skipn]. rewrite Nat.sub_0_r. reflexivity.
Qed.

Lemma slice_counts_from_the_end_witness :
  exists cs,
    @stringToCharArray UtfString 5 a_smile_b = Some cs /\
    @slice UtfString 5 a_smile_b (Some (- 2)) None =
      Some (concat (skipn (Z.to_nat (3 - 2)) cs)) /\
    @slice UtfString 5 a_smile_b (Some 0) (Some (- 2)) =
      Some (concat (firstn (Z.to_nat (3 - 2)) cs)).
Proof.
  apply (slice_counts_from_the_end UtfString (or_introl eq_refl)
           5 a_smile_b 3 2).
  - simpl. lia.
  - reflexivity.
  - lia.
Defined.

(** X10: a negative [end] that reaches before the first logical
    character ([lengthOf(T) + end < 0]) is not clamped to 0: [slice] then
    runs to the end of the text, as without an [end]. *)
Theorem slice_end_before_text_runs_to_end :
  forall (cls : UtfClass), cls = UtfString \/ cls = UtfVisualString ->
  forall (fuel : nat) (str : string16) (n : Z) (s : option Z) (e : Z),
    (length str < fuel)%nat ->
    @lengthOf cls fuel str = Some n -> n + e < 0 ->
    @slice cls fuel str s (Some e) = @slice cls fuel str s None /\
    @slice cls fuel str (Some 0) (Some e) = Some str.
Proof.
  intros cls Hcls fuel str n s e Hf Hn He.
  pose proof (shipped_lawful cls Hcls) as law.
  rewrite (lengthOf_spec law) in Hn by exact Hf. injection Hn as <-.
  split; [apply (slice_end_before_text law); assumption|].
  rewrite (slice_end_before_text law) by assumption.
  rewrite (slice_from_spec law) by (try exact Hf; lia).
  cbn [Z.to_nat skipn]. f_equal. apply (concat_chars _ (multi_ok law)).
Qed.

Lemma slice_end_before_text_runs_to_end_witness :
  @slice UtfString 5 a_smile_b (Some 1) (Some (- 4)) =
    @slice UtfString 5 a_smile_b (Some 1) None /\
  @slice UtfString 5 a_smile_b (Some 0) (Some (- 4)) = Some a_smile_b.
Proof.
  apply (slice_end_before_text_runs_to_end UtfString (or_introl eq_refl)
           5 a_smile_b 3 (Some 1) (- 4)).
  - simpl. lia.
  - reflexivity.
  - lia.
Defined.

(** X11: at an index that is not negative, [charAt(T, i)] is
    [slice(T, i, i + 1)]. *)
Theorem charAt_is_slice_of_one :
  forall (cls : UtfClass), cls = UtfString \/ cls = UtfVisualString ->
  forall (fuel : nat) (str : string16) (i : Z),
    (length str < fuel)%nat -> 0 <= i ->
    @charAt cls fuel str i = @slice cls fuel str (Some i) (Some (i + 1)).
Proof.
  intros cls Hcls fuel str i Hf Hi.
  pose proof (shipped_lawful cls Hcls) as law.
  rewrite (charAt_spec law), (slice_spec law) by (try exact Hf; lia).
  replace (Z.to_nat (i + 1) - Z.to_nat i)%nat with 1%nat by lia.
  destruct (Z.leb_spec 0 i); [|lia]. cbn [andb]. f_equal.
  destruct (Z.ltb_spec i (logicalLength (multiUnit cls) str)).
  - rewrite (skipn_nth_cons (A := string16) [] (Z.to_nat i))
      by (unfold logicalLength in *; lia).
    cbn [firstn concat]. symmetry. apply app_nil_r.
  - rewrite skipn_all2 by (unfold logicalLength in *; lia). reflexivity.
Qed.

Lemma charAt_is_slice_of_one_witness :
  @charAt UtfString 5 a_smile_b 1 =
  @slice UtfString 5 a_smile_b (Some 1) (Some (1 + 1)).
Proof.
  apply (charAt_is_slice_of_one UtfString (or_introl eq_refl) 5 a_smile_b 1).
  - simpl. lia.
  - lia.
Defined.

(** ** [substr] and [substring] *)

(** X12: [substr(T, start, length)] returns the empty text for a length
    that is [NaN] or not positive; otherwise it returns [length] logical
    characters (without a length: all) from the character index [start],
    a negative [start] counting from the end and stopping at 0. *)
Theorem substr_is_run_of_characters :
  forall (cls : UtfClass), cls = UtfString \/ cls = UtfVisualString ->
  forall (fuel : nat) (str : string16) (n start l : Z),
    (length str < fuel)%nat ->
    @lengthOf cls fuel str = Some n ->
    let from := Z.to_nat (if start <? 0 then Z.max (n + start) 0 else start) in
    exists cs,
      @stringToCharArray cls fuel str = Some cs /\
      @substr cls fuel str (Some start) (Some NaN) = Some [] /\
      (l <= 0 -> @substr cls fuel str (Some start) (Some (Num l)) = Some []) /\
      (0 < l ->
       @substr cls fuel str (Some start) (Some (Num l)) =
       Some (concat (firstn (Z.to_nat l) (skipn from cs)))) /\
      @substr cls fuel str (Some start) None = Some (concat (skipn from cs)).
Proof.
  intros cls Hcls fuel str n start l Hf Hn from.
  pose proof (shipped_lawful cls Hcls) as law.
  pose proof Hn as Hn'.
  rewrite (lengthOf_spec law) in Hn' by exact Hf. injection Hn' as <-.
  exists (chars (multiUnit cls) str). split; [|split; [|split; [|split]]].
  - unfold stringToCharArray. rewrite (scanner_eq law).
    apply (stringToCharArray_loop_spec _ (multi_ok law) str fuel 0); lia.
  - reflexivity.
  - intros Hl. unfold substr. destruct (Z.leb_spec l 0); [reflexivity|lia].
  - intros Hl. unfold substr. destruct (Z.leb_spec l 0); [lia|].
    rewrite Hn. subst from.
    destruct (Z.ltb_spec start 0).
    + rewrite (slice_spec law) by (try exact Hf; lia).
      do 3 f_equal. lia.
    + rewrite (slice_spec law) by (try exact Hf; lia).
      do 3 f_equal. lia.
  - unfold substr. rewrite Hn. subst from.
    destruct (Z.ltb_spec start 0);
      rewrite (slice_from_spec law) by (try exact Hf; lia); reflexivity.
Qed.

Lemma substr_is_run_of_characters_witness :
  exists cs,
    @stringToCharArray UtfString 5 a_smile_b = Some cs /\
    @substr UtfString 5 a_smile_b (Some (- 1)) (Some NaN) = Some [] /\
    (1 <= 0 ->
     @substr UtfString 5 a_smile_b (Some (- 1)) (Some (Num 1)) = Some []) /\
    (0 < 1 ->
     @substr UtfString 5 a_smile_b (Some (- 1)) (Some (Num 1)) =
     Some (concat (firstn (Z.to_nat 1)
             (skipn (Z.to_nat (if - 1 <? 0 then Z.max (3 + - 1) 0 else - 1))
                cs)))) /\
    @substr UtfString 5 a_smile_b (Some (- 1)) None =
      Some (concat
              (skipn (Z.to_nat (if - 1 <? 0 then Z.max (3 + - 1) 0 else - 1))
                 cs)).
Proof.
  apply (substr_is_run_of_characters UtfString (or_introl eq_refl)
           5 a_smile_b 3 (- 1) 1).
  - simpl. lia.
  - reflexivity.
Defined.

(** X13: [substring] takes negative bounds as 0 and does not depend on
    the order of its two bounds: it returns the logical characters from
    the smaller bound up to the larger one. *)
Theorem substring_orders_its_bounds :
  forall (cls : UtfClass), cls = UtfString \/ cls = UtfVisualString ->
  forall (fuel : nat) (str : string16) (a b : Z),
    (length str < fuel)%nat ->
    let lo := Z.to_nat (Z.min (Z.max a 0) (Z.max b 0)) in
    let hi := Z.to_nat (Z.max (Z.max a 0) (Z.max b 0)) in
    exists cs,
      @stringToCharArray cls fuel str = Some cs /\
      @substring cls fuel str (Some a) (Some (Num b)) =
        Some (concat (firstn (hi - lo) (skipn lo cs))) /\
      @substring cls fuel str (Some b) (Some (Num a)) =
        @substring cls fuel str (Some a) (Some (Num b)).
Proof.
  intros cls Hcls fuel str a b Hf lo hi.
  pose proof (shipped_lawful cls Hcls) as law.
  assert (Hval : forall x y,
            @substring cls fuel str (Some x) (Some (Num y)) =
            Some (concat
                    (firstn (Z.to_nat (Z.max (Z.max x 0) (Z.max y 0)) -
                             Z.to_nat (Z.min (Z.max x 0) (Z.max y 0)))
                       (skipn (Z.to_nat (Z.min (Z.max x 0) (Z.max y 0)))
                          (chars (multiUnit cls) str))))).
  { intros x y. unfold substring.
    destruct (Z.ltb_spec x 0); destruct (Z.ltb_spec y 0);
      match goal with
      | |- context [?p >? ?q] => destruct (Z.gtb_spec p q)
      end;
      try (exfalso; lia);
      rewrite (slice_spec law) by (try exact Hf; lia);
      match goal with
      | |- Some (concat (firstn (?p - ?q) (skipn ?q _))) =
           Some (concat (firstn (?p' - ?q') (skipn ?q' _))) =>
          replace p' with p by lia; replace q' with q by lia; reflexivity
      end. }
  exists (chars (multiUnit cls) str). split; [|split].
  - unfold stringToCharArray. rewrite (scanner_eq law).
    apply (stringToCharArray_loop_spec _ (multi_ok law) str fuel 0); lia.
  - apply Hval.
  - rewrite !Hval. rewrite (Z.max_comm (Z.max b 0)), (Z.min_comm (Z.max b 0)).
    reflexivity.
Qed.

Lemma substring_orders_its_bounds_witness :
  exists cs,
    @stringToCharArray UtfString 5 a_smile_b = Some cs /\
    @substring UtfString 5 a_smile_b (Some 2) (Some (Num (- 1))) =
      Some (concat
              (firstn (Z.to_nat (Z.max (Z.max 2 0) (Z.max (- 1) 0)) -
                       Z.to_nat (Z.min (Z.max 2 0) (Z.max (- 1) 0)))
                 (skipn (Z.to_nat (Z.min (Z.max 2 0) (Z.max (- 1) 0))) cs))) /\
    @substring UtfString 5 a_smile_b (Some (- 1)) (Some (Num 2)) =
      @substring UtfString 5 a_smile_b (Some 2) (Some (Num (- 1))).
Proof.
  apply (substring_orders_its_bounds UtfString (or_introl eq_refl)
           5 a_smile_b 2 (- 1)).
  simpl. lia.
Defined.

(** ** Searching, further *)

Lemma cover_nonneg : forall (cs : list string16) (p b : Z), 0 <= cover cs p b.
Proof.
  induction cs as [|c cs IH]; intros p b; cbn [cover]; [lia|].
  destruct (p + Js.length c >? b); [lia|].
  specialize (IH (p + Js.length c) b). lia.
Qed.

Lemma occurrence_inside (str needle rest : string16) (k : nat) :
  skipn k str = needle ++ rest -> needle <> [] -> (k < length str)%nat.
Proof.
  intros E Hne. apply (f_equal (@length Z)) in E.
  rewrite length_skipn, length_app in E.
  destruct needle; [congruence|]. simpl in E. lia.
Qed.

(** X14: with a start index that is negative or not below [lengthOf],
    [indexOf], [lastIndexOf] and [includes] find nothing, whatever the
    needle; so nothing is ever found in the empty text, not even the empty
    needle. *)
Theorem search_from_outside_finds_nothing :
  forall (cls : UtfClass), cls = UtfString \/ cls = UtfVisualString ->
  forall (fuel : nat) (str needle : string16) (n start : Z),
    (length str < fuel)%nat ->
    @lengthOf cls fuel str = Some n ->
    start < 0 \/ n <= start ->
    @indexOf cls fuel str needle (Some start) = Some (-1) /\
    @lastIndexOf cls fuel str needle (Some start) = Some (-1) /\
    @includes cls fuel str needle (Some start) = Some false.
Proof.
  intros cls Hcls fuel str needle n start Hf Hn Hs.
  pose proof (shipped_lawful cls Hcls) as law.
  rewrite (lengthOf_spec law) in Hn by exact Hf. injection Hn as <-.
  pose proof (logicalLength_le law str) as Hle.
  assert (Hb : exists b, @findByteIndex cls fuel str start = Some b /\ b < 0).
  { rewrite (findByteIndex_spec law) by exact Hf. eexists.
    split; [reflexivity|].
    destruct (Z.geb_spec start (logicalLength (multiUnit cls) str)); [lia|].
    destruct (Z.ltb_spec start 0); [|lia].
    destruct (containsUnsafeUtfChars str); lia. }
  destruct Hb as (b & Hb & Hneg).
  assert (Hi : @indexOf cls fuel str needle (Some start) = Some (-1)).
  { unfold indexOf. rewrite Hb.
    destruct (Z.ltb_spec b 0); [reflexivity|lia]. }
  split; [exact Hi|]. split.
  - unfold lastIndexOf. rewrite Hb.
    destruct (Z.ltb_spec b 0); [reflexivity|lia].
  - unfold includes. rewrite Hi. reflexivity.
Qed.

Lemma search_from_outside_finds_nothing_witness :
  @indexOf UtfString 1 [] [] (Some 0) = Some (-1) /\
  @lastIndexOf UtfString 1 [] [] (Some 0) = Some (-1) /\
  @includes UtfString 1 [] [] (Some 0) = Some false.
Proof.
  apply (search_from_outside_finds_nothing UtfString (or_introl eq_refl)
           1 [] [] 0 0).
  - simpl. lia.
  - reflexivity.
  - lia.
Defined.

(** X15: a hit of [indexOf] is a valid character index that is not before
    the start index, and the needle occurs at a code unit of that
    character. *)
Theorem indexOf_hit_is_at_or_after_start :
  forall (cls : UtfClass), cls = UtfString \/ cls = UtfVisualString ->
  forall (fuel : nat) (str needle : string16) (n start r : Z),
    (length str < fuel)%nat ->
    @lengthOf cls fuel str = Some n ->
    @indexOf cls fuel str needle (Some start) = Some r ->
    r <> -1 ->
    0 <= start <= r /\ r < n /\
    exists h rest,
      skipn h str = needle ++ rest /\
      @findCharIndex cls fuel str (Z.of_nat h) = Some r.
Proof.
  intros cls Hcls fuel str needle n start r Hf Hn Hr Hhit.
  pose proof (shipped_lawful cls Hcls) as law.
  pose proof (multi_ok law) as Hu.
  rewrite (lengthOf_spec law) in Hn by exact Hf. injection Hn as <-.
  unfold indexOf in Hr. rewrite (findByteIndex_spec law) in Hr by exact Hf.
  destruct (Z.geb_spec start (logicalLength (multiUnit cls) str)) as [Hge|Hlt].
  { cbn [Z.ltb Z.compare] in Hr. congruence. }
  destruct (Z.ltb_spec start 0) as [Hneg|Hpos].
  { destruct (containsUnsafeUtfChars str).
    - cbn [Z.ltb Z.compare] in Hr. congruence.
    - destruct (Z.ltb_spec start 0); [congruence|lia]. }
  pose proof (offsetOf_bounds law str (Z.to_nat start)) as Hob.
  pose proof (off_inside (multiUnit cls) Hu str (Z.to_nat start) 0 ltac:(lia))
    as Hin.
  rewrite <- (logicalLength_ntok (cls := cls)) in Hin.
  specialize (Hin ltac:(lia)).
  change (off (multiUnit cls) str 0 (Z.to_nat start))
    with (offsetOf (multiUnit cls) str (Z.to_nat start)) in Hin.
  set (b := offsetOf (multiUnit cls) str (Z.to_nat start)) in *.
  destruct (Z.ltb_spec b 0); [lia|].
  unfold Js.indexOf in Hr.
  assert (Hp : Z.to_nat (Z.min (Z.max b 0) (Js.length str)) = Z.to_nat b)
    by (unfold Js.length; lia).
  rewrite Hp in Hr.
  destruct (find_from_spec needle (skipn (Z.to_nat b) str) (Z.to_nat b))
    as [[Hm _] | (k & Hk & Hl & Hs & Hno)].
  { rewrite Hm in Hr. cbn [Z.ltb Z.compare] in Hr. congruence. }
  rewrite Hk in Hr. rewrite length_skipn in Hl.
  destruct (Z.ltb_spec (Z.of_nat (Z.to_nat b + k)) 0); [lia|].
  rewrite skipn_skipn in Hs. apply starts_with_true in Hs.
  destruct Hs as [rest Hs].
  assert (Hh : (Z.to_nat b + k < length str)%nat).
  { destruct (Nat.eq_dec (Z.to_nat b + k) (length str)) as [E|]; [|lia].
    exfalso. unfold findCharIndex, Js.length in Hr. rewrite E in Hr.
    destruct (Z.geb_spec (Z.of_nat (length str)) (Z.of_nat (length str)));
      [congruence|lia]. }
  rewrite (findCharIndex_spec law) in Hr by (unfold Js.length; lia).
  injection Hr as <-.
  pose proof (cover_range (chars (multiUnit cls) str) 0
                (Z.of_nat (Z.to_nat b + k)) (chars_nonempty _ Hu str)) as Hc.
  rewrite (concat_chars _ Hu) in Hc. specialize (Hc ltac:(lia)).
  pose proof (cover_monotone (chars (multiUnit cls) str) 0 b
                (Z.of_nat (Z.to_nat b + k)) ltac:(lia)) as Hmono.
  pose proof (cover_offset (chars (multiUnit cls) str) (Z.to_nat start) 0
                (chars_nonempty _ Hu str)
                ltac:(unfold logicalLength in *; lia)) as Hco.
  rewrite Z.add_0_l in Hco. fold (offsetOf (multiUnit cls) str (Z.to_nat start)) in Hco.
  fold b in Hco.
  split; [lia|]. split; [unfold logicalLength; lia|].
  exists (Z.to_nat b + k)%nat, rest. split.
  - rewrite <- Hs. f_equal. lia.
  - apply (findCharIndex_spec law); [exact Hf|unfold Js.length; lia].
Qed.

Lemma indexOf_hit_is_at_or_after_start_witness :
  0 <= 1 <= 2 /\ 2 < 3 /\
  exists h rest,
    skipn h a_smile_b = [0x62] ++ rest /\
    @findCharIndex UtfString 5 a_smile_b (Z.of_nat h) = Some 2.
Proof.
  apply (indexOf_hit_is_at_or_after_start UtfString (or_introl eq_refl)
           5 a_smile_b [0x62] 3 1 2).
  - simpl. lia.
  - reflexivity.
  - reflexivity.
  - lia.
Defined.

(** X16: on a text that is not empty, [includes] without a start index
    answers whether the needle occurs in the text as a run of code units;
    on the empty text it answers no. *)
Theorem includes_decides_occurrence :
  forall (cls : UtfClass), cls = UtfString \/ cls = UtfVisualString ->
  forall (fuel : nat) (str needle : string16),
    (length str < fuel)%nat ->
    exists answer,
      @includes cls fuel str needle None = Some answer /\
      (str = [] -> answer = false) /\
      (str <> [] ->
       (answer = true <-> exists k rest, skipn k str = needle ++ rest)).
Proof.
  intros cls Hcls fuel str needle Hf.
  pose proof (shipped_lawful cls Hcls) as law.
  pose proof (multi_ok law) as Hu.
  destruct str as [|x str'].
  { exists false. split; [|split; [reflexivity|congruence]].
    destruct Hcls as [-> | ->]; reflexivity. }
  set (str := x :: str') in *.
  assert (Hn : 0 < logicalLength (multiUnit cls) str).
  { unfold logicalLength, str. rewrite (chars_cons _ Hu) by discriminate.
    simpl. lia. }
  unfold includes, indexOf.
  rewrite (findByteIndex_spec law) by exact Hf.
  destruct (Z.geb_spec 0 (logicalLength (multiUnit cls) str)); [lia|].
  cbn [Z.ltb Z.compare].
  change (offsetOf (multiUnit cls) str (Z.to_nat 0)) with 0.
  cbn [Z.ltb Z.compare]. unfold Js.indexOf.
  change (Z.to_nat (Z.min (Z.max 0 0) (Js.length str))) with 0%nat.
  cbn [skipn].
  destruct (find_from_spec needle str 0)
    as [[Hm Hno] | (k & Hk & Hl & Hs & Hno)].
  - rewrite Hm. cbn [Z.ltb Z.compare Z.eqb negb]. exists false.
    split; [reflexivity|]. split; [reflexivity|]. intros _.
    split; [discriminate|]. intros (k & rest & E). exfalso.
    destruct (Nat.le_gt_cases k (length str)) as [Hk|Hk].
    + specialize (Hno k Hk). rewrite E, starts_with_app in Hno. discriminate.
    + rewrite skipn_all2 in E by lia.
      symmetry in E. apply app_eq_nil in E. destruct E as [-> _].
      specialize (Hno 0%nat ltac:(lia)). discriminate.
  - rewrite Hk. cbn [Nat.add].
    destruct (Z.ltb_spec (Z.of_nat k) 0); [lia|].
    pose proof (starts_with_true _ _ Hs) as [rest Hrest].
    assert (Hin : (k < length str)%nat).
    { destruct needle as [|c needle].
      - destruct k as [|k]; [unfold str; simpl; lia|].
        specialize (Hno 0%nat ltac:(lia)). discriminate.
      - apply (occurrence_inside str (c :: needle) rest k Hrest).
        discriminate. }
    rewrite (findCharIndex_spec law) by (unfold Js.length; lia).
    pose proof (cover_nonneg (chars (multiUnit cls) str) 0 (Z.of_nat k)) as Hc.
    exists true. split.
    + f_equal. destruct (Z.eqb_spec
        (cover (chars (multiUnit cls) str) 0 (Z.of_nat k)) (-1));
        [lia|reflexivity].
    + split; [discriminate|]. intros _. split; [|reflexivity].
      intros _. exists k, rest. exact Hrest.
Qed.

Lemma includes_decides_occurrence_witness :
  exists answer,
    @includes UtfString 5 a_smile_b [0xDE42; 0x62] None = Some answer /\
    (a_smile_b = [] -> answer = false) /\
    (a_smile_b <> [] ->
     (answer = true <->
      exists k rest, skipn k a_smile_b = [0xDE42; 0x62] ++ rest)).
Proof.
  apply (includes_decides_occurrence UtfString (or_introl eq_refl)
           5 a_smile_b [0xDE42; 0x62]).
  simpl. lia.
Defined.

(** The native backward search returns [best] or the last occurrence that
    begins at or before [start]. *)
Lemma find_last_spec (needle : string16) : forall s pos start best,
  (Js.find_last needle s pos start best = best /\
   forall k, (k <= length s)%nat -> (pos + k <= start)%nat ->
             Js.starts_with needle (skipn k s) = false)
  \/
  (exists k, Js.find_last needle s pos start best = Z.of_nat (pos + k) /\
     (k <= length s)%nat /\ (pos + k <= start)%nat /\
     Js.starts_with needle (skipn k s) = true /\
     forall k', (k < k')%nat -> (k' <= length s)%nat ->
                (pos + k' <= start)%nat ->
                Js.starts_with needle (skipn k' s) = false).
Proof.
  induction s as [|x s IH]; intros pos start best; cbn [Js.find_last].
  - destruct (Nat.ltb_spec start pos) as [Hlt|Hge].
    + left. split; [reflexivity|]. intros k _ Hk. lia.
    + destruct (Js.starts_with needle []) eqn:E.
      * right. exists 0%nat. rewrite Nat.add_0_r.
        split; [reflexivity|]. split; [simpl; lia|]. split; [lia|].
        split; [exact E|]. intros k' H1 H2. simpl in H2. lia.
      * left. split; [reflexivity|]. intros k Hk _. simpl in Hk.
        replace k with 0%nat by lia. exact E.
  - destruct (Nat.ltb_spec start pos) as [Hlt|Hge].
    + left. split; [reflexivity|]. intros k _ Hk. lia.
    + destruct (IH (S pos) start
                  (if Js.starts_with needle (x :: s) then Z.of_nat pos
                   else best))
        as [[Hm Hno] | (k & Hk & Hl & Hp & Hs & Hno)].
      * rewrite Hm. destruct (Js.starts_with needle (x :: s)) eqn:E.
        -- right. exists 0%nat. rewrite Nat.add_0_r.
           split; [reflexivity|]. split; [simpl; lia|]. split; [lia|].
           split; [exact E|]. intros [|k'] H1 H2 H3; [lia|].
           cbn [skipn]. apply Hno; [simpl in H2; lia|lia].
        -- left. split; [reflexivity|]. intros [|k] H1 H2; [exact E|].
           cbn [skipn]. apply Hno; [simpl in H1; lia|lia].
      * right. exists (S k). rewrite Hk.
        split; [f_equal; lia|]. split; [simpl; lia|]. split; [lia|].
        split; [exact Hs|]. intros [|k'] H1 H2 H3; [lia|].
        cbn [skipn]. apply Hno; [lia|simpl in H2; lia|lia].
Qed.

(** X17: without a start index, [lastIndexOf] of a needle that is not empty
    is -1 when the needle occurs nowhere, and otherwise a valid character
    index, the one that [findCharIndex] gives for the last occurrence; the
    empty needle is never found. *)
Theorem lastIndexOf_last_occurrence :
  forall (cls : UtfClass), cls = UtfString \/ cls = UtfVisualString ->
  forall (fuel : nat) (str needle : string16) (n : Z),
    (length str < fuel)%nat ->
    @lengthOf cls fuel str = Some n ->
    (needle = [] -> @lastIndexOf cls fuel str needle None = Some (-1)) /\
    (needle <> [] ->
     (@lastIndexOf cls fuel str needle None = Some (-1) /\
      forall k rest, skipn k str <> needle ++ rest)
     \/
     (exists h rest r,
        skipn h str = needle ++ rest /\
        (forall k rest', (h < k)%nat -> skipn k str <> needle ++ rest') /\
        @lastIndexOf cls fuel str needle None = Some r /\
        @findCharIndex cls fuel str (Z.of_nat h) = Some r /\
        0 <= r < n)).
Proof.
  intros cls Hcls fuel str needle n Hf Hn.
  pose proof (shipped_lawful cls Hcls) as law.
  pose proof (multi_ok law) as Hu.
  rewrite (lengthOf_spec law) in Hn by exact Hf. injection Hn as <-.
  unfold lastIndexOf, Js.lastIndexOf, Js.length.
  rewrite Nat2Z.id.
  destruct (find_last_spec needle str 0 (length str) (-1))
    as [[Hm Hno] | (k & Hk & Hl & _ & Hs & Hno)].
  - rewrite Hm. cbn [Z.ltb Z.compare]. split; [reflexivity|].
    intros Hne. left. split; [reflexivity|]. intros k rest E.
    pose proof (occurrence_inside str needle rest k E Hne) as Hk.
    specialize (Hno k ltac:(lia) ltac:(lia)).
    rewrite E, starts_with_app in Hno. discriminate.
  - rewrite Hk. cbn [Nat.add].
    destruct (Z.ltb_spec (Z.of_nat k) 0); [lia|].
    pose proof (starts_with_true _ _ Hs) as [rest Hrest].
    split.
    + intros ->.
      assert (k = length str).
      { destruct (Nat.eq_dec k (length str)) as [E|Hd]; [exact E|].
        specialize (Hno (length str) ltac:(lia) ltac:(lia) ltac:(lia)).
        rewrite skipn_all in Hno. discriminate. }
      subst k. unfold findCharIndex, Js.length.
      destruct (Z.geb_spec (Z.of_nat (length str)) (Z.of_nat (length str)));
        [reflexivity|lia].
    + intros Hne. right.
      pose proof (occurrence_inside str needle rest k Hrest Hne) as Hin.
      pose proof (cover_range (chars (multiUnit cls) str) 0
                    (Z.of_nat k) (chars_nonempty _ Hu str)) as Hc.
      rewrite (concat_chars _ Hu) in Hc. specialize (Hc ltac:(lia)).
      exists k, rest, (cover (chars (multiUnit cls) str) 0 (Z.of_nat k)).
      split; [exact Hrest|]. split.
      * intros k' rest' Hlt E.
        pose proof (occurrence_inside str needle rest' k' E Hne) as Hk'.
        specialize (Hno k' Hlt ltac:(lia) ltac:(lia)).
        rewrite E, starts_with_app in Hno. discriminate.
      * split; [apply (findCharIndex_spec law); [exact Hf|unfold Js.length; lia]|].
        split; [apply (findCharIndex_spec law); [exact Hf|unfold Js.length; lia]|].
        unfold logicalLength. lia.
Qed.

Lemma lastIndexOf_last_occurrence_witness :
  ([0x62] = [] ->
   @lastIndexOf UtfString 5 a_smile_b [0x62] None = Some (-1)) /\
  ([0x62] <> [] ->
   (@lastIndexOf UtfString 5 a_smile_b [0x62] None = Some (-1) /\
    forall k rest, skipn k a_smile_b <> [0x62] ++ rest)
   \/
   (exists h rest r,
      skipn h a_smile_b = [0x62] ++ rest /\
      (forall k rest', (h < k)%nat -> skipn k a_smile_b <> [0x62] ++ rest') /\
      @lastIndexOf UtfString 5 a_smile_b [0x62] None = Some r /\
      @findCharIndex UtfString 5 a_smile_b (Z.of_nat h) = Some r /\
      0 <= r < 3)).
Proof.
  apply (lastIndexOf_last_occurrence UtfString (or_introl eq_refl)
           5 a_smile_b [0x62] 3).
  - simpl. lia.
  - reflexivity.
Defined.

(** X18: a hit of [lastIndexOf] with a start index is a valid character
    index that is not after the start index; the needle occurs at a code
    unit of that character, at or before the first code unit of the start
    character, and nowhere between the two. *)
Theorem lastIndexOf_hit_is_at_or_before_start :
  forall (cls : UtfClass), cls = UtfString \/ cls = UtfVisualString ->
  forall (fuel : nat) (str needle : string16) (n start r : Z),
    (length str < fuel)%nat ->
    @lengthOf cls fuel str = Some n ->
    @lastIndexOf cls fuel str needle (Some start) = Some r ->
    r <> -1 ->
    0 <= r <= start /\ start < n /\
    exists h b rest,
      @findByteIndex cls fuel str start = Some (Z.of_nat b) /\
      (h <= b)%nat /\
      skipn h str = needle ++ rest /\
      (forall k rest', (h < k <= b)%nat -> skipn k str <> needle ++ rest') /\
      @findCharIndex cls fuel str (Z.of_nat h) = Some r.
Proof.
  intros cls Hcls fuel str needle n start r Hf Hn Hr Hhit.
  pose proof (shipped_lawful cls Hcls) as law.
  pose proof (multi_ok law) as Hu.
  rewrite (lengthOf_spec law) in Hn by exact Hf. injection Hn as <-.
  unfold lastIndexOf in Hr.
  rewrite (findByteIndex_spec law) in * by exact Hf.
  destruct (Z.geb_spec start (logicalLength (multiUnit cls) str)) as [Hge|Hlt].
  { cbn [Z.ltb Z.compare] in Hr. congruence. }
  destruct (Z.ltb_spec start 0) as [Hneg|Hpos].
  { destruct (containsUnsafeUtfChars str).
    - cbn [Z.ltb Z.compare] in Hr. congruence.
    - destruct (Z.ltb_spec start 0); [congruence|lia]. }
  pose proof (offsetOf_bounds law str (Z.to_nat start)) as Hob.
  pose proof (off_inside (multiUnit cls) Hu str (Z.to_nat start) 0 ltac:(lia))
    as Hin.
  rewrite <- (logicalLength_ntok (cls := cls)) in Hin.
  specialize (Hin ltac:(lia)).
  change (off (multiUnit cls) str 0 (Z.to_nat start))
    with (offsetOf (multiUnit cls) str (Z.to_nat start)) in Hin.
  set (b := offsetOf (multiUnit cls) str (Z.to_nat start)) in *.
  destruct (Z.ltb_spec b 0); [lia|].
  unfold Js.lastIndexOf in Hr.
  assert (Hp : Z.to_nat (Z.min (Z.max b 0) (Js.length str)) = Z.to_nat b)
    by (unfold Js.length; lia).
  rewrite Hp in Hr.
  destruct (find_last_spec needle str 0 (Z.to_nat b) (-1))
    as [[Hm _] | (k & Hk & Hl & Hkb & Hs & Hno)].
  { rewrite Hm in Hr. cbn [Z.ltb Z.compare] in Hr. congruence. }
  rewrite Hk in Hr. cbn [Nat.add] in Hr, Hkb.
  destruct (Z.ltb_spec (Z.of_nat k) 0); [lia|].
  apply starts_with_true in Hs. destruct Hs as [rest Hs].
  rewrite (findCharIndex_spec law) in Hr by (unfold Js.length; lia).
  injection Hr as <-.
  pose proof (cover_nonneg (chars (multiUnit cls) str) 0 (Z.of_nat k)) as Hc.
  pose proof (cover_monotone (chars (multiUnit cls) str) 0 (Z.of_nat k) b
                ltac:(lia)) as Hmono.
  pose proof (cover_offset (chars (multiUnit cls) str) (Z.to_nat start) 0
                (chars_nonempty _ Hu str)
                ltac:(unfold logicalLength in *; lia)) as Hco.
  rewrite Z.add_0_l in Hco.
  fold (offsetOf (multiUnit cls) str (Z.to_nat start)) in Hco.
  fold b in Hco.
  split; [lia|]. split; [lia|].
  exists k, (Z.to_nat b), rest.
  split; [f_equal; lia|]. split; [exact Hkb|]. split; [exact Hs|]. split.
  - intros k' rest' Hk' E.
    specialize (Hno k' ltac:(lia) ltac:(lia) ltac:(lia)).
    rewrite E, starts_with_app in Hno. discriminate.
  - apply (findCharIndex_spec law); [exact Hf|unfold Js.length; lia].
Qed.

Lemma lastIndexOf_hit_is_at_or_before_start_witness :
  0 <= 1 <= 2 /\ 2 < 3 /\
  exists h b rest,
    @findByteIndex UtfString 5 a_smile_b 2 = Some (Z.of_nat b) /\
    (h <= b)%nat /\
    skipn h a_smile_b = [0xDE42] ++ rest /\
    (forall k rest', (h < k <= b)%nat ->
                     skipn k a_smile_b <> [0xDE42] ++ rest') /\
    @findCharIndex UtfString 5 a_smile_b (Z.of_nat h) = Some 1.
Proof.
  apply (lastIndexOf_hit_is_at_or_before_start UtfString (or_introl eq_refl)
           5 a_smile_b [0xDE42] 3 2 1).
  - simpl. lia.
  - reflexivity.
  - reflexivity.
  - lia.
Defined.

(** ** Bytes and code points, from the array side *)

Lemma bytesOf_pair (hi low : Z) :
  0 <= hi < 256 -> 0 <= low < 256 -> bytesOf (hi * 256 + low) = [hi; low].
Proof.
  intros Hh Hl. unfold bytesOf.
  rewrite Z.div_add_l, Z.div_small, Z.add_0_r by lia.
  rewrite Z.add_comm, Z.mod_add, Z.mod_small by lia. reflexivity.
Qed.

Lemma bytesToString_pairs : forall (pairs : list (Z * Z)),
  Forall (fun p => 0 <= fst p < 256 /\ 0 <= snd p < 256) pairs ->
  bytesToString (flat_map (fun p => [fst p; snd p]) pairs) =
  map (fun p => fst p * 256 + snd p) pairs.
Proof.
  induction 1 as [|[hi low] pairs [Hh Hl] Hrest IH]; [reflexivity|].
  cbn [flat_map app fst snd bytesToString map] in *.
  rewrite Js_or_shl_bytes, IH by lia. reflexivity.
Qed.

(** X20: an array of byte pairs, high byte first, none of them the pair
    (0, 0), comes back from [bytesToString] followed by [stringToBytes];
    the text in between has one code unit per pair. *)
Theorem bytesToString_roundtrip_without_NUL :
  forall (fuel : nat) (pairs : list (Z * Z)),
    (2 < fuel)%nat ->
    Forall (fun p => 0 <= fst p < 256 /\ 0 <= snd p < 256 /\
                     (fst p <> 0 \/ snd p <> 0)) pairs ->
    let arr := flat_map (fun p => [fst p; snd p]) pairs in
    bytesToString arr = map (fun p => fst p * 256 + snd p) pairs /\
    stringToBytes fuel (bytesToString arr) = Some arr.
Proof.
  intros fuel pairs Hf Hall arr.
  assert (Hs : bytesToString arr = map (fun p => fst p * 256 + snd p) pairs).
  { apply bytesToString_pairs. eapply Forall_impl; [|exact Hall].
    cbn beta. intros p H. tauto. }
  split; [exact Hs|]. rewrite Hs. unfold stringToBytes.
  rewrite stringToBytes_loop_units.
  - cbn [app]. f_equal. subst arr. clear Hs.
    induction Hall as [|[hi low] pairs (Hh & Hl & _) Hrest IH];
      [reflexivity|].
    cbn [map flat_map fst snd] in *. rewrite bytesOf_pair by lia.
    rewrite IH. reflexivity.
  - exact Hf.
  - apply Forall_map. eapply Forall_impl; [|exact Hall].
    cbn beta. intros p H. lia.
Qed.

Lemma bytesToString_roundtrip_without_NUL_witness :
  let arr := flat_map (fun p => [fst p; snd p]) [(0, 0x61); (0xD8, 0x3D)] in
  bytesToString arr =
    map (fun p => fst p * 256 + snd p) [(0, 0x61); (0xD8, 0x3D)] /\
  stringToBytes 3 (bytesToString arr) = Some arr.
Proof.
  apply (bytesToString_roundtrip_without_NUL 3 [(0, 0x61); (0xD8, 0x3D)]).
  - lia.
  - repeat constructor; simpl; lia.
Defined.

Lemma stringFromCharCode_good (cp : Z) :
  0 <= cp <= 0x10FFFF -> ~ isHigh cp -> ~ isLow cp ->
  goodChar (stringFromCharCode cp) /\ decode (stringFromCharCode cp) = cp.
Proof.
  unfold isHigh, isLow. intros Hcp Hh Hl. unfold stringFromCharCode.
  destruct (Z.gtb_spec cp 65535) as [Hbig|Hsmall].
  - unfold Js.shr, Js.and, Js.fromCharCode, Js.toUint16.
    change (10 mod 32) with 10.
    rewrite !toInt32_small by lia.
    rewrite Z.shiftr_div_pow2 by lia.
    change 1023 with (Z.ones 10). rewrite Z.land_ones by lia.
    assert (Hd : 0 <= (cp - 65536) / 2 ^ 10 < 1024 /\
                 0 <= (cp - 65536) mod 2 ^ 10 < 1024 /\
                 cp - 65536 = 2 ^ 10 * ((cp - 65536) / 2 ^ 10) +
                              (cp - 65536) mod 2 ^ 10).
    { change (2 ^ 10) with 1024. Z.div_mod_to_equations. lia. }
    rewrite !Z.mod_small by lia. split.
    + right. eexists _, _. split; [reflexivity|].
      unfold isHigh, isLow. lia.
    + cbn [decode]. change (2 ^ 10) with 1024 in *. lia.
  - unfold Js.fromCharCode, Js.toUint16. rewrite Z.mod_small by lia. split.
    + left. exists cp. unfold isHigh, isLow. repeat split; auto; lia.
    + reflexivity.
Qed.

Lemma chars_concat_good (cs : list string16) :
  Forall goodChar cs -> chars surrogatePairs (concat cs) = cs.
Proof.
  induction 1 as [|c cs Hc Hcs IH]; [reflexivity|].
  unfold goodChar, isHigh, isLow in Hc.
  destruct Hc as [(x & -> & Hx & Hh & Hl) | (h & l & -> & Hh & Hl)];
    cbn [concat app].
  - rewrite (chars_cons _ surrogatePairs_multi) by discriminate.
    assert (E : spanAt surrogatePairs (x :: concat cs) = 1%nat).
    { unfold spanAt, surrogatePairs.
      cbn [match_alt match_seq in_class]. destruct (concat cs);
        split_comparisons; try reflexivity; lia. }
    rewrite E. cbn [firstn skipn]. rewrite IH. reflexivity.
  - rewrite (chars_cons _ surrogatePairs_multi) by discriminate.
    assert (E : spanAt surrogatePairs (h :: l :: concat cs) = 2%nat).
    { unfold spanAt, surrogatePairs.
      cbn [match_alt match_seq in_class]. split_comparisons;
        try reflexivity; lia. }
    rewrite E. cbn [firstn skipn]. rewrite IH. reflexivity.
Qed.

(** X22: an array of code points that are Unicode scalar values other than
    0 comes back from [codePointsToString] followed by
    [stringToCodePoints], in both classes. *)
Theorem codePointsToString_roundtrip_without_NUL :
  forall (cls : UtfClass), cls = UtfString \/ cls = UtfVisualString ->
  forall (fuel : nat) (cps : list Z),
    (2 * length cps < fuel)%nat ->
    Forall (fun cp => 0 < cp <= 0x10FFFF /\ ~ isHigh cp /\ ~ isLow cp) cps ->
    @stringToCodePoints cls fuel (codePointsToString cps) = Some cps.
Proof.
  intros cls Hcls fuel cps Hf Hall.
  assert (Hgood : Forall goodChar (map stringFromCharCode cps)).
  { apply Forall_map. eapply Forall_impl; [|exact Hall].
    cbn beta. intros cp (H1 & H2 & H3).
    apply stringFromCharCode_good; [lia|assumption|assumption]. }
  assert (Hdec : map decode (map stringFromCharCode cps) = cps).
  { clear Hgood Hf. induction Hall as [|cp cps (H1 & H2 & H3) Hrest IH];
      [reflexivity|].
    cbn [map]. rewrite IH. f_equal.
    apply stringFromCharCode_good; [lia|assumption|assumption]. }
  assert (Hch : chars surrogatePairs (codePointsToString cps) =
                map stringFromCharCode cps)
    by (apply chars_concat_good; exact Hgood).
  assert (Hlen : (length (codePointsToString cps) <= 2 * length cps)%nat).
  { unfold codePointsToString. clear. induction cps as [|cp cps IH];
      [simpl; lia|].
    cbn [map concat]. rewrite length_app. unfold stringFromCharCode at 1.
    destruct (cp >? 65535); cbn [length]; lia. }
  assert (H : @stringToCodePoints UtfString fuel (codePointsToString cps) =
              Some cps).
  { unfold stringToCodePoints.
    rewrite (stringToCodePoints_loop_spec fuel (codePointsToString cps)).
    - rewrite Hch. cbn [Z.to_nat skipn]. rewrite Hdec. reflexivity.
    - lia.
    - rewrite Hch. exact Hgood.
    - rewrite Hch. apply Forall_forall. intros c Hc.
      apply in_map_iff in Hc. destruct Hc as (cp & <- & Hin).
      rewrite Forall_forall in Hall. destruct (Hall cp Hin) as (H1 & H2 & H3).
      destruct (stringFromCharCode_good cp) as [_ ->];
        [lia|assumption|assumption|lia].
    - pose proof (logicalLength_le UtfString_lawful (codePointsToString cps)).
      change (multiUnit UtfString) with surrogatePairs in *. lia.
    - unfold Js.length. lia. }
  destruct Hcls as [-> | ->]; [exact H|].
  unfold stringToCodePoints. rewrite stringToCodePoints_loop_visual. exact H.
Qed.

Lemma codePointsToString_roundtrip_without_NUL_witness :
  @stringToCodePoints UtfVisualString 5
    (codePointsToString [0x61; 0x1F642]) = Some [0x61; 0x1F642].
Proof.
  apply (codePointsToString_roundtrip_without_NUL UtfVisualString
           (or_intror eq_refl) 5 [0x61; 0x1F642]).
  - simpl. lia.
  - unfold isHigh, isLow. repeat constructor; lia.
Defined.

(** X23: [charCodeAt], [codePointAt] and [stringToCodePoints] walk the text
    by surrogate pairs only, so [UtfVisualString] answers as [UtfString]
    does, for every text and index. *)
Theorem code_points_ignore_regional_indicators :
  forall (fuel : nat) (str : string16) (i : Z),
    @charCodeAt UtfVisualString fuel str i = @charCodeAt UtfString fuel str i /\
    @codePointAt UtfVisualString fuel str i =
      @codePointAt UtfString fuel str i /\
    @stringToCodePoints UtfVisualString fuel str =
      @stringToCodePoints UtfString fuel str.
Proof.
  intros fuel str i. split; [apply charCodeAt_visual|].
  split; [apply charCodeAt_visual|].
  unfold stringToCodePoints. apply stringToCodePoints_loop_visual.
Qed.

(** X24: on a well-paired text, in [UtfString], [charCodeAt] at a valid
    index is a code point up to 0x10FFFF, and [stringFromCharCode] of it is
    the character that [charAt] returns there. *)
Theorem stringFromCharCode_of_charCodeAt_is_charAt :
  forall (fuel : nat) (str : string16) (n i : Z),
    (length str < fuel)%nat ->
    WellPaired str ->
    @lengthOf UtfString fuel str = Some n ->
    0 <= i < n ->
    exists cp,
      @charCodeAt UtfString fuel str i = Some (Num cp) /\
      0 <= cp <= 0x10FFFF /\
      @charAt UtfString fuel str i = Some (stringFromCharCode cp).
Proof.
  intros fuel str n i Hf Hwp Hn Hi.
  rewrite (lengthOf_spec UtfString_lawful) in Hn by exact Hf.
  injection Hn as <-.
  change (multiUnit UtfString) with surrogatePairs in Hi.
  pose proof (chars_wellPaired str Hwp) as Hgood.
  assert (Hg : goodChar (nth (Z.to_nat i) (chars surrogatePairs str) [])).
  { rewrite Forall_forall in Hgood. apply Hgood. apply nth_In.
    unfold logicalLength in Hi. lia. }
  exists (decode (nth (Z.to_nat i) (chars surrogatePairs str) [])).
  split; [apply charCodeAt_decode; assumption|]. split.
  - unfold goodChar, isHigh, isLow in Hg.
    destruct Hg as [(x & -> & Hx & _) | (h & l & -> & Hh & Hl)];
      cbn [decode]; lia.
  - rewrite (charAt_spec UtfString_lawful) by exact Hf.
    change (multiUnit UtfString) with surrogatePairs.
    destruct (Z.leb_spec 0 i); [|lia].
    destruct (Z.ltb_spec i (logicalLength surrogatePairs str)); [|lia].
    cbn [andb]. rewrite stringFromCharCode_decode by exact Hg. reflexivity.
Qed.

Lemma stringFromCharCode_of_charCodeAt_is_charAt_witness :
  exists cp,
    @charCodeAt UtfString 5 a_smile_b 1 = Some (Num cp) /\
    0 <= cp <= 0x10FFFF /\
    @charAt UtfString 5 a_smile_b 1 = Some (stringFromCharCode cp).
Proof.
  apply (stringFromCharCode_of_charCodeAt_is_charAt 5 a_smile_b 3 1).
  - simpl. lia.
  - unfold a_smile_b.
    apply wp_unit; [lia|unfold isHigh; lia|unfold isLow; lia|].
    apply wp_pair; [unfold isHigh; lia|unfold isLow; lia|].
    apply wp_unit; [lia|unfold isHigh; lia|unfold isLow; lia|].
    apply wp_nil.
  - reflexivity.
  - lia.
Defined.

(** X27: at a high surrogate that is not followed by a low surrogate,
    [charAt] gives the surrogate alone, but [charCodeAt] still applies the
    pair formula to the next code unit, and is [NaN] when the surrogate
    ends the text. *)
Theorem charCodeAt_unpaired_high_surrogate :
  forall (cls : UtfClass), cls = UtfString \/ cls = UtfVisualString ->
  forall (fuel : nat) (pre : string16) (h : Z) (post : string16),
    (length (pre ++ h :: post) < fuel)%nat ->
    isHigh h -> ~ isLow (hd 0 post) ->
    exists np,
      @lengthOf UtfString fuel pre = Some np /\
      @charAt UtfString fuel (pre ++ h :: post) np = Some [h] /\
      @charCodeAt cls fuel (pre ++ h :: post) np =
        Some (match post with
              | [] => NaN
              | x :: _ =>
                  Num ((h - 0xd800) * 0x400 + (x - 0xdc00) + 0x10000)
              end).
Proof.
  intros cls Hcls fuel pre h post Hf Hh Hl.
  assert (Hlone : lone pre h post) by (left; split; assumption).
  pose proof (lone_chars UtfString pre h post (or_introl eq_refl) Hlone)
    as Hch.
  change (multiUnit UtfString) with surrogatePairs in Hch.
  pose proof UtfString_lawful as law.
  rewrite length_app in Hf. cbn [length] in Hf.
  set (str := pre ++ h :: post) in *.
  assert (Hlen : length str = (length pre + S (length post))%nat)
    by (unfold str; rewrite length_app; reflexivity).
  exists (logicalLength surrogatePairs pre).
  assert (Hnp : Z.to_nat (logicalLength surrogatePairs pre) =
                length (chars surrogatePairs pre))
    by (unfold logicalLength; lia).
  assert (Hn : logicalLength surrogatePairs pre <
               logicalLength surrogatePairs str).
  { unfold logicalLength. rewrite Hch, length_app. cbn [length]. lia. }
  split; [apply (lengthOf_spec law); lia|]. split.
  - rewrite (charAt_spec law) by lia.
    change (multiUnit UtfString) with surrogatePairs.
    destruct (Z.leb_spec 0 (logicalLength surrogatePairs pre));
      [|unfold logicalLength in *; lia].
    destruct (Z.ltb_spec (logicalLength surrogatePairs pre)
                (logicalLength surrogatePairs str)); [|lia].
    cbn [andb]. rewrite Hnp, Hch, app_nth2, Nat.sub_diag by lia.
    reflexivity.
  - assert (H : @charCodeAt UtfString fuel str
                  (logicalLength surrogatePairs pre) =
                Some (match post with
                      | [] => NaN
                      | x :: _ =>
                          Num ((h - 0xd800) * 0x400 + (x - 0xdc00) + 0x10000)
                      end)).
    { unfold charCodeAt.
      destruct (findSurrogateByteIndex_spec fuel str
                  (logicalLength surrogatePairs pre) ltac:(lia)
                  ltac:(unfold logicalLength; lia))
        as (res & -> & Hlo & _).
      destruct (Hlo Hn) as [Hres _]. clear Hlo.
      assert (Hr : res = Js.length pre).
      { rewrite Hres. unfold offsetOf. rewrite Hnp, Hch.
        rewrite firstn_app, Nat.sub_diag, firstn_all. cbn [firstn].
        rewrite app_nil_r, (concat_chars _ surrogatePairs_multi).
        reflexivity. }
      subst res. rewrite Hr. unfold Js.length.
      destruct (Z.ltb_spec (Z.of_nat (length pre)) 0); [lia|].
      unfold Js.charCodeAt, Js.length.
      destruct (Z.ltb_spec (Z.of_nat (length pre)) 0); [lia|].
      destruct (Z.geb_spec (Z.of_nat (length pre)) (Z.of_nat (length str)));
        [lia|].
      cbn [orb]. rewrite Nat2Z.id.
      assert (Hnth : nth (length pre) str 0 = h).
      { unfold str. rewrite app_nth2, Nat.sub_diag by lia. reflexivity. }
      rewrite !Hnth.
      unfold isHigh in Hh.
      destruct (Z.leb_spec 55296 h); [|lia].
      destruct (Z.leb_spec h 56319); [|lia]. cbn [andb].
      destruct (Z.ltb_spec (Z.of_nat (length pre) + 1) 0); [lia|].
      cbn [orb].
      destruct post as [|x post].
      - cbn [length] in Hlen.
        destruct (Z.geb_spec (Z.of_nat (length pre) + 1)
                    (Z.of_nat (length str))); [reflexivity|lia].
      - cbn [length] in Hlen.
        destruct (Z.geb_spec (Z.of_nat (length pre) + 1)
                    (Z.of_nat (length str))); [lia|].
        replace (Z.to_nat (Z.of_nat (length pre) + 1))
          with (S (length pre)) by lia.
        unfold str. rewrite app_nth2 by lia.
        replace (S (length pre) - length pre)%nat with 1%nat by lia.
        reflexivity. }
    destruct Hcls as [-> | ->]; [exact H|].
    rewrite charCodeAt_visual. exact H.
Qed.

Lemma charCodeAt_unpaired_high_surrogate_witness :
  exists np,
    @lengthOf UtfString 4 [0x61] = Some np /\
    @charAt UtfString 4 ([0x61] ++ 0xD83D :: [0x62]) np = Some [0xD83D] /\
    @charCodeAt UtfVisualString 4 ([0x61] ++ 0xD83D :: [0x62]) np =
      Some (match [0x62] with
            | [] => NaN
            | x :: _ =>
                Num ((0xD83D - 0xd800) * 0x400 + (x - 0xdc00) + 0x10000)
            end).
Proof.
  apply (charCodeAt_unpaired_high_surrogate UtfVisualString
           (or_intror eq_refl) 4 [0x61] 0xD83D [0x62]).
  - simpl. lia.
  - unfold isHigh. lia.
  - unfold isLow. simpl. lia.
Defined.

(** ** The two classes side by side *)

(** A flag is two surrogate pairs in a row. *)
Lemma flag_is_two_pairs (s : string16) (n : nat) :
  match_alt regionalIndicatorPairs s = Some n ->
  n = 4%nat /\ (4 <= length s)%nat /\
  spanAt surrogatePairs s = 2%nat /\
  spanAt surrogatePairs (skipn 2 s) = 2%nat.
Proof.
  destruct s as [|a [|b [|c [|d t]]]];
    unfold regionalIndicatorPairs; cbn [match_alt match_seq in_class];
    try (split_comparisons; discriminate).
  destruct (Z.leb_spec 55356 a); [|discriminate].
  destruct (Z.leb_spec a 55356); [|discriminate]. cbn [andb].
  destruct (Z.leb_spec 56806 b); [|discriminate].
  destruct (Z.leb_spec b 56831); [|discriminate]. cbn [andb].
  destruct (Z.leb_spec 55356 c); [|discriminate].
  destruct (Z.leb_spec c 55356); [|discriminate]. cbn [andb].
  destruct (Z.leb_spec 56806 d); [|discriminate].
  destruct (Z.leb_spec d 56831); [|discriminate]. cbn [andb option_map].
  intros E. injection E as <-.
  split; [reflexivity|]. split; [cbn [length]; lia|].
  unfold spanAt, surrogatePairs. cbn [skipn match_alt match_seq in_class].
  split; split_comparisons; try reflexivity; lia.
Qed.

Lemma default_length_counts_flags : forall (n : nat) (s : string16),
  (length s <= n)%nat ->
  length (chars surrogatePairs s) =
  (length (chars (multiUnit UtfVisualString) s) +
   length (filter (fun c => (length c =? 4)%nat)
             (chars (multiUnit UtfVisualString) s)))%nat.
Proof.
  pose proof (multi_ok UtfVisualString_lawful) as Hv.
  induction n as [|n IH]; intros s Hn.
  - destruct s; [reflexivity|simpl in Hn; lia].
  - destruct s as [|x t]; [reflexivity|].
    set (s := x :: t) in *.
    assert (Hs : s <> []) by discriminate.
    rewrite (chars_cons _ Hv) by exact Hs.
    destruct (match_alt regionalIndicatorPairs s) as [k|] eqn:E.
    + destruct (flag_is_two_pairs s k E) as (-> & Hlen & H1 & H2).
      assert (Hspan : spanAt (multiUnit UtfVisualString) s = 4%nat).
      { unfold spanAt, multiUnit. cbn [createUnsafeUtfCharFinder
          UtfVisualString source
          createRegionalIndicatorAndSurrogatePairScanner newRegExp].
        rewrite match_alt_app, E. reflexivity. }
      rewrite Hspan.
      rewrite (chars_cons _ surrogatePairs_multi) by exact Hs.
      rewrite H1.
      assert (Hs2 : skipn 2 s <> []).
      { intros E2. apply (f_equal (@length Z)) in E2.
        rewrite length_skipn in E2. cbn [length] in E2. lia. }
      rewrite (chars_cons _ surrogatePairs_multi) by exact Hs2.
      rewrite H2, skipn_skipn. cbn [Nat.add length filter].
      rewrite length_firstn, (Nat.min_l 4) by lia.
      cbn [Nat.eqb length].
      rewrite (IH (skipn 4 s)) by (rewrite length_skipn; lia). lia.
    + rewrite (spanAt_without_flags s E).
      change (multiUnit UtfString) with surrogatePairs.
      rewrite (chars_cons _ surrogatePairs_multi) by exact Hs.
      pose proof (spanAt_bounds _ surrogatePairs_multi s Hs) as Hb.
      pose proof (spanAt_pairs_le_2 s) as H2.
      cbn [length filter].
      rewrite length_firstn.
      replace (Nat.min (spanAt surrogatePairs s) (length s) =? 4)%nat
        with false by (symmetry; apply Nat.eqb_neq; lia).
      rewrite (IH (skipn (spanAt surrogatePairs s) s))
        by (rewrite length_skipn; lia).
      lia.
Qed.

(** X28: [lengthOf] in [UtfString] is [lengthOf] in [UtfVisualString] plus
    the number of flags, the visual characters of four code units; so the
    visual length is never above the default one, and never below half of
    it. *)
Theorem lengthOf_default_counts_flags_twice :
  forall (fuel : nat) (str : string16),
    (length str < fuel)%nat ->
    exists (nv : Z) (cs : list string16),
      @lengthOf UtfVisualString fuel str = Some nv /\
      @stringToCharArray UtfVisualString fuel str = Some cs /\
      let flags :=
        Z.of_nat (length (filter (fun c => (length c =? 4)%nat) cs)) in
      @lengthOf UtfString fuel str = Some (nv + flags) /\
      0 <= flags <= nv.
Proof.
  intros fuel str Hf.
  exists (logicalLength (multiUnit UtfVisualString) str),
         (chars (multiUnit UtfVisualString) str).
  split; [apply (lengthOf_spec UtfVisualString_lawful); exact Hf|].
  split.
  { unfold stringToCharArray. rewrite (scanner_eq UtfVisualString_lawful).
    apply (stringToCharArray_loop_spec _ (multi_ok UtfVisualString_lawful)
             str fuel 0); lia. }
  cbn zeta. split.
  - rewrite (lengthOf_spec UtfString_lawful) by exact Hf. f_equal.
    unfold logicalLength. change (multiUnit UtfString) with surrogatePairs.
    rewrite (default_length_counts_flags (length str) str (le_n _)). lia.
  - split; [lia|]. unfold logicalLength. apply Nat2Z.inj_le.
    apply filter_length_le.
Qed.

Lemma lengthOf_default_counts_flags_twice_witness :
  exists (nv : Z) (cs : list string16),
    @lengthOf UtfVisualString 6 flag_x = Some nv /\
    @stringToCharArray UtfVisualString 6 flag_x = Some cs /\
    let flags :=
      Z.of_nat (length (filter (fun c => (length c =? 4)%nat) cs)) in
    @lengthOf UtfString 6 flag_x = Some (nv + flags) /\
    0 <= flags <= nv.
Proof.
  apply (lengthOf_default_counts_flags_twice 6 flag_x).
  simpl. lia.
Defined.

(** ** [indexOf], from the start index to the hit *)

Lemma findByteIndex_in_range (cls : UtfClass) (visual : bool) (fuel : nat)
  (str : string16) (i : Z) :
  implements cls visual -> (length str < fuel)%nat ->
  0 <= i < Spec.logicalLength visual str ->
  @findByteIndex cls fuel str i =
    Some (Spec.charIndexToCodeUnitIndex visual str i) /\
  Spec.charIndexToCodeUnitIndex visual str i =
    offsetOf (multiUnit cls) str (Z.to_nat i) /\
  0 <= Spec.charIndexToCodeUnitIndex visual str i < Js.length str.
Proof.
  intros Himp Hf Hi.
  assert (law : Lawful cls)
    by (apply shipped_lawful; destruct Himp as [[-> _] | [-> _]]; auto).
  pose proof (logicalLength_Spec cls visual str Himp) as Hlen.
  rewrite (findByteIndex_spec law) by exact Hf. rewrite Hlen.
  destruct (Z.geb_spec i (Spec.logicalLength visual str)); [lia|].
  destruct (Z.ltb_spec i 0); [lia|].
  rewrite <- (offsetOf_Spec cls visual str i Himp) by lia.
  split; [reflexivity|]. split; [reflexivity|].
  pose proof (off_inside (multiUnit cls) (multi_ok law) str
                (Z.to_nat i) 0 ltac:(lia)) as Hin.
  rewrite <- (logicalLength_ntok (cls := cls)), Hlen in Hin.
  specialize (Hin ltac:(lia)).
  change (off (multiUnit cls) str 0 (Z.to_nat i))
    with (offsetOf (multiUnit cls) str (Z.to_nat i)) in Hin.
  assert (0 <= offsetOf (multiUnit cls) str (Z.to_nat i))
    by (unfold offsetOf; lia).
  unfold Js.length. lia.
Qed.

Lemma findCharIndex_Spec (cls : UtfClass) (visual : bool) (fuel : nat)
  (str : string16) (h : Z) :
  implements cls visual -> (length str < fuel)%nat ->
  0 <= h < Js.length str ->
  @findCharIndex cls fuel str h =
    Some (Spec.codeUnitIndexToCharIndex visual str h) /\
  Spec.codeUnitIndexToCharIndex visual str h =
    cover (chars (multiUnit cls) str) 0 h.
Proof.
  intros Himp Hf Hh.
  assert (law : Lawful cls)
    by (apply shipped_lawful; destruct Himp as [[-> _] | [-> _]]; auto).
  rewrite (findCharIndex_spec law) by assumption.
  unfold Spec.codeUnitIndexToCharIndex. unfold Js.length in Hh.
  destruct (Z.geb_spec h (Z.of_nat (length str))); [lia|].
  rewrite cover_Spec, (chars_Spec cls visual str Himp).
  split; reflexivity.
Qed.

(** C7: for a start index [start] of a logical character, [indexOf] turns
    [start] into the code-unit offset [b] of that character (as
    [findByteIndex] does); the native search from [b] finds the first
    occurrence [h] of the needle at or after [b], or none, and then the
    result is -1; a hit is reported as the index of the logical character
    that covers [h] (as [findCharIndex] does), which is not before
    [start].  For a start index without a logical character the result is
    -1, and the default start is 0.  On [a], a surrogate pair, [b], the
    needle [b] is found at character 2 although it is at code unit 3. *)
Theorem indexOf_logical_index :
  forall (cls : UtfClass) (visual : bool), implements cls visual ->
  forall (fuel : nat),
    (forall (str needle : string16) (start : Z),
       (length str < fuel)%nat ->
       0 <= start < Spec.logicalLength visual str ->
       let b := Spec.charIndexToCodeUnitIndex visual str start in
       let h := Js.indexOf str needle b in
       (@findByteIndex cls fuel str start = Some b /\
        0 <= b < Js.length str) /\
       (h < 0 ->
        (forall k, (Z.to_nat b <= k <= length str)%nat ->
                   forall rest, skipn k str <> needle ++ rest) /\
        @indexOf cls fuel str needle (Some start) = Some (-1)) /\
       (0 <= h ->
        b <= h < Js.length str /\
        (exists rest, skipn (Z.to_nat h) str = needle ++ rest) /\
        (forall k, (Z.to_nat b <= k < Z.to_nat h)%nat ->
                   forall rest, skipn k str <> needle ++ rest) /\
        @findCharIndex cls fuel str h =
          Some (Spec.codeUnitIndexToCharIndex visual str h) /\
        @indexOf cls fuel str needle (Some start) =
          Some (Spec.codeUnitIndexToCharIndex visual str h) /\
        start <= Spec.codeUnitIndexToCharIndex visual str h
              < Spec.logicalLength visual str)) /\
    (forall (str needle : string16) (start : Z),
       (length str < fuel)%nat ->
       start < 0 \/ Spec.logicalLength visual str <= start ->
       @indexOf cls fuel str needle (Some start) = Some (-1)) /\
    (forall (str needle : string16),
       @indexOf cls fuel str needle None =
       @indexOf cls fuel str needle (Some 0)) /\
    ((4 < fuel)%nat ->
     @indexOf cls fuel a_smile_b [0x62] None = Some 2 /\
     Js.indexOf a_smile_b [0x62] 0 = 3).
Proof.
  intros cls visual Himp fuel.
  assert (law : Lawful cls)
    by (apply shipped_lawful; destruct Himp as [[-> _] | [-> _]]; auto).
  pose proof (multi_ok law) as Hu.
  split; [|split; [|split]].
  - intros str needle start Hf Hs b h.
    destruct (findByteIndex_in_range cls visual fuel str start Himp Hf Hs)
      as (Hb & Hoff & Hb0).
    fold b in Hb, Hoff, Hb0.
    split; [split; assumption|].
    unfold indexOf. rewrite Hb.
    destruct (Z.ltb_spec b 0); [lia|].
    fold h. unfold Js.length in Hb0.
    assert (Hp : Z.to_nat (Z.min (Z.max b 0) (Js.length str)) = Z.to_nat b)
      by (unfold Js.length; lia).
    assert (Hh : h = Js.find_from needle (skipn (Z.to_nat b) str)
                   (Z.to_nat b))
      by (unfold h, Js.indexOf; rewrite Hp; reflexivity).
    destruct (find_from_spec needle (skipn (Z.to_nat b) str) (Z.to_nat b))
      as [[Hm Hno] | (k & Hk & Hl & Hst & Hno)].
    + rewrite Hm in Hh. split; [|intros; lia]. intros _.
      split.
      * intros k Hk rest E.
        specialize (Hno (k - Z.to_nat b)%nat).
        rewrite length_skipn, skipn_skipn in Hno.
        replace (k - Z.to_nat b + Z.to_nat b)%nat with k in Hno by lia.
        rewrite E, starts_with_app in Hno. specialize (Hno ltac:(lia)).
        discriminate.
      * destruct (Z.ltb_spec h 0); [reflexivity|lia].
    + rewrite Hk in Hh. rewrite length_skipn in Hl.
      split; [intros; lia|]. intros _.
      rewrite skipn_skipn in Hst. apply starts_with_true in Hst.
      destruct Hst as [rest Hst].
      assert (Hin : (k + Z.to_nat b < length str)%nat).
      { destruct needle as [|c needle].
        - destruct k as [|k]; [lia|].
          specialize (Hno 0%nat ltac:(lia)). discriminate.
        - apply (occurrence_inside str (c :: needle) rest _ Hst).
          discriminate. }
      assert (Hhl : 0 <= h < Js.length str) by (unfold Js.length; lia).
      destruct (findCharIndex_Spec cls visual fuel str h Himp Hf Hhl)
        as [Hfc Hcov].
      split; [unfold Js.length; lia|]. split; [|split; [|split; [|split]]].
      * exists rest. rewrite <- Hst. f_equal. lia.
      * intros j Hj rest' E.
        specialize (Hno (j - Z.to_nat b)%nat ltac:(lia)).
        rewrite skipn_skipn in Hno.
        replace (j - Z.to_nat b + Z.to_nat b)%nat with j in Hno by lia.
        rewrite E, starts_with_app in Hno. discriminate.
      * exact Hfc.
      * destruct (Z.ltb_spec h 0); [lia|exact Hfc].
      * rewrite Hcov.
        pose proof (cover_range (chars (multiUnit cls) str) 0 h
                      (chars_nonempty _ Hu str)) as Hc.
        rewrite (concat_chars _ Hu) in Hc.
        specialize (Hc ltac:(unfold Js.length in Hhl; lia)).
        pose proof (cover_monotone (chars (multiUnit cls) str) 0 b h
                      ltac:(lia)) as Hmono.
        pose proof (logicalLength_Spec cls visual str Himp) as Hlen.
        pose proof (cover_offset (chars (multiUnit cls) str)
                      (Z.to_nat start) 0 (chars_nonempty _ Hu str)
                      ltac:(unfold logicalLength in Hlen; lia)) as Hco.
        rewrite Z.add_0_l in Hco.
        fold (offsetOf (multiUnit cls) str (Z.to_nat start)) in Hco.
        rewrite <- Hoff in Hco.
        unfold logicalLength in Hlen. lia.
  - intros str needle start Hf Hs.
    pose proof (logicalLength_Spec cls visual str Himp) as Hlen.
    pose proof (logicalLength_le law str) as Hle.
    unfold indexOf. rewrite (findByteIndex_spec law) by exact Hf.
    rewrite Hlen.
    destruct (Z.geb_spec start (Spec.logicalLength visual str)) as [Hge|Hlt].
    + reflexivity.
    + destruct (Z.ltb_spec start 0); [|lia].
      destruct (containsUnsafeUtfChars str); [reflexivity|].
      destruct (Z.ltb_spec start 0); [reflexivity|lia].
  - intros str needle. reflexivity.
  - intros Hf. split; [|reflexivity].
    unfold indexOf. rewrite (findByteIndex_spec law) by (simpl; lia).
    assert (Hn : logicalLength (multiUnit cls) a_smile_b = 3)
      by (destruct Himp as [[-> _] | [-> _]]; reflexivity).
    rewrite Hn.
    assert (Ho : offsetOf (multiUnit cls) a_smile_b (Z.to_nat 0) = 0)
      by reflexivity.
    cbn [Z.geb Z.compare Z.ltb]. rewrite Ho.
    cbn [Z.ltb Z.compare].
    change (Js.indexOf a_smile_b [98] 0) with 3. cbn [Z.ltb Z.compare].
    rewrite (findCharIndex_spec law) by (unfold Js.length; simpl; lia).
    destruct Himp as [[-> _] | [-> _]]; reflexivity.
Qed.

Lemma indexOf_logical_index_witness :
  @findByteIndex UtfString 7
    [0xD83D; 0xDE42; 0x61; 0xD83D; 0xDE42; 0x61] 2 = Some 3 /\
  Js.indexOf [0xD83D; 0xDE42; 0x61; 0xD83D; 0xDE42; 0x61] [0x61] 3 = 5 /\
  @indexOf UtfString 7
    [0xD83D; 0xDE42; 0x61; 0xD83D; 0xDE42; 0x61] [0x61] (Some 2) = Some 3 /\
  @indexOf UtfString 7
    [0xD83D; 0xDE42; 0x61; 0xD83D; 0xDE42; 0x61] [0x62] (Some 2) =
    Some (-1) /\
  @indexOf UtfString 7 a_smile_b [0x62] None = Some 2 /\
  Js.indexOf a_smile_b [0x62] 0 = 3.
Proof.
  destruct (indexOf_logical_index UtfString false
              (or_introl (conj eq_refl eq_refl)) 7) as (H1 & _ & _ & H4).
  destruct (H1 [0xD83D; 0xDE42; 0x61; 0xD83D; 0xDE42; 0x61] [0x61] 2
              ltac:(simpl; lia) ltac:(vm_compute; split; congruence))
    as ((Hb & _) & _ & Hhit).
  destruct (H1 [0xD83D; 0xDE42; 0x61; 0xD83D; 0xDE42; 0x61] [0x62] 2
              ltac:(simpl; lia) ltac:(vm_compute; split; congruence))
    as (_ & Hmiss & _).
  destruct (Hhit ltac:(vm_compute; congruence)) as (_ & _ & _ & _ & Hi & _).
  destruct (Hmiss ltac:(vm_compute; reflexivity)) as [_ Hm].
  split; [exact Hb|]. split; [reflexivity|]. split; [exact Hi|].
  split; [exact Hm|]. apply H4. lia.
Defined.
